(** * Doodle Digger: a shallow embedding of [doodle-digger.ts] and of its
    JavaScript twin, and the properties of the traversal and of the image
    pipeline proved about them. *)

From Stdlib Require Import NArith ZArith List Bool String Ascii DecimalString Lia.
From stdpp Require Import base option list gmap.

Local Open Scope N_scope.

(** ** JavaScript strings

    A JavaScript string is a sequence of UTF-16 code units; a code unit is
    kept as an [N].  [js] writes an ASCII literal as such a string. *)

Abbreviation JSString := (list N).

Definition js (s : string) : JSString :=
  List.map N_of_ascii (list_ascii_of_string s).

Definition inRange (lo hi c : N) : bool := (lo <=? c) && (c <=? hi).

(** The class [\s] of a JavaScript regular expression, which is also what
    [String.prototype.trim] removes: TAB, LF, VT, FF, CR, SP, NBSP, the
    space separators of Unicode, LS, PS and the byte order mark. *)
Definition isSpace (c : N) : bool :=
  inRange 9 13 c || (c =? 32) || (c =? 160) || (c =? 5760)
  || inRange 8192 8202 c || (c =? 8232) || (c =? 8233) || (c =? 8239)
  || (c =? 8287) || (c =? 12288) || (c =? 65279).

Definition isDigit (c : N) : bool := inRange 48 57 c.      (* \d *)
Definition isLowerAZ (c : N) : bool := inRange 97 122 c.   (* a-z *)
Definition hyphen : N := 45.
Definition underscore : N := 95.
Definition semicolon : N := 59.

(** [text.trim().length === 0]; the empty string, for which [!text] holds,
    is the case of an empty list. *)
Definition isBlank (text : JSString) : bool := forallb isSpace text.

(** [String.prototype.toLowerCase], one code unit at a time.  The ASCII
    capitals, and the two code units outside ASCII whose lower case has an
    ASCII letter in it (U+0130, capital I with dot above, becomes [i] and
    the combining dot U+0307; U+212A, the Kelvin sign, becomes [k]).  Every
    other cased letter is mapped by JavaScript to a letter outside ASCII
    that is not white space; such units are left as they are here. *)
Definition toLowerUnit (c : N) : list N :=
  if inRange 65 90 c then [c + 32]
  else if c =? 304 then [105; 775]
  else if c =? 8490 then [107]
  else [c].

Definition toLowerCase (s : JSString) : JSString := flat_map toLowerUnit s.

(** ** The name sanitizer *)

(** The units that [/[^a-z0-9\s-]/g] does not match. *)
Definition isPathChar (c : N) : bool :=
  isLowerAZ c || isDigit c || isSpace c || (c =? hyphen).

(** [.replace(/[^a-z0-9\s-]/g, "")] *)
Definition stripUnsafe (s : JSString) : JSString := List.filter isPathChar s.

(** [.replace(/\s+/g, "_")]: every maximal run of white space becomes one
    underscore, which is written when the last unit of the run is read. *)
Fixpoint collapseSpaces (s : JSString) : JSString :=
  match s with
  | [] => []
  | c :: t =>
      if isSpace c then
        match t with
        | c' :: _ => if isSpace c' then collapseSpaces t
                     else underscore :: collapseSpaces t
        | [] => [underscore]
        end
      else c :: collapseSpaces t
  end.

(** [.substring(0, maxLength)] for an integer [maxLength]: a negative end is
    taken as 0. *)
Definition substring0 (maxLength : Z) (s : JSString) : JSString :=
  take (Z.to_nat maxLength) s.

(** [cleanTextForPath(text, maxLength)] *)
Definition cleanTextForPath (text : JSString) (maxLength : Z) : JSString :=
  if isBlank text then js "unknown"
  else substring0 maxLength
         (collapseSpaces (stripUnsafe (toLowerCase text))).

(** [extractTextWithFallback], after [element.textContent()] has answered
    [text] ([None] is JavaScript's [null]):
    [text?.trim() ? cleanTextForPath(text, maxLength) : fallbackName]. *)
Definition textWithFallback (text : option JSString) (fallbackName : JSString)
    (maxLength : Z) : JSString :=
  match text with
  | Some t => if isBlank t then fallbackName else cleanTextForPath t maxLength
  | None => fallbackName
  end.

(** The units of [^[a-z0-9_-]*$]. *)
Definition isSafeChar (c : N) : bool :=
  isLowerAZ c || isDigit c || (c =? underscore) || (c =? hyphen).

(** [^[a-z0-9_-]{0,maxLen}$] *)
Definition matchesSafe (maxLength : Z) (s : JSString) : bool :=
  forallb isSafeChar s && (Z.of_nat (length s) <=? Z.max 0 maxLength)%Z.

(** ** Strings: searching, trimming, numbers *)

(** [s.startsWith(p)] *)
Fixpoint startsWith (p s : JSString) : bool :=
  match p, s with
  | [], _ => true
  | a :: p', b :: s' => (a =? b) && startsWith p' s'
  | _ :: _, [] => false
  end.

(** [s.includes(p)] *)
Fixpoint includes (p s : JSString) : bool :=
  startsWith p s ||
  match s with
  | [] => false
  | _ :: t => includes p t
  end.

Fixpoint takeWhileB (p : N -> bool) (s : JSString) : JSString :=
  match s with
  | c :: t => if p c then c :: takeWhileB p t else []
  | [] => []
  end.

Fixpoint dropWhileB (p : N -> bool) (s : JSString) : JSString :=
  match s with
  | c :: t => if p c then dropWhileB p t else s
  | [] => []
  end.

(** [s.trim()] *)
Definition trim (s : JSString) : JSString :=
  rev (dropWhileB isSpace (rev (dropWhileB isSpace s))).

(** The decimal digits of a number, as a template literal prints it. *)
Definition decimal (n : nat) : JSString :=
  js (NilEmpty.string_of_uint (Nat.to_uint n)).

(** A string used as a condition: [null], [undefined] and [""] are falsy. *)
Definition truthy (s : option JSString) : bool :=
  match s with
  | Some (_ :: _) => true
  | _ => false
  end.

(** ** The size token of a resource URL *)

(** Does [s] begin with a match of [/=s\d+/]? *)
Definition sizeTokenAt (s : JSString) : bool :=
  match s with
  | a :: b :: d :: _ => (a =? 61) && (b =? 115) && isDigit d
  | _ => false
  end.

(** [src.replace(/=s\d+/g, "=s4096")], read from left to right.  [inDigits]
    says that the units just before [s] were the [=s] and the first digits
    of a token that has been replaced: the digits that follow belong to the
    same greedy [\d+] and are dropped. *)
Fixpoint replaceSize (inDigits : bool) (s : JSString) : JSString :=
  match s with
  | [] => []
  | c :: t =>
      if inDigits && isDigit c then replaceSize true t
      else if sizeTokenAt s then
        match t with
        | _ :: t' => js "=s4096" ++ replaceSize true t'
        | [] => [c]
        end
      else c :: replaceSize false t
  end.

(** The two lines of [downloadPreset] that ask for the largest rendition:
    [if (src.includes("=s")) src = src.replace(/=s\d+/g, "=s4096")]. *)
Definition maxResolution (src : JSString) : JSString :=
  if includes (js "=s") src then replaceSize false src else src.

(** ** The filter of a layer's style *)

(** Capture group 1 of [/filter:\s*([^;]+)/] when the match is tried at the
    start of [s].  [\s*] is greedy; should nothing but a semicolon or the
    end of the string follow the white space, the matcher backtracks by one
    unit and the group is the last white space unit. *)
Definition filterMatchAt (s : JSString) : option JSString :=
  if startsWith (js "filter:") s then
    let t := drop 7 s in
    let w := takeWhileB isSpace t in
    let g := takeWhileB (fun c => negb (c =? semicolon)) (dropWhileB isSpace t) in
    match g with
    | _ :: _ => Some g
    | [] => match last w with
            | Some c => Some [c]
            | None => None
            end
    end
  else None.

(** [style.match(/filter:\s*([^;]+)/)?.[1]]: the leftmost position at which
    the expression matches. *)
Fixpoint filterMatch (s : JSString) : option JSString :=
  match filterMatchAt s with
  | Some g => Some g
  | None =>
      match s with
      | [] => None
      | _ :: t => filterMatch t
      end
  end.

(** [style?.match(/filter:\s*([^;]+)/)?.[1]?.trim()] *)
Definition filterInfo (style : option JSString) : option JSString :=
  match style with
  | Some s => trim <$> filterMatch s
  | None => None
  end.

Local Close Scope N_scope.

(** ** Paths and the file system

    A path is kept as its list of segments.  The segments the program joins
    are sanitized names, fallback names and file names of its own making:
    none has a separator or a dot segment in it, so that [path.join] only
    drops the empty ones. *)

Abbreviation Path := (list JSString).
Abbreviation Buffer := (list N).

Definition isEmpty (s : JSString) : bool :=
  match s with
  | [] => true
  | _ => false
  end.

(** [path.join(base, ...segments)] *)
Definition pathJoin (base : Path) (segments : list JSString) : Path :=
  base ++ List.filter (fun s => negb (isEmpty s)) segments.

(** [path.basename(p)] *)
Definition basename (p : Path) : JSString := default [] (last p).

Definition PERSISTENT_CONTEXT_DIR : Path := [js "persistent_context"].
Definition DOWNLOADS_DIR : Path := [js "images"].

(** ** The menu shown by the picture selection frame *)

Record Layer := mkLayer {
  layerSrc : option JSString;      (* the [src] attribute of [img.x1Lcpf] *)
  layerStyle : option JSString     (* its [style] attribute *)
}.

Record Preset := mkPreset { layers : list Layer }.

Record Picture := mkPicture {
  pictureTitle : option JSString;  (* text of the third [h1.i2Djkc] *)
  presets : list Preset
}.

Record PictureClass := mkPictureClass {
  classTitle : option JSString;    (* text of [.nvhd9d] *)
  pictures : list Picture
}.

Record Collection := mkCollection {
  collectionTitle : option JSString;   (* text of the section's [h3] *)
  pictureClasses : list PictureClass
}.

Abbreviation Menu := (list Collection).

Definition classAt (menu : Menu) (c k : nat) : option PictureClass :=
  col ← menu !! c; pictureClasses col !! k.

Definition pictureAt (menu : Menu) (c k p : nat) : option Picture :=
  cls ← classAt menu c k; pictures cls !! p.

Definition presetAt (menu : Menu) (c k p r : nat) : option Preset :=
  pic ← pictureAt menu c k p; presets pic !! r.

Definition layerAt (menu : Menu) (c k p r i : nat) : option Layer :=
  pre ← presetAt menu c k p r; layers pre !! i.

(** ** The browser as the program sees it

    The page is a mock with one cursor: the account page, the photo dialog,
    and then the four depths of the menu.  An action is accepted only at
    the depth that shows its control. *)

Inductive Cursor :=
| Blank
| AccountPage
| PhotoDialog
| AtCollections
| AtClass (c k : nat)
| AtPicture (c k p : nat) (selected : option nat)
| AtPreview (c k p r : nat).

(** What the first frames of the page answer when they are probed. *)
Record Probe := mkProbe {
  dialogCount : nat;          (* [div[role="dialog"]] *)
  changeButtonCount : nat;    (* [button[jsname="oKomv"]] *)
  sectionsCount : nat         (* [section] *)
}.

Inductive Attribute := AttrSrc | AttrStyle.

(** The locators of the program. *)
Inductive Locator :=
| ProfilePictureButton                 (* [div[aria-label="Change profile photo"]] *)
| ChangeButton (frame : Probe)         (* [button[jsname="oKomv"]] of the probed frame *)
| Collections                          (* [section.u4mwyd] *)
| CollectionHeading (c : nat)          (* [collections.nth(c).locator("h3").first()] *)
| PictureClasses (c : nat)             (* [collections.nth(c).locator("div.LWctvf")] *)
| ClassName (c k : nat)                (* [.nvhd9d] of class [k] of collection [c] *)
| ClassButton (c k : nat)              (* [button.WPmjde.Iq3YXe] of that class *)
| Pictures                             (* [div[role="listitem"]] *)
| PictureButton (p : nat)              (* [button.EbkQ6c.Iq3YXe] of [pictures.nth(p)] *)
| PictureTitle                         (* [h1.i2Djkc], the third *)
| PresetsHeading                       (* [div[role="heading"]:has-text("Presets")] *)
| PresetRadios                         (* [input[type="radio"][name="wtduFd"]] *)
| PresetRadio (r : nat)                (* [presetRadios.nth(r)] *)
| PresetLabel (r : nat)                (* its parent, [xpath=..] *)
| NextButton
| ImageContainer                       (* [div.VnojDb.aAuPs] *)
| Images                               (* [img.x1Lcpf] *)
| Image (i : nat)                      (* [images.nth(i)] *)
| CancelButton                         (* [button[jsname="QApdW"]:has-text("Cancel")] *)
| BackButton (ordinal : nat).          (* [button[jsname="fYZky"][aria-label="Back"]], nth *)

(** What the mock records of the clicks it accepted. *)
Inductive Action :=
| Navigate
| OpenPhotoDialog
| OpenMenu
| OpenClass (c k : nat)
| OpenPicture (c k p : nat)
| SelectPreset (c k p r : nat)
| ClickPresetLabel (c k p r : nat)
| OpenPreview (c k p r : nat)
| Cancel (c k p r : nat)
| Back (ordinal : nat).

Definition isSome {A} (o : option A) : bool :=
  match o with
  | Some _ => true
  | None => false
  end.

(** [locator.count()] *)
Definition countOf (menu : Menu) (cur : Cursor) (l : Locator) : nat :=
  match l, cur with
  | ProfilePictureButton, AccountPage => 1
  | ChangeButton frame, PhotoDialog => changeButtonCount frame
  | Collections, _ => length menu
  | CollectionHeading c, _ => if isSome (menu !! c) then 1 else 0
  | PictureClasses c, _ => from_option (fun col => length (pictureClasses col)) 0 (menu !! c)
  | ClassName c k, _ => if isSome (classAt menu c k) then 1 else 0
  | ClassButton c k, AtCollections => if isSome (classAt menu c k) then 1 else 0
  | Pictures, AtClass c k =>
      from_option (fun cls => length (pictures cls)) 0 (classAt menu c k)
  | PictureButton p, AtClass c k => if isSome (pictureAt menu c k p) then 1 else 0
  | PictureTitle, AtPicture c k p _ => if isSome (pictureAt menu c k p) then 1 else 0
  | PresetsHeading, AtPicture c k p _ => if isSome (pictureAt menu c k p) then 1 else 0
  | PresetRadios, AtPicture c k p _ =>
      from_option (fun pic => length (presets pic)) 0 (pictureAt menu c k p)
  | PresetRadio r, AtPicture c k p _ => if isSome (presetAt menu c k p r) then 1 else 0
  | PresetLabel r, AtPicture c k p _ => if isSome (presetAt menu c k p r) then 1 else 0
  | NextButton, AtPicture c k p (Some r) => if isSome (presetAt menu c k p r) then 1 else 0
  | ImageContainer, AtPreview c k p r => if isSome (presetAt menu c k p r) then 1 else 0
  | Images, AtPreview c k p r =>
      from_option (fun pre => length (layers pre)) 0 (presetAt menu c k p r)
  | Image i, AtPreview c k p r => if isSome (layerAt menu c k p r i) then 1 else 0
  | CancelButton, AtPreview _ _ _ _ => 1
  | BackButton 2, AtPicture _ _ _ _ => 1
  | BackButton 1, AtClass _ _ => 1
  | _, _ => 0
  end.

(** Where a click takes the cursor, and what the mock records of it. *)
Definition clickEffect (cur : Cursor) (l : Locator) : Cursor * list Action :=
  match l, cur with
  | ProfilePictureButton, AccountPage => (PhotoDialog, [OpenPhotoDialog])
  | ChangeButton _, PhotoDialog => (AtCollections, [OpenMenu])
  | ClassButton c k, AtCollections => (AtClass c k, [OpenClass c k])
  | PictureButton p, AtClass c k => (AtPicture c k p None, [OpenPicture c k p])
  | PresetRadio r, AtPicture c k p _ => (AtPicture c k p (Some r), [SelectPreset c k p r])
  | PresetLabel r, AtPicture c k p _ => (AtPicture c k p (Some r), [ClickPresetLabel c k p r])
  | NextButton, AtPicture c k p (Some r) => (AtPreview c k p r, [OpenPreview c k p r])
  | CancelButton, AtPreview c k p r => (AtPicture c k p (Some r), [Cancel c k p r])
  | BackButton 2, AtPicture c k p _ => (AtClass c k, [Back 2])
  | BackButton 1, AtClass c k => (AtCollections, [Back 1])
  | _, _ => (cur, [])
  end.

(** [locator.textContent()] of an element that is there. *)
Definition textOf (menu : Menu) (cur : Cursor) (l : Locator) : option JSString :=
  match l, cur with
  | CollectionHeading c, _ => col ← menu !! c; collectionTitle col
  | ClassName c k, _ => cls ← classAt menu c k; classTitle cls
  | PictureTitle, AtPicture c k p _ => pic ← pictureAt menu c k p; pictureTitle pic
  | _, _ => None
  end.

(** [locator.getAttribute(name)] of an element that is there. *)
Definition attributeOf (menu : Menu) (cur : Cursor) (l : Locator) (a : Attribute)
    : option JSString :=
  match l, cur with
  | Image i, AtPreview c k p r =>
      lay ← layerAt menu c k p r i;
      match a with
      | AttrSrc => layerSrc lay
      | AttrStyle => layerStyle lay
      end
  | _, _ => None
  end.

(** ** The network, the canvas and sharp *)

(** How [https.get(url)] ends: the body arrives and the file stream
    finishes; the request emits [error]; the response breaks off after some
    bytes, in which case neither handler of [downloadImage] runs; or
    [https.get] itself throws before any request is made, as it does for a
    URL that is not valid or whose protocol is not [https:]. *)
Inductive Transfer :=
| Received (body : Buffer)
| RequestError (message : JSString)
| Stalled (partial : Buffer)
| Refused (message : JSString).

(** How the canvas rendering inside [page.evaluate] ends: the PNG of the
    filtered image (what decoding the data URL gives back), no 2d context,
    or an image that does not load. *)
Inductive Rendering :=
| Rendered (png : Buffer)
| NoContext
| LoadFailed.

Inductive BlendMode := Clear | Source | Over | Multiply | Screen.

Record Overlay := mkOverlay {
  input : Buffer;
  top : Z;
  left : Z;
  blend : BlendMode
}.

(** [sharp(base).composite(overlays).jpeg({ quality })] *)
Record SharpJob := mkSharpJob {
  baseInput : option Buffer;
  overlays : list Overlay;
  jpegQuality : Z
}.

Inductive Encoding :=
| Encoded (bytes : Buffer)
| SharpError (message : JSString).

(** Everything outside the program.  [fault n] is the error, if any, with
    which the browser answers the program's [n]-th request; [userData] is
    what the browser writes into its profile directory when it is
    launched, by the paths inside that directory. *)
Record World := mkWorld {
  fault : nat -> option JSString;
  userData : list (Path * Buffer);
  dialogFrames : list (option Probe);   (* iframes, profile picture clicked *)
  menuFrames : list (option Menu);      (* iframes, Change clicked *)
  fetch : JSString -> Transfer;
  render : JSString -> JSString -> Rendering;
  sharp : SharpJob -> Encoding
}.

(** The two sources of the program: [src/doodle-digger.ts] and the
    JavaScript file [unnamed/part_001].  Token by token the second is the
    first with [require] for [import], without the type annotations, the
    casts and the non-null assertions, and with the variables of the outer
    loop called [section...] for [collection...], but for three things: the
    index of the menu's iframe ([menuFrameIndex]), the guard on the 2d
    context in [applyCSSFilterToImage], which only the first has, and the
    pictographs of the printed lines ([pictograph]).  The program below is
    written once, over the source it stands for, and reads [v] at those
    three places. *)
Inductive Variant := TypeScript | JavaScript.

(** ** What the program prints *)

Inductive Message :=
| MsgBanner
| MsgRule
| MsgNoAuth
| MsgLaunching
| MsgClickingPicture
| MsgClickingChange
| MsgCollection (i n : nat) (name : JSString)
| MsgClass (i n : nat) (name : JSString)
| MsgPicture (i n : nat) (name : JSString)
| MsgPreset (i n : nat) (pictureName : JSString)
| MsgSingleSaved (file : JSString)
| MsgPresetDone (i : nat)
| MsgSavedTo (folder : Path)
| MsgPicturesDone (n : nat) (className : JSString)
| MsgClassesDone (n : nat) (collectionName : JSString)
| MsgCollectionsDone (n : nat)
| MsgClosing
| MsgError (message : JSString).

Inductive Event :=
| Console (m : Message)
| Did (a : Action).

(** A [Message] says which line is printed, and with what values.  The
    text of the line is [lineOf]: a pictograph, where the two sources
    differ (the JavaScript source has the pictographs of the TypeScript
    source in another encoding), and then the same words in both. *)
Definition pictograph (v : Variant) (m : Message) : JSString :=
  match v with
  | TypeScript =>
      match m with
      | MsgBanner => [9935; 65039]
      | MsgRule => []
      | MsgNoAuth => [10060]
      | MsgLaunching => [55357; 56960]
      | MsgClickingPicture => [55357; 56568]
      | MsgClickingChange => [55357; 56580]
      | MsgCollection _ _ _ => [55357; 56536]
      | MsgClass _ _ _ => [55356; 57335; 65039]
      | MsgPicture _ _ _ => [55357; 56764; 65039]
      | MsgPreset _ _ _ => [55356; 57256]
      | MsgSingleSaved _ => [9989]
      | MsgPresetDone _ => [55356; 57225]
      | MsgSavedTo _ => [55357; 56513]
      | MsgPicturesDone _ _ => [55356; 57226]
      | MsgClassesDone _ _ => [55356; 57226]
      | MsgCollectionsDone _ => [55356; 57226]
      | MsgClosing => [55357; 57041]
      | MsgError _ => [10060]
      end
  | JavaScript =>
      match m with
      | MsgBanner => [8218; 245; 232; 212; 8719; 232]
      | MsgRule => []
      | MsgNoAuth => [8218; 249; 229]
      | MsgLaunching => [63743; 252; 246; 196]
      | MsgClickingPicture => [63743; 252; 236; 8719]
      | MsgClickingChange => [63743; 252; 238; 209]
      | MsgCollection _ _ _ => [63743; 252; 236; 242]
      | MsgClass _ _ _ => [63743; 252; 232; 8721; 212; 8719; 232]
      | MsgPicture _ _ _ => [63743; 252; 241; 186; 212; 8719; 232]
      | MsgPreset _ _ _ => [63743; 252; 233; 174]
      | MsgSingleSaved _ => [8218; 250; 214]
      | MsgPresetDone _ => [63743; 252; 233; 226]
      | MsgSavedTo _ => [63743; 252; 236; 197]
      | MsgPicturesDone _ _ => [63743; 252; 233; 228]
      | MsgClassesDone _ _ => [63743; 252; 233; 228]
      | MsgCollectionsDone _ => [63743; 252; 233; 228]
      | MsgClosing => [63743; 252; 245; 235]
      | MsgError _ => [8218; 249; 229]
      end
  end%N.

(** A path as the program prints it. *)
Fixpoint showPath (p : Path) : JSString :=
  match p with
  | [] => js "."
  | [name] => name
  | name :: rest => name ++ js "/" ++ showPath rest
  end.

Definition quoted (s : JSString) : JSString := [34%N] ++ s ++ [34%N].

Definition wording (m : Message) : JSString :=
  match m with
  | MsgBanner => js "  Doodle Digger - A Google Profile Picture Extractor"
  | MsgRule => js "====================================================="
  | MsgNoAuth => js " No authentication found! Please run 'npm run setup' first."
  | MsgLaunching => js " Launching browser..."
  | MsgClickingPicture => js " Clicking on profile picture..."
  | MsgClickingChange => js " Clicking on Change button..."
  | MsgCollection i n name =>
      js " Processing collection " ++ decimal i ++ js " of " ++ decimal n
        ++ js ": " ++ quoted name
  | MsgClass i n name =>
      js "  Processing picture class " ++ decimal i ++ js " of " ++ decimal n
        ++ js ": " ++ quoted name
  | MsgPicture i n name =>
      js "  Processing picture " ++ decimal i ++ js " of " ++ decimal n
        ++ js ": " ++ quoted name
  | MsgPreset i n pictureName =>
      js " Processing preset " ++ decimal i ++ js " of " ++ decimal n
        ++ js " for " ++ pictureName ++ js "..."
  | MsgSingleSaved file => js " Single image saved as: " ++ file
  | MsgPresetDone i => js " Downloaded preset " ++ decimal i ++ js "!"
  | MsgSavedTo folder => js " All images saved to: " ++ showPath folder
  | MsgPicturesDone n className =>
      js " Downloaded all " ++ decimal n ++ js " pictures in " ++ quoted className
        ++ js "!"
  | MsgClassesDone n collectionName =>
      js " Downloaded all " ++ decimal n ++ js " picture classes in "
        ++ quoted collectionName ++ js "!"
  | MsgCollectionsDone n => js " Downloaded all " ++ decimal n ++ js " collections!"
  | MsgClosing => js " Closing browser..."
  | MsgError message => js " Error during extraction: " ++ message
  end.

Definition lineOf (v : Variant) (m : Message) : JSString :=
  pictograph v m ++ wording m.

(** ** State, outcomes and the monad of the program *)

Record State := mkState {
  cursor : Cursor;
  files : gmap Path Buffer;
  dirs : gset Path;
  log : list Event;
  ticks : nat                 (* requests made to the browser so far *)
}.

Definition setFiles (f : gmap Path Buffer) (st : State) : State :=
  mkState (cursor st) f (dirs st) (log st) (ticks st).

Definition setDirs (d : gset Path) (st : State) : State :=
  mkState (cursor st) (files st) d (log st) (ticks st).

Definition addLog (es : list Event) (st : State) : State :=
  mkState (cursor st) (files st) (dirs st) (log st ++ es) (ticks st).

Definition answered (cur : Cursor) (acts : list Action) (st : State) : State :=
  mkState cur (files st) (dirs st) (log st ++ List.map Did acts) (S (ticks st)).

(** A request was made and came to nothing. *)
Definition attempted (st : State) : State :=
  mkState (cursor st) (files st) (dirs st) (log st) (S (ticks st)).

(** An awaited promise is fulfilled, is rejected, or never settles. *)
Inductive Outcome (A : Type) :=
| Ok (a : A)
| Err (message : JSString)
| Hang.

Arguments Ok {A} a.
Arguments Err {A} message.
Arguments Hang {A}.

Definition M (A : Type) : Type := State -> Outcome A * State.

Definition ret {A} (a : A) : M A := fun st => (Ok a, st).

Definition bind {A B} (m : M A) (k : A -> M B) : M B :=
  fun st =>
    match m st with
    | (Ok a, st') => k a st'
    | (Err e, st') => (Err e, st')
    | (Hang, st') => (Hang, st')
    end.

Definition throw {A} (message : JSString) : M A := fun st => (Err message, st).

Definition hang {A} : M A := fun st => (Hang, st).

(** [try { m } catch (error) { handler(error.message) }] *)
Definition tryCatch {A} (m : M A) (handler : JSString -> M A) : M A :=
  fun st =>
    match m st with
    | (Err e, st') => handler e st'
    | r => r
    end.

Declare Scope prog_scope.
Delimit Scope prog_scope with prog.
Notation "x <- m ;; k" := (bind m (fun x => k))
  (at level 100, m at next level, right associativity) : prog_scope.
Notation "m ;; k" := (bind m (fun _ => k))
  (at level 100, right associativity) : prog_scope.
Local Open Scope prog_scope.

(** [for (let i = from; i < from + count; i++) acc = body(i, acc)] *)
Fixpoint forFrom {T} (count from : nat) (body : nat -> T -> M T) (acc : T) : M T :=
  match count with
  | 0 => ret acc
  | S count' => acc' <- body from acc ;; forFrom count' (S from) body acc'
  end.

Definition forUpTo {T} (count : nat) (body : nat -> T -> M T) (acc : T) : M T :=
  forFrom count 0 body acc.

Definition consoleLog (m : Message) : M unit :=
  fun st => (Ok tt, addLog [Console m] st).

(** [page.waitForTimeout(ms)]: time passes, nothing else. *)
Definition waitForTimeout (ms : nat) : M unit := ret tt.

(** *** The file system

    The disk is taken to accept what is asked of it: a directory is made
    and a file is written without a check that the folder above is there
    and that nothing is in the way.  The program writes only into the
    folder that [createFolderStructure] has just made; the statements below
    that depend on the state of the disk say so. *)

Definition existsSync (p : Path) : M bool :=
  fun st => (Ok (bool_decide (p ∈ dirs st) || isSome (files st !! p)), st).

(** Every prefix of [p] that has a segment. *)
Definition ancestors (p : Path) : list Path :=
  List.map (fun n => take n p) (seq 1 (length p)).

(** [fs.mkdirSync(p, { recursive: true })] *)
Definition mkdirSync (p : Path) : M unit :=
  fun st => (Ok tt, setDirs (dirs st ∪ list_to_set (ancestors p)) st).

(** [fs.writeFileSync(p, data)] *)
Definition writeFileSync (p : Path) (data : Buffer) : M unit :=
  fun st => (Ok tt, setFiles (<[p := data]> (files st)) st).

(** [fs.createWriteStream(p)]: the file is there, and empty. *)
Definition createWriteStream (p : Path) : M unit := writeFileSync p [].

Definition ENOENT : JSString := js "ENOENT: no such file or directory".

(** [fs.readFileSync(p)] *)
Definition readFileSync (p : Path) : M Buffer :=
  fun st =>
    match files st !! p with
    | Some data => (Ok data, st)
    | None => (Err ENOENT, st)
    end.

(** [fs.unlinkSync(p)] *)
Definition unlinkSync (p : Path) : M unit :=
  fun st =>
    match files st !! p with
    | Some _ => (Ok tt, setFiles (delete p (files st)) st)
    | None => (Err ENOENT, st)
    end.

(** [fs.unlink(p, () => {})]: an error is passed to the empty callback. *)
Definition unlink (p : Path) : M unit :=
  fun st => (Ok tt, setFiles (delete p (files st)) st).

(** ** The program *)

Section Program.

Variable v : Variant.
Variable w : World.

(** *** Requests to the browser *)

Definition TIMEOUT : JSString := js "Timeout exceeded while waiting for locator".
Definition TYPE_ERROR : JSString := js "Cannot read properties of null or undefined".
Definition NO_CONTEXT : JSString := js "Could not get canvas context".

(** One awaited request: the browser answers with the injected fault, if
    there is one for this request, or else by what the page shows.  A
    request that fails has been made all the same: it counts. *)
Definition request {A} (answer : Cursor -> option (A * Cursor * list Action)) : M A :=
  fun st =>
    match fault w (ticks st) with
    | Some e => (Err e, attempted st)
    | None =>
        match answer (cursor st) with
        | Some (a, cur, acts) => (Ok a, answered cur acts st)
        | None => (Err TIMEOUT, attempted st)
        end
    end.

(** The page outside the menu frame shows no menu. *)
Definition page : Menu := [].

(** [page.goto(url, ...)] *)
Definition goto : M unit :=
  request (fun _ => Some (tt, AccountPage, [Navigate])).

(** [locator.waitFor({ timeout })] *)
Definition waitFor (frame : Menu) (l : Locator) : M unit :=
  request (fun cur =>
    if 0 <? countOf frame cur l then Some (tt, cur, []) else None).

(** [locator.click()], forced or not: the element has to be there. *)
Definition click (frame : Menu) (l : Locator) : M unit :=
  request (fun cur =>
    if 0 <? countOf frame cur l
    then Some (tt, (clickEffect cur l).1, (clickEffect cur l).2)
    else None).

(** [locator.count()] *)
Definition count (frame : Menu) (l : Locator) : M nat :=
  request (fun cur => Some (countOf frame cur l, cur, [])).

(** [locator.textContent()] *)
Definition textContent (frame : Menu) (l : Locator) : M (option JSString) :=
  request (fun cur =>
    if 0 <? countOf frame cur l then Some (textOf frame cur l, cur, []) else None).

(** [locator.getAttribute(name)] *)
Definition getAttribute (frame : Menu) (l : Locator) (a : Attribute)
    : M (option JSString) :=
  request (fun cur =>
    if 0 <? countOf frame cur l then Some (attributeOf frame cur l a, cur, [])
    else None).

(** A request whose answer does not depend on the cursor. *)
Definition ask {A} (answer : A) : M A :=
  request (fun cur => Some (answer, cur, [])).

(** [page.locator("iframe").all()] *)
Definition allIframes {A} (frames : list A) : M (list A) := ask frames.

(** [frame.locator(selector).count()] in a frame of the first page. *)
Definition probeCount (n : nat) : M nat := ask n.

(** [iframes[i].contentFrame()]; [iframes[i]] is [undefined] out of range. *)
Definition contentFrame {A} (iframe : option (option A)) : M (option A) :=
  match iframe with
  | Some frame => ask frame
  | None => throw TYPE_ERROR
  end.

(** *** Helpers of [doodle-digger.ts] *)

Definition extractTextWithFallback (frame : Menu) (element : Locator)
    (fallbackName : JSString) (maxLength : Z) : M JSString :=
  text <- textContent frame element ;;
  ret (textWithFallback text fallbackName maxLength).

Definition createFolderStructure (collectionName pictureClassName pictureName : JSString)
    : M Path :=
  let basePictureFolder :=
    pathJoin DOWNLOADS_DIR [collectionName; pictureClassName; pictureName] in
  present <- existsSync basePictureFolder ;;
  (if present then ret tt else mkdirSync basePictureFolder) ;;
  ret basePictureFolder.

Definition waitAndClick (frame : Menu) (element : Locator) : M unit :=
  waitFor frame element ;;
  click frame element.

Definition goBackToPresetSelection (profileFrame : Menu) : M unit :=
  waitFor profileFrame CancelButton ;;
  click profileFrame CancelButton ;;
  waitForTimeout 500.

Definition goBackToPictureSelection (profileFrame : Menu) : M unit :=
  click profileFrame (BackButton 2) ;;
  waitForTimeout 1000.

Definition goBackToPictureClassSelection (profileFrame : Menu) : M unit :=
  click profileFrame (BackButton 1) ;;
  waitForTimeout 1000.

(** The write stream creates the file; then the body is piped into it, or
    the request's [error] handler unlinks it and rejects.  When [https.get]
    throws, the executor of the promise is left before that handler is
    attached: the promise is rejected and the file stays. *)
Definition downloadImage (url : JSString) (filepath : Path) : M unit :=
  createWriteStream filepath ;;
  match fetch w url with
  | Received body => writeFileSync filepath body
  | RequestError err => unlink filepath ;; throw err
  | Stalled partial => writeFileSync filepath partial ;; hang
  | Refused err => throw err
  end.

Definition downloadImageToBuffer (src : JSString) (basePictureFolder : Path)
    (index : nat) : M Buffer :=
  let tempPath :=
    pathJoin basePictureFolder [js "temp_" ++ decimal index ++ js ".jpg"] in
  downloadImage src tempPath ;;
  imageBuffer <- readFileSync tempPath ;;
  unlinkSync tempPath ;;
  ret imageBuffer.

(** The TypeScript source rejects when the canvas has no 2d context; the
    JavaScript source goes on to [ctx.clearRect], which throws inside the
    [onload] handler, and the promise of [page.evaluate] never settles. *)
Definition applyCSSFilterToImage (imageUrl cssFilter : JSString) : M Buffer :=
  match render w imageUrl cssFilter with
  | Rendered png => ret png
  | NoContext =>
      match v with
      | TypeScript => throw NO_CONTEXT
      | JavaScript => hang
      end
  | LoadFailed => throw (js "Failed to load image")
  end.

Definition overlayOf (buffer : Buffer) : Overlay :=
  {| input := buffer; top := 0; left := 0; blend := Over |}.

(** [await baseImage.composite(overlays).jpeg({ quality }).toFile(p)] *)
Definition toFile (job : SharpJob) (p : Path) : M unit :=
  match sharp w job with
  | Encoded bytes => writeFileSync p bytes
  | SharpError err => throw err
  end.

Definition createCompositeFromBuffers (outputFolder : Path) (presetNumber : nat)
    (imageBuffers : list Buffer) : M unit :=
  let pictureName := basename outputFolder in
  let finalPath :=
    pathJoin outputFolder [pictureName ++ js "_" ++ decimal presetNumber ++ js ".jpg"] in
  match imageBuffers with
  | [only] =>
      (* imageBuffers.length === 1 *)
      writeFileSync finalPath only ;;
      consoleLog (MsgSingleSaved (basename finalPath))
  | _ =>
      toFile {| baseInput := head imageBuffers;
                overlays := List.map overlayOf (tail imageBuffers);
                jpegQuality := 100 |} finalPath
  end.

(** Lines 239 to 250 of [downloadPreset]: the filter is read from the style,
    the largest rendition is asked for, and the image comes from the canvas
    when there is a filter, from the network when there is none. *)
Definition acquireImage (src : JSString) (style : option JSString)
    (basePictureFolder : Path) (i : nat) : M Buffer :=
  let filter := filterInfo style in
  let src := maxResolution src in
  match filter with
  | Some (f :: ilter) => applyCSSFilterToImage src (f :: ilter)
  | _ => downloadImageToBuffer src basePictureFolder i
  end.

(** The body of the loop over the rendered images of a preview. *)
Definition processImage (profileFrame : Menu) (basePictureFolder : Path)
    (i : nat) (processedImages : list Buffer) : M (list Buffer) :=
  src <- getAttribute profileFrame (Image i) AttrSrc ;;
  match src with
  | Some (u :: rest) =>
      (* if (src) *)
      style <- getAttribute profileFrame (Image i) AttrStyle ;;
      imageBuffer <- acquireImage (u :: rest) style basePictureFolder i ;;
      ret (processedImages ++ [imageBuffer])
  | _ => ret processedImages
  end.

Definition downloadPreset (profileFrame : Menu) (basePictureFolder : Path)
    (presetNumber : nat) : M unit :=
  waitFor profileFrame NextButton ;;
  click profileFrame NextButton ;;
  waitForTimeout 250 ;;
  waitFor profileFrame ImageContainer ;;
  imageCount <- count profileFrame Images ;;
  processedImages <-
    forUpTo imageCount (processImage profileFrame basePictureFolder) [] ;;
  createCompositeFromBuffers basePictureFolder presetNumber processedImages.

(** *** The four loops of the traversal, innermost first *)

Definition processPreset (profileFrame : Menu) (pictureName : JSString)
    (basePictureFolder : Path) (presetCount presetIndex : nat) : M unit :=
  consoleLog (MsgPreset (presetIndex + 1) presetCount pictureName) ;;
  waitFor profileFrame (PresetRadio presetIndex) ;;
  click profileFrame (PresetRadio presetIndex) ;;
  click profileFrame (PresetLabel presetIndex) ;;
  downloadPreset profileFrame basePictureFolder (presetIndex + 1) ;;
  consoleLog (MsgPresetDone (presetIndex + 1)) ;;
  goBackToPresetSelection profileFrame.

Definition processPicture (profileFrame : Menu)
    (collectionName pictureClassName : JSString)
    (pictureCount pictureIndex : nat) : M unit :=
  waitAndClick profileFrame (PictureButton pictureIndex) ;;
  waitForTimeout 1000 ;;
  pictureName <-
    extractTextWithFallback profileFrame PictureTitle
      (js "unknown_picture_" ++ decimal (pictureIndex + 1)) 50 ;;
  consoleLog (MsgPicture (pictureIndex + 1) pictureCount pictureName) ;;
  waitFor profileFrame PresetsHeading ;;
  presetCount <- count profileFrame PresetRadios ;;
  basePictureFolder <-
    createFolderStructure collectionName pictureClassName pictureName ;;
  forUpTo presetCount
    (fun presetIndex _ =>
       processPreset profileFrame pictureName basePictureFolder
         presetCount presetIndex) tt ;;
  consoleLog (MsgSavedTo basePictureFolder) ;;
  goBackToPictureSelection profileFrame.

Definition processPictureClass (profileFrame : Menu) (collectionIndex : nat)
    (collectionName : JSString) (pictureClassCount classIndex : nat) : M unit :=
  pictureClassName <-
    extractTextWithFallback profileFrame (ClassName collectionIndex classIndex)
      (js "unknown_class_" ++ decimal (classIndex + 1)) 30 ;;
  consoleLog (MsgClass (classIndex + 1) pictureClassCount pictureClassName) ;;
  waitAndClick profileFrame (ClassButton collectionIndex classIndex) ;;
  waitForTimeout 1000 ;;
  pictureCount <- count profileFrame Pictures ;;
  forUpTo pictureCount
    (fun pictureIndex _ =>
       processPicture profileFrame collectionName pictureClassName
         pictureCount pictureIndex) tt ;;
  consoleLog (MsgPicturesDone pictureCount pictureClassName) ;;
  goBackToPictureClassSelection profileFrame.

Definition processCollection (profileFrame : Menu)
    (collectionCountResult collectionIndex : nat) : M unit :=
  collectionName <-
    extractTextWithFallback profileFrame (CollectionHeading collectionIndex)
      (js "unknown_collection_" ++ decimal (collectionIndex + 1)) 30 ;;
  consoleLog (MsgCollection (collectionIndex + 1) collectionCountResult collectionName) ;;
  pictureClassCount <- count profileFrame (PictureClasses collectionIndex) ;;
  forUpTo pictureClassCount
    (fun classIndex _ =>
       processPictureClass profileFrame collectionIndex collectionName
         pictureClassCount classIndex) tt ;;
  consoleLog (MsgClassesDone pictureClassCount collectionName).

(** Lines 350 to 505: count the collections and process them all. *)
Definition traverse (profileFrame : Menu) : M unit :=
  collectionCountResult <- count profileFrame Collections ;;
  forUpTo collectionCountResult
    (fun collectionIndex _ =>
       processCollection profileFrame collectionCountResult collectionIndex) tt ;;
  consoleLog (MsgCollectionsDone collectionCountResult).

(** *** From the account page to the menu *)

(** The body of the loop that looks for the frame of the photo dialog;
    [found] is [profileFrame], and an iteration after [break] does nothing. *)
Definition probeFrame (iframes : list (option Probe)) (i : nat)
    (found : option Probe) : M (option Probe) :=
  match found with
  | Some _ => ret found
  | None =>
      tryCatch
        (frame <- contentFrame (iframes !! i) ;;
         match frame with
         | Some probe =>
             dialogs <- probeCount (dialogCount probe) ;;
             changeButtons <- probeCount (changeButtonCount probe) ;;
             sections <- probeCount (sectionsCount probe) ;;
             if (0 <? dialogs) || (0 <? changeButtons) || (0 <? sections)
             then ret (Some probe) else ret None
         | None => ret None
         end)
        (fun _ => ret None)
  end.

(** The index of the menu's iframe once Change was clicked: the one place
    where the two sources differ in the traversal. *)
Definition menuFrameIndex : nat :=
  match v with
  | TypeScript => 2
  | JavaScript => 1
  end.

(** Lines 292 to 348 of the [try] block, and the first use of the frame
    chosen there, which throws when that frame is [null]. *)
Definition openMenu : M Menu :=
  goto ;;
  consoleLog MsgClickingPicture ;;
  waitFor page ProfilePictureButton ;;
  click page ProfilePictureButton ;;
  waitForTimeout 2000 ;;
  iframes <- allIframes (dialogFrames w) ;;
  found <- forUpTo (length iframes) (probeFrame iframes) None ;;
  profileFrame <-
    match found with
    | Some _ => ret found
    | None => contentFrame (iframes !! (length iframes - 1))
    end ;;
  consoleLog MsgClickingChange ;;
  match profileFrame with
  | Some probe =>
      waitFor page (ChangeButton probe) ;;
      click page (ChangeButton probe)
  | None => throw TYPE_ERROR
  end ;;
  waitForTimeout 1000 ;;
  newIframes <- allIframes (menuFrames w) ;;
  profileFrame <- contentFrame (newIframes !! menuFrameIndex) ;;
  waitForTimeout 1000 ;;
  match profileFrame with
  | Some menu => ret menu
  | None => throw TYPE_ERROR
  end.

(** *** The browser itself *)

(** What the browser leaves on the disk when it starts on [dir]: the
    directory, and its profile in it. *)
Definition writeProfile (dir : Path) : M unit :=
  fun st =>
    (Ok tt,
     setDirs (dirs st ∪ list_to_set (ancestors dir))
       (setFiles (foldr (fun entry acc => <[dir ++ entry.1 := entry.2]> acc)
                    (files st) (userData w)) st)).

(** [await chromium.launchPersistentContext(dir, ...)]: a request as any
    other; the browser that answers shows a blank page and has written its
    profile.  A launch that is rejected is taken to write nothing. *)
Definition launchPersistentContext (dir : Path) : M unit :=
  request (fun _ => Some (tt, Blank, [])) ;;
  writeProfile dir.

(** [const page = context.pages()[0]; await page.bringToFront()].  A
    context without a page makes [page] undefined and this line throw:
    that is one of the faults this request can meet. *)
Definition bringToFront : M unit := ask tt.

(** [await context.close()] *)
Definition closeContext : M unit := ask tt.

(** The body of the [try] block of the main function. *)
Definition extraction : M Z :=
  profileFrame <- openMenu ;;
  traverse profileFrame ;;
  consoleLog MsgClosing ;;
  closeContext ;;
  ret 0%Z.

(** The main function.  [Ok code] is [process.exit(code)]; [Err] is a
    rejection that nothing catches: what is thrown before the [try] block
    or inside the [catch] block. *)
Definition main : M Z :=
  consoleLog MsgBanner ;;
  consoleLog MsgRule ;;
  authenticated <- existsSync PERSISTENT_CONTEXT_DIR ;;
  if negb authenticated then
    consoleLog MsgNoAuth ;;
    ret 1%Z
  else
    consoleLog MsgLaunching ;;
    launchPersistentContext PERSISTENT_CONTEXT_DIR ;;
    bringToFront ;;
    tryCatch extraction
      (fun message =>
         consoleLog (MsgError message) ;;
         consoleLog MsgClosing ;;
         closeContext ;;
         ret 1%Z).

End Program.

(** The state in which the program starts: a blank page, nothing printed. *)
Definition initial (files : gmap Path Buffer) (dirs : gset Path) : State :=
  mkState Blank files dirs [] 0.

(** The actions of the menu among the events of a run. *)
Definition actionsOf (events : list Event) : list Action :=
  omap (fun e => match e with Did a => Some a | Console _ => None end) events.

(** ** Vocabulary of the specification *)

(** A unit of [a-z0-9-]: safe in a path, and not the underscore. *)
Definition isPlainChar (c : N) : bool :=
  isLowerAZ c || isDigit c || (c =? hyphen)%N.

(** Is there a match of [/=s\d+/] somewhere in [s]? *)
Fixpoint hasSizeToken (s : JSString) : bool :=
  sizeTokenAt s ||
  match s with
  | [] => false
  | _ :: t => hasSizeToken t
  end.

(** [SizeRewritten s s']: [s'] is [s] with every size token, [=s] and the
    longest run of digits after it, replaced by [=s4096], and nothing else
    changed. *)
Inductive SizeRewritten : JSString -> JSString -> Prop :=
| SR_end : SizeRewritten [] []
| SR_token digits rest rest' :
    digits <> [] ->
    forallb isDigit digits = true ->
    forallb isDigit (take 1 rest) = false \/ rest = [] ->
    SizeRewritten rest rest' ->
    SizeRewritten (js "=s" ++ digits ++ rest) (js "=s4096" ++ rest')
| SR_unit c t t' :
    sizeTokenAt (c :: t) = false ->
    SizeRewritten t t' ->
    SizeRewritten (c :: t) (c :: t').

(** [DeclaresFilter style expr]: the style text has a [filter:] with a
    value after it, that is with something else than a semicolon or the
    end of the text; at the first such place the value, which runs up to
    the next semicolon or to the end of the text, is [expr] once the white
    space around it is removed, and [expr] is not empty. *)
Definition DeclaresFilter (style : JSString) (expr : JSString) : Prop :=
  exists before value after,
    style = before ++ js "filter:" ++ value ++ after /\
    (forall p q, style = p ++ js "filter:" ++ q -> length p < length before ->
       q = [] \/ exists q', q = semicolon :: q') /\
    value <> [] /\
    forallb (fun c => negb (c =? semicolon)%N) value = true /\
    (after = [] \/ exists after', after = semicolon :: after') /\
    expr = trim value /\ expr <> [].

(** ** A sample world

    The mock menu of the specification: collections [c1] and [c2], one
    class [k1] in each, one picture [p1] in each class, presets [r1] and
    [r2]; the second preset has a layer without [src] and a filtered layer.
    The network echoes the URL, the canvas the URL and the filter, and
    sharp concatenates its inputs. *)

Definition sampleRaw : Layer :=
  mkLayer (Some (js "https://lh3.example/a=s128")) None.

Definition sampleFiltered : Layer :=
  mkLayer (Some (js "https://lh3.example/b=s64-c"))
          (Some (js "opacity: 1; filter: hue-rotate(90deg); top: 0")).

Definition sampleNoSrc : Layer := mkLayer None None.

Definition samplePicture : Picture :=
  mkPicture (Some (js "P1"))
    [mkPreset [sampleRaw]; mkPreset [sampleRaw; sampleNoSrc; sampleFiltered]].

Definition sampleClass : PictureClass :=
  mkPictureClass (Some (js "K1")) [samplePicture].

Definition sampleMenu : Menu :=
  [mkCollection (Some (js "C1")) [sampleClass];
   mkCollection (Some (js "C2")) [sampleClass]].

Definition sampleSharp (job : SharpJob) : Encoding :=
  Encoded (default [] (baseInput job) ++ concat (List.map input (overlays job))).

Definition sampleWorld : World :=
  mkWorld (fun _ => None)
    [([js "Cookies"], js "session")]
    [Some (mkProbe 1 1 0)]
    [None; Some sampleMenu; Some sampleMenu]
    (fun url => Received url)
    (fun url filter => Rendered (url ++ filter))
    sampleSharp.

(** The start of a run after [npm run setup]. *)
Definition sampleStart : State := initial ∅ {[ PERSISTENT_CONTEXT_DIR ]}.

Definition sampleFolder : Path := [js "images"; js "c1"; js "k1"; js "p1"].

(** ** Vocabulary for runs *)

(** The browser answers every request. *)
Definition FaultFree (w : World) : Prop := forall n, fault w n = None.

(** The network, the canvas and sharp never fail. *)
Definition Reliable (w : World) : Prop :=
  (forall url, exists body, fetch w url = Received body) /\
  (forall url filter, exists png, render w url filter = Rendered png) /\
  (forall job, exists bytes, sharp w job = Encoded bytes).

(** [wp m Q st]: run from [st], [m] is fulfilled, with a value and in a
    state that satisfy [Q]. *)
Definition wp {A} (m : M A) (Q : A -> State -> Prop) (st : State) : Prop :=
  exists a st', m st = (Ok a, st') /\ Q a st'.

(** The cursor is at [cur] and the menu has carried out [acts] so far. *)
Definition At (cur : Cursor) (acts : list Action) (st : State) : Prop :=
  cursor st = cur /\ actionsOf (log st) = acts.

(** The bytes that acquiring a layer yields when it succeeds. *)
Definition acquired (w : World) (src : JSString) (style : option JSString)
    : option Buffer :=
  match filterInfo style with
  | Some (f :: ilter) =>
      match render w (maxResolution src) (f :: ilter) with
      | Rendered png => Some png
      | _ => None
      end
  | _ =>
      match fetch w (maxResolution src) with
      | Received body => Some body
      | _ => None
      end
  end.

(** The layer has a [src] to acquire: the attribute is there and not empty. *)
Definition hasSrc (lay : Layer) : bool := truthy (layerSrc lay).

(** One buffer for each layer that has a [src], in the order of the layers. *)
Definition buffersOf (w : World) (lays : list Layer) : list Buffer :=
  omap (fun lay =>
          match layerSrc lay with
          | Some (u :: rest) => acquired w (u :: rest) (layerStyle lay)
          | _ => None
          end) lays.

(** *** The depth-first walk of a menu, as the specification words it *)

Definition presetActions (c k p r : nat) : list Action :=
  [SelectPreset c k p r; ClickPresetLabel c k p r; OpenPreview c k p r; Cancel c k p r].

Definition pictureActions (c k p : nat) (pic : Picture) : list Action :=
  OpenPicture c k p
  :: concat (imap (fun r _ => presetActions c k p r) (presets pic)) ++ [Back 2].

Definition classActions (c k : nat) (cls : PictureClass) : list Action :=
  OpenClass c k :: concat (imap (pictureActions c k) (pictures cls)) ++ [Back 1].

Definition collectionActions (c : nat) (col : Collection) : list Action :=
  concat (imap (classActions c) (pictureClasses col)).

Definition menuActions (menu : Menu) : list Action :=
  concat (imap collectionActions menu).

(** The leaves (collection, class, picture, preset) in depth-first order. *)
Definition leaves (menu : Menu) : list (nat * nat * nat * nat) :=
  concat (imap (fun c col =>
    concat (imap (fun k cls =>
      concat (imap (fun p pic =>
        imap (fun r _ => (c, k, p, r)) (presets pic))
        (pictures cls)))
      (pictureClasses col)))
    menu).

(** The leaves whose preview was opened, in the order of the openings. *)
Definition visitsOf (acts : list Action) : list (nat * nat * nat * nat) :=
  omap (fun a => match a with
                 | OpenPreview c k p r => Some (c, k, p, r)
                 | _ => None
                 end) acts.

Definition isCancel (a : Action) : bool :=
  match a with
  | Cancel _ _ _ _ => true
  | _ => false
  end.

Definition isBack (ordinal : nat) (a : Action) : bool :=
  match a with
  | Back n => n =? ordinal
  | _ => false
  end.

Definition isAnyBack (a : Action) : bool :=
  match a with
  | Back _ => true
  | _ => false
  end.

Definition times (f : Action -> bool) (acts : list Action) : nat :=
  length (List.filter f acts).

Definition classesIn (menu : Menu) : nat :=
  sum_list (List.map (fun col => length (pictureClasses col)) menu).

Definition picturesIn (menu : Menu) : nat :=
  sum_list (List.map (fun col =>
    sum_list (List.map (fun cls => length (pictures cls)) (pictureClasses col))) menu).

Definition presetsIn (menu : Menu) : nat :=
  sum_list (List.map (fun col =>
    sum_list (List.map (fun cls =>
      sum_list (List.map (fun pic => length (presets pic)) (pictures cls)))
      (pictureClasses col))) menu).

(** *** Worlds derived from a world *)

(** The browser fails request [n] with [message]. *)
Definition withFault (n : nat) (message : JSString) (w : World) : World :=
  mkWorld (fun k => if k =? n then Some message else fault w k) (userData w)
    (dialogFrames w) (menuFrames w) (fetch w) (render w) (sharp w).

(** Another revision of the page, with other iframes once Change is clicked. *)
Definition withMenuFrames (frames : list (option Menu)) (w : World) : World :=
  mkWorld (fault w) (userData w) (dialogFrames w) frames (fetch w) (render w) (sharp w).

(** The second preset of the first picture of the sample menu, and a state
    in which it has just been selected. *)
Definition samplePreset : Preset :=
  mkPreset [sampleRaw; sampleNoSrc; sampleFiltered].

Definition sampleSelected : State :=
  mkState (AtPicture 0 0 0 (Some 1)) ∅ ∅ [] 0.

(** A state in which the menu has just been opened. *)
Definition sampleAtMenu : State := mkState AtCollections ∅ ∅ [] 0.

(** [fs.existsSync(PERSISTENT_CONTEXT_DIR)], as a function of the state. *)
Definition authenticated (st : State) : bool :=
  bool_decide (PERSISTENT_CONTEXT_DIR ∈ dirs st)
  || isSome (files st !! PERSISTENT_CONTEXT_DIR).

(** The state in which the browser is launched. *)
Definition launched (st : State) : State :=
  addLog [Console MsgLaunching]
    (addLog [Console MsgRule] (addLog [Console MsgBanner] st)).

(** The state in which the browser has answered the launch: its profile is
    on the disk. *)
Definition profiled (w : World) (st : State) : State :=
  (writeProfile w PERSISTENT_CONTEXT_DIR (answered Blank [] (launched st))).2.

(** The state in which the [try] block is entered, when the browser has
    answered the launch and brought its page to the front. *)
Definition entered (w : World) (st : State) : State :=
  answered Blank [] (profiled w st).

(** What the [catch] block prints before it closes the browser. *)
Definition reported (message : JSString) (st : State) : State :=
  addLog [Console MsgClosing] (addLog [Console (MsgError message)] st).

(** The [catch] block run on the message of an error: the report is
    printed, the browser is asked to close, and the process exits with 1
    when the browser has answered. *)
Definition caught (w : World) (message : JSString) (st : State)
    : Outcome Z * State :=
  match fault w (ticks st) with
  | Some e => (Err e, attempted (reported message st))
  | None => (Ok 1%Z, answered (cursor st) [] (reported message st))
  end.

(** The status with which the process ends.  The program gives it to
    [process.exit]; a rejection that nothing catches ends a Node process
    (version 15 and later) with status 1; a promise that never settles
    leaves the process without a status. *)
Definition exitStatus (o : Outcome Z) : option Z :=
  match o with
  | Ok code => Some code
  | Err _ => Some 1%Z
  | Hang => None
  end.

(** The sample page in a revision without any iframe once Change is
    clicked: the frame of the menu is [undefined] and the program throws. *)
Definition brokenWorld : World := withMenuFrames [] sampleWorld.

(** The sample world with a browser that rejects the [context.close()] of
    the [try] block: request 91 of the sample run, which makes 92. *)
Definition CLOSED : JSString := js "Target page, context or browser has been closed".

Definition closeFailsWorld : World := withFault 91 CLOSED sampleWorld.

(** The sample world with a network that has only [http:] URLs to offer. *)
Definition NOT_HTTPS : JSString := js "Protocol http: not supported. Expected https:".

Definition plainHttpWorld : World :=
  mkWorld (fault sampleWorld) (userData sampleWorld) (dialogFrames sampleWorld)
    (menuFrames sampleWorld)
    (fun _ => Refused NOT_HTTPS) (render sampleWorld) (sharp sampleWorld).

(** The start of a run that [npm run setup] did not precede. *)
Definition sampleFresh : State := initial ∅ ∅.

(** *** The two sources side by side *)

(** [Twin gap ts js]: from any state, the TypeScript computation [ts] and
    the JavaScript computation [js] end in the same state with the same
    outcome, but for the one gap between the sources: where the canvas has
    no context, [ts] throws and [js] never settles. *)
Definition Twin {A} (gap : Prop) (m1 m2 : M A) : Prop :=
  forall st,
    (m1 st).2 = (m2 st).2 /\
    ((m1 st).1 = (m2 st).1 \/
     (gap /\ (m1 st).1 = Err NO_CONTEXT /\ (m2 st).1 = Hang)).

(** The sample world with canvases that give no 2d context. *)
Definition noCanvasWorld : World :=
  mkWorld (fault sampleWorld) (userData sampleWorld) (dialogFrames sampleWorld)
    (menuFrames sampleWorld)
    (fetch sampleWorld) (fun _ _ => NoContext) (sharp sampleWorld).

(** The pages of two revisions that show the same menu, in the third
    iframe for the one and in the second for the other. *)
Definition sampleFramesTS : list (option Menu) := [None; None; Some sampleMenu].
Definition sampleFramesJS : list (option Menu) := [None; Some sampleMenu].

(** *** A run that is interrupted *)



(** The error messages printed by the [catch] block during a run. *)
Definition reportsOf (events : list Event) : list JSString :=
  omap (fun e => match e with
                 | Console (MsgError message) => Some message
                 | _ => None
                 end) events.




(** ** More vocabulary: names, paths and the page before the menu *)

From Stdlib Require DecimalNat.

(** Are there two underscores side by side in [s]? *)
Fixpoint doubleUnderscore (s : JSString) : bool :=
  match s with
  | a :: t =>
      match t with
      | b :: _ => ((a =? underscore)%N && (b =? underscore)%N) || doubleUnderscore t
      | [] => false
      end
  | [] => false
  end.

(** The name of the temporary file of layer [index]. *)
Definition tempName (index : nat) : JSString :=
  js "temp_" ++ decimal index ++ js ".jpg".

(** The name of the file of preset [presetNumber] in the folder [folder]. *)
Definition finalName (folder : Path) (presetNumber : nat) : JSString :=
  basename folder ++ js "_" ++ decimal presetNumber ++ js ".jpg".

(** The test of the probing loop: a dialog, a Change button or a section. *)
Definition looksLikeDialog (probe : Probe) : bool :=
  (0 <? dialogCount probe) || (0 <? changeButtonCount probe)
  || (0 <? sectionsCount probe).

(** The first iframe, in the order of the page, whose frame is there and
    passes the test. *)
Definition firstDialogFrame (frames : list (option Probe)) : option Probe :=
  head (omap (fun frame =>
                match frame with
                | Some probe => if looksLikeDialog probe then Some probe else None
                | None => None
                end) frames).

(** The paths of those two files. *)
Definition tempPath (folder : Path) (index : nat) : Path :=
  pathJoin folder [tempName index].

Definition finalPath (folder : Path) (presetNumber : nat) : Path :=
  pathJoin folder [finalName folder presetNumber].

(** The frame in which the program looks for the Change button: the first
    that looks like the dialog, or else what the last iframe holds. *)
Definition chosenFrame (frames : list (option Probe)) : option Probe :=
  match firstDialogFrame frames with
  | Some probe => Some probe
  | None => mjoin (last frames)
  end.

(** What [openMenu] does in front of a browser that answers every request. *)
Definition openMenuOutcome (v : Variant) (w : World) : Outcome Menu :=
  match chosenFrame (dialogFrames w) with
  | Some probe =>
      if 0 <? changeButtonCount probe then
        match menuFrames w !! menuFrameIndex v with
        | Some (Some menu) => Ok menu
        | _ => Err TYPE_ERROR
        end
      else Err TIMEOUT
  | None => Err TYPE_ERROR
  end.

(** *** What a run may change *)

(** Every state that [m] reaches is related by [R] to the one it left. *)
Definition Respects (R : State -> State -> Prop) {A} (m : M A) : Prop :=
  forall st, R st (m st).2.

(** Outside [images] and the session directory, the files and the
    directories are the same. *)
Definition SameElsewhere (st st' : State) : Prop :=
  forall p : Path,
    ~ DOWNLOADS_DIR `prefix_of` p -> ~ PERSISTENT_CONTEXT_DIR `prefix_of` p ->
    files st' !! p = files st !! p /\ (p ∈ dirs st' <-> p ∈ dirs st).

(** A session that is there stays there. *)
Definition KeepsSession (st st' : State) : Prop :=
  authenticated st = true -> authenticated st' = true.


(** [m] is fulfilled or rejected: it does not stay pending. *)
Definition Settles {A} (m : M A) : Prop :=
  forall st, (m st).1 <> Hang.

(** No transfer breaks off half way. *)
Definition NeverStalls (w : World) : Prop :=
  forall url partial, fetch w url <> Stalled partial.

(** The canvas is not needed where it has no context to give. *)
Definition CanvasSettles (v : Variant) (w : World) : Prop :=
  v = TypeScript \/ forall url filter, render w url filter <> NoContext.

(** ** The setup script

    The script that [npm run setup] runs before the first extraction: it
    removes the saved session, if there is one, launches Chromium on the
    session directory, and waits for the user to sign in and to press
    ENTER.  Only its last part is inside [try]. *)

Inductive SetupMessage :=
| SetupBanner
| SetupFoundExisting
| SetupInstructions
| SetupStep (n : nat)
| SetupSaved (dir : Path)
| SetupComplete
| SetupFailed (message : JSString).

(** What the script meets: how [launchPersistentContext], [addInitScript]
    and [goto] end ([None]: fulfilled), the files that the browser writes
    into its profile, by their paths inside the session directory, and
    whether a line ever arrives on the standard input. *)
Record Desk := mkDesk {
  launching : option JSString;
  profile : list (Path * Buffer);
  scripting : option JSString;
  navigation : option JSString;
  enterPressed : bool
}.

Record SetupState := mkSetupState {
  setupFiles : gmap Path Buffer;
  setupDirs : gset Path;
  printed : list SetupMessage;
  browserOpen : bool
}.

Definition print (m : SetupMessage) (st : SetupState) : SetupState :=
  mkSetupState (setupFiles st) (setupDirs st) (printed st ++ [m]) (browserOpen st).

(** [fs.existsSync(p)] *)
Definition pathExists (p : Path) (st : SetupState) : bool :=
  bool_decide (p ∈ setupDirs st) || isSome (setupFiles st !! p).

(** [fs.rmSync(p, { recursive: true, force: true })] *)
Definition rmSync (target : Path) (st : SetupState) : SetupState :=
  mkSetupState
    (filter (fun entry => ~ target `prefix_of` entry.1) (setupFiles st))
    (filter (fun p => ~ target `prefix_of` p) (setupDirs st))
    (printed st) (browserOpen st).

(** The browser is launched on [dir]: it makes the directory and writes
    its profile there, and nowhere else.  A launch that is rejected is
    taken to leave the disk as it is. *)
Definition launchedOn (dir : Path) (written : list (Path * Buffer)) (st : SetupState)
    : SetupState :=
  mkSetupState
    (foldr (fun entry acc => <[dir ++ entry.1 := entry.2]> acc) (setupFiles st) written)
    (setupDirs st ∪ list_to_set (ancestors dir))
    (printed st) true.

(** [context.close()] *)
Definition closed (st : SetupState) : SetupState :=
  mkSetupState (setupFiles st) (setupDirs st) (printed st) false.

(** The script; [Ok code] is [process.exit(code)], [Err] a rejection that
    nothing catches, [Hang] a wait for ENTER that never ends. *)
Definition setup (desk : Desk) (st : SetupState) : Outcome Z * SetupState :=
  let st := print SetupBanner st in
  let st :=
    if pathExists PERSISTENT_CONTEXT_DIR st
    then rmSync PERSISTENT_CONTEXT_DIR (print SetupFoundExisting st)
    else st in
  let st := print SetupInstructions st in
  let st := print (SetupStep 1) st in
  let st := print (SetupStep 2) st in
  let st := print (SetupStep 3) st in
  let st := print (SetupStep 4) st in
  match launching desk with
  | Some e => (Err e, st)
  | None =>
      let st := launchedOn PERSISTENT_CONTEXT_DIR (profile desk) st in
      match scripting desk with
      | Some e => (Err e, st)
      | None =>
          (* try *)
          match navigation desk with
          | Some e => (Ok 1%Z, closed (print (SetupFailed e) st))
          | None =>
              if enterPressed desk
              then (Ok 0%Z,
                    closed (print SetupComplete
                              (print (SetupSaved PERSISTENT_CONTEXT_DIR) st)))
              else (Hang, st)
          end
      end
  end.

(** The state in which the extraction starts after the setup. *)
Definition afterSetup (st : SetupState) : State :=
  initial (setupFiles st) (setupDirs st).

(** A machine on which a session of an earlier setup is left. *)
Definition sampleUsed : SetupState :=
  mkSetupState {[ [js "persistent_context"; js "Cookies"] := js "old";
                  [js "notes.txt"] := js "mine" ]}
               {[ [js "persistent_context"] ]} [] false.

Definition sampleDesk : Desk :=
  mkDesk None [([js "Cookies"], js "new")] None None true.

(** The state of the setup script when it launches the browser. *)
Definition beforeLaunch (st : SetupState) : SetupState :=
  let st := print SetupBanner st in
  let st :=
    if pathExists PERSISTENT_CONTEXT_DIR st
    then rmSync PERSISTENT_CONTEXT_DIR (print SetupFoundExisting st)
    else st in
  print (SetupStep 4)
    (print (SetupStep 3) (print (SetupStep 2) (print (SetupStep 1)
       (print SetupInstructions st)))).

(** A file inside the session directory is not there without it. *)
Definition SessionInDirectory (st : SetupState) : Prop :=
  forall p : Path, PERSISTENT_CONTEXT_DIR `prefix_of` p ->
    is_Some (setupFiles st !! p) -> pathExists PERSISTENT_CONTEXT_DIR st = true.

(** *** The files that the extraction writes *)

(** [name] is the name of a temporary file, or of the image of a preset in
    [folder]. *)
Definition isImageName (folder : Path) (name : JSString) : Prop :=
  (exists index, name = tempName index) \/
  (exists presetNumber, name = finalName folder presetNumber).

(** A name of units of [a-z0-9_-] only. *)
Definition SafeName (s : JSString) : Prop := forallb isSafeChar s = true.

(** The folder of a picture: under [images], by the names of a collection,
    of a picture class and of a picture, of which [path.join] leaves out
    the empty ones. *)
Definition PictureFolder (folder : Path) : Prop :=
  exists c k p, SafeName c /\ SafeName k /\ SafeName p /\
                folder = pathJoin DOWNLOADS_DIR [c; k; p].

(** The files that differ are the browser's, in the session directory, or
    images in folders of pictures; the new directories are the session
    directory, such folders and the ones above them. *)
Definition WritesImages (st st' : State) : Prop :=
  (forall p : Path, files st' !! p <> files st !! p ->
     PERSISTENT_CONTEXT_DIR `prefix_of` p \/
     exists folder name,
       PictureFolder folder /\ isImageName folder name /\ p = folder ++ [name]) /\
  (forall p : Path, p ∈ dirs st' ->
     p ∈ dirs st \/ p = PERSISTENT_CONTEXT_DIR \/
     exists folder, PictureFolder folder /\ p `prefix_of` folder).

(** *** The folder a picture is written into *)



(** *** What a run has printed *)

(** The lines on the console, without their pictographs. *)
Definition wordingsOf (events : list Event) : list JSString :=
  omap (fun e => match e with
                 | Console m => Some (wording m)
                 | Did _ => None
                 end) events.

(** *** A traversal that meets a preset it cannot download *)






(** A walk that stops where a download fails: the actions of [acts] are
    carried out in their order up to and including the first opening of a
    preview whose preset is not downloaded, and the walk ends as that
    download does; when there is none, all of [acts] is carried out. *)
Fixpoint walk (outcomeAt : nat -> nat -> nat -> nat -> Outcome unit)
    (acts : list Action) : Outcome unit * list Action :=
  match acts with
  | [] => (Ok tt, [])
  | OpenPreview c k p r :: rest =>
      match outcomeAt c k p r with
      | Ok _ =>
          ((walk outcomeAt rest).1, OpenPreview c k p r :: (walk outcomeAt rest).2)
      | failure => (failure, [OpenPreview c k p r])
      end
  | a :: rest => ((walk outcomeAt rest).1, a :: (walk outcomeAt rest).2)
  end.





(** * Properties *)

Local Open Scope N_scope.

(** ** Code units *)

Ltac unfold_chars :=
  unfold isSafeChar, isPathChar, isSpace, isDigit, isLowerAZ, inRange,
    hyphen, underscore, semicolon in *.

Ltac bool_to_prop :=
  repeat match goal with
    | H : _ = false |- _ => apply not_true_iff_false in H
    | |- _ = false => apply not_true_iff_false
    end;
  rewrite ?orb_true_iff, ?andb_true_iff, ?N.leb_le, ?N.eqb_eq in *.

Ltac char_lia := intros; unfold_chars; bool_to_prop; lia.

Lemma plain_not_space c : isPlainChar c = true -> isSpace c = false.
Proof. unfold isPlainChar. char_lia. Qed.

Lemma plain_is_path c : isPlainChar c = true -> isPathChar c = true.
Proof. unfold isPlainChar. char_lia. Qed.

Lemma plain_lower c : isPlainChar c = true -> toLowerUnit c = [c].
Proof.
  intros H. unfold toLowerUnit.
  assert (inRange 65 90 c = false) as -> by (unfold isPlainChar in H; char_lia).
  assert ((c =? 304) = false) as -> by (unfold isPlainChar in H; char_lia).
  assert ((c =? 8490) = false) as -> by (unfold isPlainChar in H; char_lia).
  reflexivity.
Qed.

Lemma safe_plain c :
  isSafeChar c = true -> c <> underscore -> isPlainChar c = true.
Proof. unfold isPlainChar. char_lia. Qed.

Lemma path_safe c : isPathChar c = true -> isSpace c = false -> isSafeChar c = true.
Proof. intros H1 H2. unfold_chars. bool_to_prop. tauto. Qed.

(** ** The sanitizer *)

Example clean_example :
  cleanTextForPath (js "Hello  World! 2024") 30 = js "hello_world_2024".
Proof. reflexivity. Qed.

Example clean_trailing_space :
  cleanTextForPath (js " Nature & Art ") 30 = js "_nature_art_".
Proof. reflexivity. Qed.

Lemma collapseSpaces_safe s :
  forallb isPathChar s = true -> forallb isSafeChar (collapseSpaces s) = true.
Proof.
  induction s as [|c t IH]; [reflexivity|].
  cbn [forallb]. rewrite andb_true_iff. intros [Hc Ht].
  specialize (IH Ht). cbn [collapseSpaces].
  destruct (isSpace c) eqn:Hs.
  - destruct t as [|c' t']; [reflexivity|].
    destruct (isSpace c'); [exact IH|].
    cbn [forallb]. rewrite IH. reflexivity.
  - cbn [forallb]. rewrite IH, (path_safe c Hc Hs). reflexivity.
Qed.

Lemma stripUnsafe_path s : forallb isPathChar (stripUnsafe s) = true.
Proof.
  unfold stripUnsafe. induction s as [|c t IH]; [reflexivity|].
  cbn [List.filter]. destruct (isPathChar c) eqn:Hc; [|exact IH].
  cbn [forallb]. rewrite Hc, IH. reflexivity.
Qed.

Lemma forallb_take {A} (p : A -> bool) n (s : list A) :
  forallb p s = true -> forallb p (take n s) = true.
Proof.
  revert n. induction s as [|c t IH]; intros [|n]; cbn; try reflexivity.
  rewrite !andb_true_iff. intros [-> Ht]. split; [reflexivity | apply IH, Ht].
Qed.

(** Whatever the text and the bound, the cleaned name of a text that is not
    blank matches [^[a-z0-9_-]{0,maxLen}$]. *)
Lemma cleanTextForPath_safe (text : JSString) (maxLength : Z) :
  isBlank text = false ->
  matchesSafe maxLength (cleanTextForPath text maxLength) = true.
Proof.
  intros Hb. unfold cleanTextForPath, matchesSafe, substring0. rewrite Hb.
  rewrite andb_true_iff. split.
  - apply forallb_take, collapseSpaces_safe, stripUnsafe_path.
  - apply Z.leb_le. rewrite length_take. lia.
Qed.

(** A blank text is never cleaned by [extractTextWithFallback]: the caller's
    fallback is the answer, as it is for a [null] text. *)
Lemma textWithFallback_blank (text : JSString) (fallbackName : JSString) (maxLength : Z) :
  isBlank text = true ->
  textWithFallback (Some text) fallbackName maxLength = fallbackName.
Proof. intros H. unfold textWithFallback. rewrite H. reflexivity. Qed.

Lemma textWithFallback_safe (text : option JSString) (fallbackName : JSString)
    (maxLength : Z) :
  textWithFallback text fallbackName maxLength = fallbackName \/
  matchesSafe maxLength (textWithFallback text fallbackName maxLength) = true.
Proof.
  destruct text as [t|]; [|left; reflexivity]. cbn.
  destruct (isBlank t) eqn:Hb; [left; reflexivity|].
  right. apply cleanTextForPath_safe, Hb.
Qed.

Lemma cleanTextForPath_chars (text : JSString) (maxLength : Z) :
  forallb isSafeChar (cleanTextForPath text maxLength) = true.
Proof.
  destruct (isBlank text) eqn:Hb.
  - unfold cleanTextForPath. rewrite Hb. reflexivity.
  - pose proof (cleanTextForPath_safe text maxLength Hb) as H.
    unfold matchesSafe in H. apply andb_true_iff in H. tauto.
Qed.

(** A name over [a-z0-9-] that is not empty and fits the bound is left as
    it is by the sanitizer. *)
Lemma cleanTextForPath_plain (y : JSString) (maxLength : Z) :
  y <> [] -> forallb isPlainChar y = true ->
  (Z.of_nat (length y) <= maxLength)%Z ->
  cleanTextForPath y maxLength = y.
Proof.
  intros Hne Hp Hlen. unfold cleanTextForPath.
  assert (isBlank y = false) as ->.
  { destruct y as [|c t]; [congruence|]. cbn in *.
    apply andb_true_iff in Hp as [Hc _]. rewrite (plain_not_space c Hc). reflexivity. }
  assert (toLowerCase y = y) as ->.
  { clear Hne Hlen. unfold toLowerCase. induction y as [|c t IH]; [reflexivity|].
    cbn in *. apply andb_true_iff in Hp as [Hc Ht].
    rewrite (plain_lower c Hc), (IH Ht). reflexivity. }
  assert (stripUnsafe y = y) as ->.
  { clear Hne Hlen. unfold stripUnsafe. induction y as [|c t IH]; [reflexivity|].
    cbn in *. apply andb_true_iff in Hp as [Hc Ht].
    rewrite (plain_is_path c Hc), (IH Ht). reflexivity. }
  assert (collapseSpaces y = y) as ->.
  { clear Hne Hlen. induction y as [|c t IH]; [reflexivity|].
    cbn [forallb collapseSpaces] in *. apply andb_true_iff in Hp as [Hc Ht].
    rewrite (plain_not_space c Hc), (IH Ht). reflexivity. }
  unfold substring0. apply take_ge. lia.
Qed.

Lemma safe_no_underscore_plain (y : JSString) :
  forallb isSafeChar y = true -> underscore ∉ y -> forallb isPlainChar y = true.
Proof.
  induction y as [|c t IH]; [reflexivity|].
  cbn [forallb]. rewrite andb_true_iff, not_elem_of_cons.
  intros [Hc Ht] [Hcu Htu].
  rewrite (safe_plain c Hc) by congruence. apply IH; assumption.
Qed.

(** C3 (as stated, refuted): cleaning the cleaned form of ["a b"] removes the
    underscore that the first pass wrote. *)
Lemma cleanTextForPath_not_idempotent :
  cleanTextForPath (js "a b") 30 = js "a_b" /\
  cleanTextForPath (cleanTextForPath (js "a b") 30) 30 = js "ab" /\
  cleanTextForPath (cleanTextForPath (js "a b") 30) 30
  <> cleanTextForPath (js "a b") 30.
Proof. split; [|split]; vm_compute; [reflexivity | reflexivity | discriminate]. Qed.

(** A name without an underscore that is not empty and fits the bound is
    left as it is by the sanitizer. *)
Lemma cleanTextForPath_fixes_plain (x : JSString) (maxLength : Z) :
  cleanTextForPath x maxLength <> [] ->
  underscore ∉ cleanTextForPath x maxLength ->
  (Z.of_nat (length (cleanTextForPath x maxLength)) <= maxLength)%Z ->
  cleanTextForPath (cleanTextForPath x maxLength) maxLength
  = cleanTextForPath x maxLength.
Proof.
  intros Hne Hus Hlen. apply cleanTextForPath_plain; [exact Hne | | exact Hlen].
  apply safe_no_underscore_plain; [apply cleanTextForPath_chars | exact Hus].
Qed.

Lemma safe_not_space c : isSafeChar c = true -> isSpace c = false.
Proof. char_lia. Qed.

Lemma safe_lower c : isSafeChar c = true -> toLowerUnit c = [c].
Proof.
  intros H. unfold toLowerUnit.
  assert (inRange 65 90 c = false) as -> by char_lia.
  assert ((c =? 304) = false) as -> by char_lia.
  assert ((c =? 8490) = false) as -> by char_lia.
  reflexivity.
Qed.

Lemma safe_path c : isSafeChar c = true -> isPathChar c = negb (c =? underscore).
Proof.
  intros H. destruct (c =? underscore) eqn:Hu; cbn.
  - apply N.eqb_eq in Hu. subst c. reflexivity.
  - apply plain_is_path, safe_plain; [exact H|]. intros ->. discriminate Hu.
Qed.

(** What the sanitizer does to a name that it has made: it deletes the
    underscores and cuts at the bound. *)
Lemma cleanTextForPath_of_safe (y : JSString) (maxLength : Z) :
  forallb isSafeChar y = true -> y <> [] ->
  cleanTextForPath y maxLength
  = take (Z.to_nat maxLength) (List.filter (fun c => negb (c =? underscore)) y).
Proof.
  intros Hsafe Hne. unfold cleanTextForPath.
  assert (isBlank y = false) as ->.
  { destruct y as [|c t]; [congruence|]. cbn in *.
    apply andb_true_iff in Hsafe as [Hc _]. rewrite (safe_not_space c Hc). reflexivity. }
  assert (toLowerCase y = y) as ->.
  { clear Hne. unfold toLowerCase. induction y as [|c t IH]; [reflexivity|].
    cbn in *. apply andb_true_iff in Hsafe as [Hc Ht].
    rewrite (safe_lower c Hc), (IH Ht). reflexivity. }
  assert (stripUnsafe y = List.filter (fun c => negb (c =? underscore)) y) as ->.
  { clear Hne. unfold stripUnsafe. induction y as [|c t IH]; [reflexivity|].
    cbn in *. apply andb_true_iff in Hsafe as [Hc Ht].
    rewrite (safe_path c Hc), (IH Ht). reflexivity. }
  assert (forall z, forallb isSafeChar z = true -> collapseSpaces z = z) as Hcollapse.
  { induction z as [|c t IH]; [reflexivity|].
    cbn [forallb collapseSpaces]. intros H. apply andb_true_iff in H as [Hc Ht].
    rewrite (safe_not_space c Hc), (IH Ht). reflexivity. }
  rewrite Hcollapse; [reflexivity|].
  apply forallb_forall. intros c Hc. apply filter_In in Hc as [Hc _].
  exact (proj1 (forallb_forall _ _) Hsafe c Hc).
Qed.

Lemma filter_whole {A} (f : A -> bool) (l : list A) :
  (length l <= length (List.filter f l))%nat -> forallb f l = true.
Proof.
  induction l as [|a l IH]; [reflexivity|]. cbn.
  pose proof (List.filter_length_le f l) as Hle.
  destruct (f a); cbn; intros H; [apply IH; lia | lia].
Qed.

(** C3 (amended): the sanitizer fixes its own output, [sanitize (sanitize x)
    = sanitize x], exactly when that output is not empty, has no underscore
    in it and is at most [maxLen] units long.  Otherwise the second pass
    changes the name: it makes ["unknown"] of the empty name, it deletes
    the underscores that the first pass wrote for white space, or it cuts
    the ["unknown"] of a blank text at the bound. *)
Theorem cleanTextForPath_idempotent_iff (x : JSString) (maxLength : Z) :
  cleanTextForPath (cleanTextForPath x maxLength) maxLength
  = cleanTextForPath x maxLength
  <-> cleanTextForPath x maxLength <> [] /\
      (underscore ∉ cleanTextForPath x maxLength) /\
      (Z.of_nat (length (cleanTextForPath x maxLength)) <= maxLength)%Z.
Proof.
  split.
  - set (y := cleanTextForPath x maxLength).
    pose proof (cleanTextForPath_chars x maxLength) as Hsafe. fold y in Hsafe.
    intros Hfix.
    assert (y <> []) as Hne.
    { intros Hy. rewrite Hy in Hfix. discriminate Hfix. }
    rewrite (cleanTextForPath_of_safe y maxLength Hsafe Hne) in Hfix.
    set (kept := List.filter (fun c => negb (c =? underscore)) y) in Hfix.
    assert ((length y <= length kept)%nat /\ (length y <= Z.to_nat maxLength)%nat)
      as [Hkept Hfits].
    { apply (f_equal (@length N)) in Hfix. rewrite length_take in Hfix. lia. }
    split; [exact Hne|]. split.
    + intros Hin. apply list_elem_of_In in Hin.
      pose proof (proj1 (forallb_forall _ _) (filter_whole _ _ Hkept) _ Hin) as Hc.
      vm_compute in Hc. discriminate Hc.
    + destruct y; [congruence | cbn in *; lia].
  - intros (Hne & Hus & Hlen). apply cleanTextForPath_fixes_plain; assumption.
Qed.

(** C4 (the code misses a case): a title without any unit of
    [a-z0-9], white space or hyphen in it, here the Cyrillic word of code
    units 1050, 1086, 1090, is not blank, so the fallback is not used, and
    the sanitizer deletes all of it: the path segment is empty and
    [path.join] drops it, leaving the folder of the picture class. *)
Theorem extractText_foreign_title_empty :
  isBlank [1050; 1086; 1090] = false /\
  textWithFallback (Some [1050; 1086; 1090]) (js "unknown_picture_1") 50 = [] /\
  pathJoin DOWNLOADS_DIR [js "animals"; js "cats"; []]
  = [js "images"; js "animals"; js "cats"] /\
  basename (pathJoin DOWNLOADS_DIR [js "animals"; js "cats"; []]) = js "cats".
Proof. repeat split. Qed.

(** ** The size token *)

Lemma takeWhileB_dropWhileB p s : takeWhileB p s ++ dropWhileB p s = s.
Proof.
  induction s as [|c t IH]; [reflexivity|].
  cbn. destruct (p c); [cbn; rewrite IH|]; reflexivity.
Qed.

Lemma takeWhileB_all p s : forallb p (takeWhileB p s) = true.
Proof.
  induction s as [|c t IH]; [reflexivity|].
  cbn. destruct (p c) eqn:Hc; [cbn; rewrite Hc, IH|]; reflexivity.
Qed.

Lemma dropWhileB_head p s :
  forallb p (take 1 (dropWhileB p s)) = false \/ dropWhileB p s = [].
Proof.
  induction s as [|c t IH]; [right; reflexivity|].
  cbn. destruct (p c) eqn:Hc; [exact IH|].
  left. cbn. rewrite Hc. reflexivity.
Qed.

Lemma dropWhileB_length p s : (length (dropWhileB p s) <= length s)%nat.
Proof.
  induction s as [|c t IH]; [reflexivity|].
  cbn. destruct (p c); cbn; lia.
Qed.

(** Inside the digits of a replaced token the scan only drops digits. *)
Lemma replaceSize_inDigits s :
  replaceSize true s = replaceSize false (dropWhileB isDigit s).
Proof.
  induction s as [|c t IH]; [reflexivity|].
  cbn [replaceSize dropWhileB andb].
  destruct (isDigit c) eqn:Hc; [exact IH|].
  cbn [replaceSize]. rewrite Hc. reflexivity.
Qed.

Lemma sizeTokenAt_shape s :
  sizeTokenAt s = true ->
  exists d u, s = 61 :: 115 :: d :: u /\ isDigit d = true.
Proof.
  destruct s as [|a [|b [|d u]]]; cbn; try discriminate.
  rewrite !andb_true_iff, !N.eqb_eq. intros [[-> ->] Hd].
  exists d, u. split; [reflexivity | exact Hd].
Qed.

Lemma replaceSize_rewritten_upto n :
  forall s, (length s <= n)%nat -> SizeRewritten s (replaceSize false s).
Proof.
  induction n as [|n IH]; intros s Hlen.
  - destruct s; [constructor | cbn in Hlen; lia].
  - destruct s as [|c t]; [constructor|].
    destruct (sizeTokenAt (c :: t)) eqn:Htok.
    + destruct (sizeTokenAt_shape _ Htok) as (d & u & Hs & Hd).
      rewrite Hs in Hlen |- *. clear Hs Htok.
      assert (replaceSize false (61 :: 115 :: d :: u)
              = js "=s4096" ++ replaceSize false (dropWhileB isDigit (d :: u))) as ->.
      { rewrite <- replaceSize_inDigits.
        change (replaceSize false (61 :: 115 :: d :: u))
          with (if isDigit d then js "=s4096" ++ replaceSize true (d :: u)
                else 61 :: replaceSize false (115 :: d :: u)).
        rewrite Hd. reflexivity. }
      rewrite <- (takeWhileB_dropWhileB isDigit (d :: u)) at 1.
      apply (SR_token (takeWhileB isDigit (d :: u)) (dropWhileB isDigit (d :: u))).
      * cbn. rewrite Hd. discriminate.
      * apply takeWhileB_all.
      * apply dropWhileB_head.
      * apply IH. pose proof (dropWhileB_length isDigit (d :: u)).
        cbn in *. lia.
    + cbn [replaceSize andb]. rewrite Htok.
      apply SR_unit; [exact Htok|]. apply IH. cbn in Hlen. lia.
Qed.

Lemma replaceSize_rewritten s : SizeRewritten s (replaceSize false s).
Proof. apply (replaceSize_rewritten_upto (length s)). reflexivity. Qed.

Lemma replaceSize_no_token s :
  hasSizeToken s = false -> replaceSize false s = s.
Proof.
  induction s as [|c t IH]; [reflexivity|].
  cbn [hasSizeToken]. rewrite orb_false_iff. intros [Htok Ht].
  cbn [replaceSize andb]. rewrite Htok, (IH Ht). reflexivity.
Qed.

Lemma hasSizeToken_includes s :
  hasSizeToken s = true -> includes (js "=s") s = true.
Proof.
  induction s as [|c t IH]; [discriminate|].
  cbn [hasSizeToken includes]. rewrite !orb_true_iff. intros [Htok|Ht].
  - left. destruct (sizeTokenAt_shape _ Htok) as (d & u & -> & _). reflexivity.
  - right. apply IH, Ht.
Qed.

(** The URL that is fetched: every size token replaced, nothing else. *)
Lemma maxResolution_rewritten src : SizeRewritten src (maxResolution src).
Proof.
  unfold maxResolution. destruct (includes (js "=s") src) eqn:Hinc.
  - apply replaceSize_rewritten.
  - rewrite <- (replaceSize_no_token src) at 2; [apply replaceSize_rewritten|].
    destruct (hasSizeToken src) eqn:Htok; [|reflexivity].
    apply hasSizeToken_includes in Htok. congruence.
Qed.

Lemma maxResolution_no_token src :
  hasSizeToken src = false -> maxResolution src = src.
Proof.
  intros H. unfold maxResolution.
  destruct (includes (js "=s") src); [apply replaceSize_no_token, H | reflexivity].
Qed.

(** ** The filter of a style *)

Lemma startsWith_app p x y :
  (length p <= length x)%nat -> startsWith p (x ++ y) = startsWith p x.
Proof.
  revert x. induction p as [|a p IH]; intros x Hlen; [reflexivity|].
  destruct x as [|b x]; [cbn in Hlen; lia|].
  cbn. rewrite IH; [reflexivity | cbn in Hlen; lia].
Qed.

Lemma filterMatchAt_starts s g :
  filterMatchAt s = Some g -> startsWith (js "filter:") s = true.
Proof.
  unfold filterMatchAt. destruct (startsWith (js "filter:") s); [reflexivity | discriminate].
Qed.

Lemma filterMatch_absent s :
  includes (js "filter:") s = false -> filterMatch s = None.
Proof.
  induction s as [|c t IH].
  - reflexivity.
  - cbn [includes]. rewrite orb_false_iff. intros [Hs Ht].
    cbn [filterMatch]. unfold filterMatchAt. rewrite Hs. apply IH, Ht.
Qed.

Lemma dropWhileB_app_stop p xs y ys :
  forallb p xs = true -> p y = false -> dropWhileB p (xs ++ y :: ys) = y :: ys.
Proof.
  intros Hxs Hy. induction xs as [|x xs IH]; cbn in *.
  - rewrite Hy. reflexivity.
  - apply andb_true_iff in Hxs as [-> Hxs]. apply IH, Hxs.
Qed.

Lemma takeWhileB_app_stop p xs y ys :
  forallb p xs = true -> p y = false -> takeWhileB p (xs ++ y :: ys) = xs.
Proof.
  intros Hxs Hy. induction xs as [|x xs IH]; cbn in *.
  - rewrite Hy. reflexivity.
  - apply andb_true_iff in Hxs as [-> Hxs]. rewrite (IH Hxs). reflexivity.
Qed.

Lemma takeWhileB_whole p xs : forallb p xs = true -> takeWhileB p xs = xs.
Proof.
  induction xs as [|x xs IH]; cbn; [reflexivity|].
  rewrite andb_true_iff. intros [-> Hxs]. rewrite (IH Hxs). reflexivity.
Qed.

Lemma dropWhileB_keeps_last p xs y :
  p y = false -> dropWhileB p (xs ++ [y]) <> [].
Proof.
  intros Hy. induction xs as [|x xs IH]; cbn.
  - rewrite Hy. discriminate.
  - destruct (p x); [exact IH | discriminate].
Qed.

Lemma trim_nonempty e0 e' : isSpace e0 = false -> trim (e0 :: e') <> [].
Proof.
  intros H0. unfold trim. cbn [dropWhileB]. rewrite H0.
  cbn [rev]. intros Hrev.
  apply (f_equal (@rev N)) in Hrev. rewrite rev_involutive in Hrev.
  exact (dropWhileB_keeps_last isSpace (rev e') e0 H0 Hrev).
Qed.

(** The match tried where the declaration starts captures the expression. *)
Lemma filterMatchAt_declared spaces e0 e' after :
  forallb isSpace spaces = true ->
  isSpace e0 = false ->
  forallb (fun c => negb (c =? semicolon)) (e0 :: e') = true ->
  after = [] \/ (exists after', after = semicolon :: after') ->
  filterMatchAt (js "filter:" ++ spaces ++ (e0 :: e') ++ after) = Some (e0 :: e').
Proof.
  intros Hsp H0 Hexpr Hafter. unfold filterMatchAt.
  change (startsWith (js "filter:") (js "filter:" ++ ?x)) with true.
  change (drop 7 (js "filter:" ++ ?x)) with x. cbn iota.
  change ((e0 :: e') ++ after) with (e0 :: e' ++ after).
  rewrite (dropWhileB_app_stop isSpace spaces e0 (e' ++ after) Hsp H0).
  change (e0 :: e' ++ after) with ((e0 :: e') ++ after).
  assert (takeWhileB (fun c => negb (c =? semicolon)) ((e0 :: e') ++ after)
          = e0 :: e') as ->.
  { destruct Hafter as [-> | [after' ->]].
    - rewrite app_nil_r. apply takeWhileB_whole, Hexpr.
    - apply takeWhileB_app_stop; [exact Hexpr | reflexivity]. }
  reflexivity.
Qed.

Lemma filterMatch_skip before rest :
  includes (js "filter:") (before ++ js "filter") = false ->
  filterMatch (before ++ js "filter:" ++ rest) = filterMatch (js "filter:" ++ rest).
Proof.
  induction before as [|b bs IH]; [reflexivity|].
  intros Hinc. change ((b :: bs) ++ js "filter") with (b :: (bs ++ js "filter")) in Hinc.
  cbn [includes] in Hinc. apply orb_false_iff in Hinc as [Hs Ht].
  change ((b :: bs) ++ js "filter:" ++ rest) with (b :: (bs ++ js "filter:" ++ rest)).
  cbn [filterMatch].
  assert (filterMatchAt (b :: bs ++ js "filter:" ++ rest) = None) as ->.
  { unfold filterMatchAt.
    assert (startsWith (js "filter:") (b :: bs ++ js "filter:" ++ rest) = false) as ->;
      [|reflexivity].
    assert (b :: bs ++ js "filter:" ++ rest
            = (b :: bs ++ js "filter") ++ 58 :: rest) as ->.
    { change (b :: bs ++ js "filter") with ((b :: bs) ++ js "filter").
      rewrite <- app_assoc. reflexivity. }
    rewrite startsWith_app; [exact Hs|].
    cbn. rewrite length_app. cbn. lia. }
  apply IH, Ht.
Qed.

Lemma startsWith_prefix p q : startsWith p (p ++ q) = true.
Proof. induction p as [|a p IH]; [reflexivity|]. cbn. rewrite N.eqb_refl. exact IH. Qed.

Lemma startsWith_split p s : startsWith p s = true -> exists q, s = p ++ q.
Proof.
  revert s. induction p as [|a p IH]; intros s H; [exists s; reflexivity|].
  destruct s as [|b s]; [discriminate|]. cbn in H.
  apply andb_true_iff in H as [Hab Hs]. apply N.eqb_eq in Hab. subst b.
  destruct (IH s Hs) as [q ->]. exists q. reflexivity.
Qed.

Lemma dropWhileB_all p s : forallb p s = true -> dropWhileB p s = [].
Proof.
  induction s as [|c t IH]; [reflexivity|]. cbn.
  rewrite andb_true_iff. intros [-> Ht]. apply IH, Ht.
Qed.

Lemma dropWhileB_nil_all p s : dropWhileB p s = [] -> forallb p s = true.
Proof.
  induction s as [|c t IH]; [reflexivity|]. cbn.
  destruct (p c); [exact IH | discriminate].
Qed.

Lemma trim_blank s : forallb isSpace s = true -> trim s = [].
Proof. intros H. unfold trim. rewrite (dropWhileB_all _ _ H). reflexivity. Qed.

Lemma trim_leading spaces s :
  forallb isSpace spaces = true -> trim (spaces ++ s) = trim s.
Proof.
  intros H. unfold trim. f_equal. f_equal. f_equal.
  induction spaces as [|c t IH]; [reflexivity|]. cbn in *.
  apply andb_true_iff in H as [-> Ht]. apply IH, Ht.
Qed.

(** Where [filter:] has no value after it, the expression does not match. *)
Lemma filterMatchAt_no_value q :
  q = [] \/ (exists q', q = semicolon :: q') ->
  filterMatchAt (js "filter:" ++ q) = None.
Proof. intros [-> | [q' ->]]; reflexivity. Qed.

(** Where it has one, the group is the value or the last unit of a blank
    value: the value, once both are trimmed. *)
Lemma filterMatchAt_value value after :
  value <> [] ->
  forallb (fun c => negb (c =? semicolon)) value = true ->
  after = [] \/ (exists after', after = semicolon :: after') ->
  exists g, filterMatchAt (js "filter:" ++ value ++ after) = Some g /\
            trim g = trim value.
Proof.
  intros Hne Hvalue Hafter.
  destruct (dropWhileB isSpace value) as [|e0 e'] eqn:Hdrop.
  - apply dropWhileB_nil_all in Hdrop.
    destruct (last value) as [c|] eqn:Hlast;
      [|apply last_None in Hlast; congruence].
    exists [c]. split.
    + unfold filterMatchAt.
      change (startsWith (js "filter:") (js "filter:" ++ ?x)) with true.
      change (drop 7 (js "filter:" ++ ?x)) with x. cbn iota zeta.
      assert (dropWhileB isSpace (value ++ after) = after
              /\ takeWhileB isSpace (value ++ after) = value) as [-> ->].
      { destruct Hafter as [-> | [after' ->]].
        - rewrite app_nil_r. split; [apply dropWhileB_all, Hdrop|].
          apply takeWhileB_whole, Hdrop.
        - split; [apply dropWhileB_app_stop | apply takeWhileB_app_stop];
            first [exact Hdrop | reflexivity]. }
      assert (takeWhileB (fun c => negb (c =? semicolon)) after = []) as ->
        by (destruct Hafter as [-> | [after' ->]]; reflexivity).
      rewrite Hlast. reflexivity.
    + rewrite (trim_blank value Hdrop). apply trim_blank. cbn.
      apply last_Some_elem_of, list_elem_of_In in Hlast.
      rewrite (proj1 (forallb_forall _ _) Hdrop c Hlast). reflexivity.
  - pose proof (takeWhileB_dropWhileB isSpace value) as Hsplit.
    rewrite Hdrop in Hsplit.
    assert (isSpace e0 = false) as H0.
    { pose proof (dropWhileB_head isSpace value) as [H | H]; rewrite Hdrop in H;
        [cbn in H; rewrite andb_true_r in H; exact H | discriminate H]. }
    exists (e0 :: e'). rewrite <- Hsplit, <- app_assoc. split.
    + apply filterMatchAt_declared;
        [apply takeWhileB_all | exact H0 | | exact Hafter].
      rewrite <- Hsplit, forallb_app in Hvalue.
      apply andb_true_iff in Hvalue as [_ Hvalue]. exact Hvalue.
    + symmetry. apply trim_leading, takeWhileB_all.
Qed.

Lemma filterMatchAt_None_no_value q :
  filterMatchAt (js "filter:" ++ q) = None ->
  q = [] \/ exists q', q = semicolon :: q'.
Proof.
  intros Hnone. destruct q as [|c q']; [left; reflexivity|].
  destruct (c =? semicolon) eqn:Hc.
  - apply N.eqb_eq in Hc. subst c. right. eexists. reflexivity.
  - exfalso.
    set (value := takeWhileB (fun c => negb (c =? semicolon)) (c :: q')).
    destruct (filterMatchAt_value value
                (dropWhileB (fun c => negb (c =? semicolon)) (c :: q')))
      as (g & Hg & _).
    + unfold value. cbn. rewrite Hc. discriminate.
    + apply takeWhileB_all.
    + destruct (dropWhileB_head (fun c => negb (c =? semicolon)) (c :: q')) as [H | H].
      * right.
        destruct (dropWhileB (fun c => negb (c =? semicolon)) (c :: q')) as [|d rest];
          [discriminate H|].
        cbn in H. rewrite andb_true_r in H. apply negb_false_iff, N.eqb_eq in H.
        subst d. eexists. reflexivity.
      * left. exact H.
    + unfold value in Hg. rewrite takeWhileB_dropWhileB in Hg. congruence.
Qed.

(** What the expression finds in a text is its group at the first
    [filter:] that has a value. *)
Lemma filterMatch_found s g :
  filterMatch s = Some g ->
  exists before value after,
    s = before ++ js "filter:" ++ value ++ after /\
    (forall p q, s = p ++ js "filter:" ++ q -> (length p < length before)%nat ->
       q = [] \/ exists q', q = semicolon :: q') /\
    value <> [] /\
    forallb (fun c => negb (c =? semicolon)) value = true /\
    (after = [] \/ exists after', after = semicolon :: after') /\
    trim g = trim value.
Proof.
  revert g. induction s as [|c t IH]; intros g.
  - cbn. discriminate.
  - cbn [filterMatch]. destruct (filterMatchAt (c :: t)) as [g'|] eqn:Hat.
    + intros [= <-].
      destruct (startsWith_split _ _ (filterMatchAt_starts _ _ Hat)) as [q Hq].
      pose proof (takeWhileB_dropWhileB (fun c => negb (c =? semicolon)) q) as Hsplit.
      pose proof (takeWhileB_all (fun c => negb (c =? semicolon)) q) as Hall.
      pose proof (dropWhileB_head (fun c => negb (c =? semicolon)) q) as Hhead.
      remember (takeWhileB (fun c => negb (c =? semicolon)) q) as value eqn:Ev.
      remember (dropWhileB (fun c => negb (c =? semicolon)) q) as after eqn:Ea.
      clear Ev Ea. symmetry in Hsplit.
      assert (after = [] \/ exists after', after = semicolon :: after') as Hafter.
      { destruct Hhead as [H | H]; [|left; exact H].
        right. destruct after as [|d rest]; [discriminate H|].
        cbn in H. rewrite andb_true_r in H. apply negb_false_iff, N.eqb_eq in H.
        subst d. eexists. reflexivity. }
      assert (value <> []) as Hne.
      { intros Hv. rewrite Hv in Hsplit. cbn in Hsplit. subst q.
        rewrite Hq, (filterMatchAt_no_value after Hafter) in Hat. discriminate Hat. }
      destruct (filterMatchAt_value value after Hne Hall Hafter)
        as (g & Hg & Htrim).
      rewrite <- Hsplit, <- Hq, Hat in Hg. injection Hg as <-.
      exists [], value, after. rewrite Hq, Hsplit.
      split; [reflexivity|]. split; [intros p q0 _ Hp; cbn in Hp; lia|].
      split; [exact Hne|]. split; [exact Hall|]. auto.
    + intros Hg.
      destruct (IH g Hg) as (before & value & after & -> & Hmin & Hrest).
      exists (c :: before), value, after. split; [reflexivity|]. split; [|exact Hrest].
      intros [|c' p] q Heq Hp.
      * change (c :: (before ++ js "filter:" ++ value ++ after) = js "filter:" ++ q)
          in Heq.
        rewrite Heq in Hat. apply filterMatchAt_None_no_value, Hat.
      * change (c :: (before ++ js "filter:" ++ value ++ after)
                = c' :: (p ++ js "filter:" ++ q)) in Heq.
        injection Heq as _ Heq. apply (Hmin p q Heq). cbn in Hp. lia.
Qed.

Lemma filterMatch_at_value before value after :
  (forall p q, before ++ js "filter:" ++ value ++ after = p ++ js "filter:" ++ q ->
     (length p < length before)%nat -> q = [] \/ exists q', q = semicolon :: q') ->
  value <> [] ->
  forallb (fun c => negb (c =? semicolon)) value = true ->
  after = [] \/ (exists after', after = semicolon :: after') ->
  exists g, filterMatch (before ++ js "filter:" ++ value ++ after) = Some g /\
            trim g = trim value.
Proof.
  intros Hmin Hne Hvalue Hafter. induction before as [|c before IH].
  - destruct (filterMatchAt_value value after Hne Hvalue Hafter) as (g & Hg & Htrim).
    exists g. split; [|exact Htrim].
    change ([] ++ js "filter:" ++ value ++ after)
      with (102 :: (js "ilter:" ++ value ++ after)).
    cbn [filterMatch].
    change (102 :: (js "ilter:" ++ value ++ after))
      with (js "filter:" ++ value ++ after).
    rewrite Hg. reflexivity.
  - change ((c :: before) ++ js "filter:" ++ value ++ after)
      with (c :: (before ++ js "filter:" ++ value ++ after)).
    cbn [filterMatch].
    assert (filterMatchAt (c :: (before ++ js "filter:" ++ value ++ after)) = None) as ->.
    { destruct (filterMatchAt (c :: (before ++ js "filter:" ++ value ++ after)))
        as [g|] eqn:Hat; [|reflexivity].
      destruct (startsWith_split _ _ (filterMatchAt_starts _ _ Hat)) as [q Hq].
      rewrite Hq, (filterMatchAt_no_value q) in Hat; [discriminate Hat|].
      apply (Hmin [] q); [exact Hq | cbn; lia]. }
    apply IH. intros p q Heq Hp. apply (Hmin (c :: p) q); [|cbn; lia].
    exact (f_equal (cons c) Heq).
Qed.

(** A declared filter is what [filterInfo] finds, and the other way
    round: [filterInfo] is the reading of "declared" that the code has. *)
Lemma filterInfo_declared style expr :
  DeclaresFilter style expr <-> filterInfo (Some style) = Some expr /\ expr <> [].
Proof.
  split.
  - intros (before & value & after & -> & Hmin & Hne & Hvalue & Hafter & -> & Hexpr).
    destruct (filterMatch_at_value before value after Hmin Hne Hvalue Hafter)
      as (g & Hg & Htrim).
    unfold filterInfo. rewrite Hg. cbn. rewrite Htrim. auto.
  - intros [Hinfo Hexpr]. unfold filterInfo in Hinfo.
    destruct (filterMatch style) as [g|] eqn:Hg; [|discriminate Hinfo].
    cbn in Hinfo. injection Hinfo as <-.
    destruct (filterMatch_found style g Hg)
      as (before & value & after & Hs & Hmin & Hne & Hvalue & Hafter & Htrim).
    exists before, value, after. rewrite <- Htrim. auto 10.
Qed.

Lemma filterInfo_truthy style :
  truthy (filterInfo style) = true
  <-> exists s expr, style = Some s /\ DeclaresFilter s expr.
Proof.
  split.
  - destruct style as [s|]; [|discriminate].
    destruct (filterInfo (Some s)) as [[|f ilter]|] eqn:Hinfo; try discriminate.
    intros _. exists s, (f :: ilter). split; [reflexivity|].
    apply filterInfo_declared. split; [exact Hinfo | discriminate].
  - intros (s & expr & -> & Hdecl). apply filterInfo_declared in Hdecl as [-> Hne].
    destruct expr; [congruence | reflexivity].
Qed.

Lemma filterInfo_absent style :
  style = None \/ (exists s, style = Some s /\ includes (js "filter:") s = false) ->
  filterInfo style = None.
Proof.
  intros [-> | (s & -> & Hinc)]; [reflexivity|].
  unfold filterInfo. rewrite (filterMatch_absent s Hinc). reflexivity.
Qed.

Local Close Scope N_scope.
Local Open Scope prog_scope.

(** ** Files *)

Lemma pathJoin_file (base : Path) (name : JSString) :
  name <> [] -> pathJoin base [name] = base ++ [name].
Proof. intros H. unfold pathJoin. destruct name; [congruence | reflexivity]. Qed.

Lemma tempName_nonempty i : js "temp_" ++ decimal i ++ js ".jpg" <> [].
Proof. discriminate. Qed.

Lemma finalName_nonempty (name : JSString) n :
  name ++ js "_" ++ decimal n ++ js ".jpg" <> [].
Proof. destruct name; discriminate. Qed.

(** The whole of [downloadImageToBuffer], by the way the transfer ends. *)
Lemma downloadImageToBuffer_run w src (folder : Path) i st :
  downloadImageToBuffer w src folder i st =
  let tempPath := folder ++ [js "temp_" ++ decimal i ++ js ".jpg"] in
  match fetch w src with
  | Received body => (Ok body, setFiles (delete tempPath (files st)) st)
  | RequestError err => (Err err, setFiles (delete tempPath (files st)) st)
  | Stalled partial =>
      (Hang, setFiles (<[tempPath := partial]> (files st)) st)
  | Refused err => (Err err, setFiles (<[tempPath := []]> (files st)) st)
  end.
Proof.
  unfold downloadImageToBuffer.
  change (pathJoin folder [?name]) with (folder ++ [name]).
  set (tempPath := folder ++ [js "temp_" ++ decimal i ++ js ".jpg"]).
  unfold downloadImage, bind, createWriteStream, writeFileSync, unlink, throw, hang,
    readFileSync, unlinkSync, ret, setFiles.
  destruct (fetch w src) as [body|err|partial|err]; cbn.
  - rewrite insert_insert_eq, lookup_insert_eq. cbn.
    rewrite lookup_insert_eq, delete_insert_eq. reflexivity.
  - rewrite delete_insert_eq. reflexivity.
  - rewrite insert_insert_eq. reflexivity.
  - reflexivity.
Qed.

(** When the body is received and when the request emits an error, the
    acquisition of a raw layer leaves no [temp_<index>.jpg] behind. *)
Lemma downloadImageToBuffer_cleans w src (folder : Path) i st :
  (exists body, fetch w src = Received body) \/
  (exists err, fetch w src = RequestError err) ->
  files (downloadImageToBuffer w src folder i st).2
    !! (folder ++ [js "temp_" ++ decimal i ++ js ".jpg"]) = None.
Proof.
  rewrite downloadImageToBuffer_run. cbn zeta.
  intros [[body ->] | [err ->]]; apply lookup_delete_eq.
Qed.

(** C8 (the code misses a case): [https.get] throws for a URL whose
    protocol is not [https:]; the acquisition then finishes, rejected with
    that error, and the file that the write stream created, empty, is still
    in the picture's folder. *)
Theorem downloadImageToBuffer_leaves_temp :
  fetch plainHttpWorld (js "http://lh3.example/a.png") = Refused NOT_HTTPS /\
  (downloadImageToBuffer plainHttpWorld (js "http://lh3.example/a.png")
     sampleFolder 0 sampleStart).1 = Err NOT_HTTPS /\
  files (downloadImageToBuffer plainHttpWorld (js "http://lh3.example/a.png")
           sampleFolder 0 sampleStart).2
    !! (sampleFolder ++ [js "temp_0.jpg"]) = Some [].
Proof.
  rewrite downloadImageToBuffer_run. cbn. repeat split.
Qed.

(** ** Acquiring a layer *)

Lemma applyCSSFilterToImage_state v w url filter st :
  (applyCSSFilterToImage v w url filter st).2 = st.
Proof.
  unfold applyCSSFilterToImage.
  destruct (render w url filter); [reflexivity | destruct v; reflexivity | reflexivity].
Qed.

Lemma applyCSSFilterToImage_run v w url filter st :
  applyCSSFilterToImage v w url filter st =
  (match render w url filter with
   | Rendered png => Ok png
   | NoContext =>
       match v with TypeScript => Err NO_CONTEXT | JavaScript => Hang end
   | LoadFailed => Err (js "Failed to load image")
   end, st).
Proof.
  unfold applyCSSFilterToImage.
  destruct (render w url filter); [reflexivity | destruct v; reflexivity | reflexivity].
Qed.

(** C5: every style either declares a filter or does not.  A layer whose
    style declares the filter [expr] has the buffer that the canvas renders
    for its URL and [expr] (the error of the canvas when it renders none),
    with nothing fetched and no file touched; a layer whose style declares
    none has the body that the network sends for its URL, taken through
    [temp_<i>.jpg]; and the URL used in both cases is the layer's with every
    [=s<digits>] token turned into [=s4096], which is the layer's own URL
    when it has no such token. *)
Theorem acquireImage_by_filter v w (src : JSString) (style : option JSString)
    (folder : Path) (i : nat) :
  ((exists s expr, style = Some s /\ DeclaresFilter s expr) \/
   (forall s expr, style = Some s -> ~ DeclaresFilter s expr)) /\
  (forall s expr, style = Some s -> DeclaresFilter s expr ->
     forall st,
       acquireImage v w src style folder i st =
       (match render w (maxResolution src) expr with
        | Rendered png => Ok png
        | NoContext =>
            match v with TypeScript => Err NO_CONTEXT | JavaScript => Hang end
        | LoadFailed => Err (js "Failed to load image")
        end, st)) /\
  ((forall s expr, style = Some s -> ~ DeclaresFilter s expr) ->
     forall st,
       acquireImage v w src style folder i st =
       let tempPath := folder ++ [js "temp_" ++ decimal i ++ js ".jpg"] in
       match fetch w (maxResolution src) with
       | Received body => (Ok body, setFiles (delete tempPath (files st)) st)
       | RequestError err => (Err err, setFiles (delete tempPath (files st)) st)
       | Stalled partial => (Hang, setFiles (<[tempPath := partial]> (files st)) st)
       | Refused err => (Err err, setFiles (<[tempPath := []]> (files st)) st)
       end) /\
  SizeRewritten src (maxResolution src) /\
  (hasSizeToken src = false -> maxResolution src = src).
Proof.
  split; [|split; [|split; [|split]]].
  - destruct (truthy (filterInfo style)) eqn:Htruthy.
    + left. apply filterInfo_truthy, Htruthy.
    + right. intros s expr Hs Hdecl.
      assert (truthy (filterInfo style) = true) as Hyes
        by (apply filterInfo_truthy; eauto).
      congruence.
  - intros s expr -> Hdecl st. apply filterInfo_declared in Hdecl as [Hf Hne].
    unfold acquireImage. rewrite Hf.
    destruct expr as [|f ilter]; [congruence | apply applyCSSFilterToImage_run].
  - intros Hnone st.
    assert (truthy (filterInfo style) = false) as Hfalsy.
    { destruct (truthy (filterInfo style)) eqn:Htruthy; [|reflexivity].
      apply filterInfo_truthy in Htruthy as (s & expr & Hs & Hdecl).
      destruct (Hnone s expr Hs Hdecl). }
    rewrite <- downloadImageToBuffer_run. unfold acquireImage, truthy in *.
    destruct (filterInfo style) as [[|f ilter]|]; [reflexivity | discriminate | reflexivity].
  - apply maxResolution_rewritten.
  - apply maxResolution_no_token.
Qed.

Lemma sampleFiltered_declares :
  DeclaresFilter (js "opacity: 1; filter: hue-rotate(90deg); top: 0")
                 (js "hue-rotate(90deg)").
Proof. apply filterInfo_declared. split; [reflexivity | discriminate]. Qed.

Lemma sampleRaw_declares_none s expr :
  layerStyle sampleRaw = Some s -> ~ DeclaresFilter s expr.
Proof.
  intros Hs Hdecl. apply filterInfo_declared in Hdecl as [Hinfo Hne].
  rewrite <- Hs in Hinfo. discriminate Hinfo.
Qed.

Lemma acquireImage_by_filter_witness :
  (acquireImage TypeScript sampleWorld (js "https://lh3.example/b=s64-c")
     (layerStyle sampleFiltered) sampleFolder 2 sampleStart
   = (Ok (js "https://lh3.example/b=s4096-chue-rotate(90deg)"), sampleStart)) /\
  (acquireImage TypeScript sampleWorld (js "https://lh3.example/a=s128")
     (layerStyle sampleRaw) sampleFolder 0 sampleStart).1
   = Ok (js "https://lh3.example/a=s4096") /\
  maxResolution (js "https://lh3.example/plain") = js "https://lh3.example/plain".
Proof.
  split; [|split].
  - exact (proj1 (proj2 (acquireImage_by_filter TypeScript sampleWorld
             (js "https://lh3.example/b=s64-c") (layerStyle sampleFiltered)
             sampleFolder 2)) _ _ eq_refl sampleFiltered_declares sampleStart).
  - exact (f_equal fst (proj1 (proj2 (proj2 (acquireImage_by_filter TypeScript sampleWorld
             (js "https://lh3.example/a=s128") (layerStyle sampleRaw)
             sampleFolder 0))) sampleRaw_declares_none sampleStart)).
  - exact (proj2 (proj2 (proj2 (proj2 (acquireImage_by_filter TypeScript sampleWorld
             (js "https://lh3.example/plain") None sampleFolder 0)))) eq_refl).
Defined.

(** ** Reasoning about runs *)

Lemma wp_ret {A} (a : A) (Q : A -> State -> Prop) st : Q a st -> wp (ret a) Q st.
Proof. intros H. exists a, st. split; [reflexivity | exact H]. Qed.

Lemma wp_bind {A B} (m : M A) (k : A -> M B) (P : A -> State -> Prop)
    (Q : B -> State -> Prop) st :
  wp m P st ->
  (forall a st', P a st' -> wp (k a) Q st') ->
  wp (x <- m ;; k x) Q st.
Proof.
  intros (a & st1 & Hm & HP) Hk.
  destruct (Hk a st1 HP) as (b & st2 & Hkb & HQ).
  exists b, st2. split; [|exact HQ]. unfold bind. rewrite Hm. exact Hkb.
Qed.

Lemma wp_mono {A} (m : M A) (P Q : A -> State -> Prop) st :
  wp m P st -> (forall a st', P a st' -> Q a st') -> wp m Q st.
Proof. intros (a & st' & Hm & HP) HPQ. exists a, st'. auto. Qed.

(** The rule of the [for] loop: [I j acc] holds before iteration [j]. *)
Lemma wp_forFrom {T} (I : nat -> T -> State -> Prop) (body : nat -> T -> M T) count :
  forall from acc st,
  I from acc st ->
  (forall j acc st, from <= j < from + count -> I j acc st ->
     wp (body j acc) (fun acc' st' => I (S j) acc' st') st) ->
  wp (forFrom count from body acc) (fun acc' st' => I (from + count) acc' st') st.
Proof.
  induction count as [|count IH]; intros from acc st HI Hbody.
  - apply wp_ret. rewrite Nat.add_0_r. exact HI.
  - cbn [forFrom]. eapply wp_bind.
    + apply Hbody; [lia | exact HI].
    + intros acc' st' HI'. cbn beta in HI'.
      replace (from + S count) with (S from + count) by lia.
      apply IH; [exact HI'|].
      intros j acc0 st0 Hj. apply Hbody. lia.
Qed.

Lemma wp_forUpTo {T} (I : nat -> T -> State -> Prop) (body : nat -> T -> M T)
    count acc st :
  I 0 acc st ->
  (forall j acc st, j < count -> I j acc st ->
     wp (body j acc) (fun acc' st' => I (S j) acc' st') st) ->
  wp (forUpTo count body acc) (fun acc' st' => I count acc' st') st.
Proof.
  intros H0 Hbody. unfold forUpTo.
  apply (wp_forFrom I body count 0 acc st H0).
  intros j acc0 st0 Hj. apply Hbody. lia.
Qed.

Lemma actionsOf_app l1 l2 : actionsOf (l1 ++ l2) = actionsOf l1 ++ actionsOf l2.
Proof. apply omap_app. Qed.

Lemma actionsOf_Did acts : actionsOf (List.map Did acts) = acts.
Proof. induction acts as [|a acts IH]; [reflexivity|]. cbn. f_equal. exact IH. Qed.

Lemma At_answered cur L cur' acts st :
  At cur L st -> At cur' (L ++ acts) (answered cur' acts st).
Proof.
  intros [_ HL]. split; [reflexivity|]. cbn.
  rewrite actionsOf_app, actionsOf_Did, HL. reflexivity.
Qed.

Lemma At_console cur L m st : At cur L st -> At cur L (addLog [Console m] st).
Proof.
  intros [Hc HL]. split; [exact Hc|]. cbn.
  rewrite actionsOf_app, HL. cbn. apply app_nil_r.
Qed.

Lemma At_setFiles cur L f st : At cur L st -> At cur L (setFiles f st).
Proof. intros H. exact H. Qed.

Lemma At_setDirs cur L d st : At cur L st -> At cur L (setDirs d st).
Proof. intros H. exact H. Qed.

Lemma wp_consoleLog cur L m st :
  At cur L st -> wp (consoleLog m) (fun _ st' => At cur L st') st.
Proof.
  intros H. exists tt, (addLog [Console m] st).
  split; [reflexivity | apply At_console, H].
Qed.

Lemma wp_createFolderStructure cur L c k p st :
  At cur L st ->
  wp (createFolderStructure c k p)
     (fun folder st' => folder = pathJoin DOWNLOADS_DIR [c; k; p] /\ At cur L st') st.
Proof.
  intros H. unfold createFolderStructure, bind, existsSync, mkdirSync, ret, wp.
  match goal with |- context [if ?b then _ else _] => destruct b end.
  - exists (pathJoin DOWNLOADS_DIR [c; k; p]), st. auto.
  - eexists _, _. split; [reflexivity|]. split; [reflexivity|].
    apply At_setDirs, H.
Qed.

Section FaultFreeRuns.

Context (v : Variant) (w : World) (Hff : FaultFree w).

Lemma wp_request {A} (answer : Cursor -> option (A * Cursor * list Action))
    cur L a cur' acts st :
  At cur L st ->
  answer cur = Some (a, cur', acts) ->
  wp (request w answer) (fun a' st' => a' = a /\ At cur' (L ++ acts) st') st.
Proof.
  intros Hat Hans. exists a, (answered cur' acts st).
  split; [|split; [reflexivity | eapply At_answered, Hat]].
  unfold request. rewrite (Hff (ticks st)).
  destruct Hat as [-> _]. rewrite Hans. reflexivity.
Qed.

Lemma wp_waitFor frame l cur L st :
  At cur L st -> 0 < countOf frame cur l ->
  wp (waitFor w frame l) (fun _ st' => At cur L st') st.
Proof.
  intros Hat Hn. eapply wp_mono.
  - eapply (wp_request _ cur L tt cur [] st Hat).
    apply Nat.ltb_lt in Hn. rewrite Hn. reflexivity.
  - cbn. intros _ st' [_ H]. rewrite app_nil_r in H. exact H.
Qed.

Lemma wp_click frame l cur L st :
  At cur L st -> 0 < countOf frame cur l ->
  wp (click w frame l)
     (fun _ st' => At (clickEffect cur l).1 (L ++ (clickEffect cur l).2) st') st.
Proof.
  intros Hat Hn. eapply wp_mono.
  - eapply (wp_request _ cur L tt _ _ st Hat).
    apply Nat.ltb_lt in Hn. rewrite Hn. reflexivity.
  - cbn. intros _ st' [_ H]. exact H.
Qed.

Lemma wp_count frame l cur L st :
  At cur L st ->
  wp (count w frame l) (fun n st' => n = countOf frame cur l /\ At cur L st') st.
Proof.
  intros Hat. eapply wp_mono.
  - eapply (wp_request _ cur L _ cur [] st Hat). reflexivity.
  - cbn. intros n st' [-> H]. rewrite app_nil_r in H. auto.
Qed.

Lemma wp_textContent frame l cur L st :
  At cur L st -> 0 < countOf frame cur l ->
  wp (textContent w frame l) (fun t st' => t = textOf frame cur l /\ At cur L st') st.
Proof.
  intros Hat Hn. eapply wp_mono.
  - eapply (wp_request _ cur L _ cur [] st Hat).
    apply Nat.ltb_lt in Hn. rewrite Hn. reflexivity.
  - cbn. intros n st' [-> H]. rewrite app_nil_r in H. auto.
Qed.

Lemma wp_getAttribute frame l a cur L st :
  At cur L st -> 0 < countOf frame cur l ->
  wp (getAttribute w frame l a)
     (fun t st' => t = attributeOf frame cur l a /\ At cur L st') st.
Proof.
  intros Hat Hn. eapply wp_mono.
  - eapply (wp_request _ cur L _ cur [] st Hat).
    apply Nat.ltb_lt in Hn. rewrite Hn. reflexivity.
  - cbn. intros n st' [-> H]. rewrite app_nil_r in H. auto.
Qed.

Lemma wp_extractTextWithFallback frame l fallback maxLength cur L st :
  At cur L st -> 0 < countOf frame cur l ->
  wp (extractTextWithFallback w frame l fallback maxLength)
     (fun name st' =>
        name = textWithFallback (textOf frame cur l) fallback maxLength /\
        At cur L st') st.
Proof.
  intros Hat Hn. unfold extractTextWithFallback.
  eapply wp_bind; [apply (wp_textContent frame l cur L st Hat Hn)|].
  cbn. intros t st' [-> H]. apply wp_ret. auto.
Qed.

(** Acquiring a layer whose bytes are there to be had. *)
Lemma wp_acquireImage src style folder i b cur L st :
  At cur L st -> acquired w src style = Some b ->
  wp (acquireImage v w src style folder i) (fun b' st' => b' = b /\ At cur L st') st.
Proof.
  intros Hat Hacq. unfold acquired in Hacq. unfold acquireImage, wp.
  destruct (filterInfo style) as [[|f ilter]|].
  - rewrite downloadImageToBuffer_run. cbn zeta.
    destruct (fetch w (maxResolution src)); try discriminate.
    injection Hacq as ->. eexists _, _. split; [reflexivity|].
    split; [reflexivity | apply At_setFiles, Hat].
  - unfold applyCSSFilterToImage.
    destruct (render w (maxResolution src) (f :: ilter)); try discriminate.
    injection Hacq as ->. eexists _, _. split; [reflexivity|]. auto.
  - rewrite downloadImageToBuffer_run. cbn zeta.
    destruct (fetch w (maxResolution src)); try discriminate.
    injection Hacq as ->. eexists _, _. split; [reflexivity|].
    split; [reflexivity | apply At_setFiles, Hat].
Qed.

End FaultFreeRuns.

Lemma bind_run {A B} (m : M A) (k : A -> M B) st a st' :
  m st = (Ok a, st') -> (x <- m ;; k x) st = k a st'.
Proof. intros Hm. unfold bind. rewrite Hm. reflexivity. Qed.

(** ** The layers of a preview *)

Lemma buffersOf_app w l1 l2 : buffersOf w (l1 ++ l2) = buffersOf w l1 ++ buffersOf w l2.
Proof. apply omap_app. Qed.

Lemma buffersOf_cons w lay lays :
  buffersOf w (lay :: lays) = buffersOf w [lay] ++ buffersOf w lays.
Proof. apply (buffersOf_app w [lay] lays). Qed.

Lemma buffersOf_with_src w lay u rest b :
  layerSrc lay = Some (u :: rest) ->
  acquired w (u :: rest) (layerStyle lay) = Some b ->
  buffersOf w [lay] = [b].
Proof. intros Hsrc Hb. unfold buffersOf. cbn. rewrite Hsrc, Hb. reflexivity. Qed.

Lemma buffersOf_without_src w lay : hasSrc lay = false -> buffersOf w [lay] = [].
Proof.
  unfold hasSrc, truthy, buffersOf. cbn.
  destruct (layerSrc lay) as [[|u rest]|]; [reflexivity | discriminate | reflexivity].
Qed.

Lemma buffersOf_length w lays :
  (forall lay u rest, lay ∈ lays -> layerSrc lay = Some (u :: rest) ->
     is_Some (acquired w (u :: rest) (layerStyle lay))) ->
  length (buffersOf w lays) = length (List.filter hasSrc lays).
Proof.
  induction lays as [|lay lays IH]; intros Hacq; [reflexivity|].
  assert (length (buffersOf w lays) = length (List.filter hasSrc lays)) as IH'.
  { apply IH. intros lay' u rest Hin. apply Hacq. right. exact Hin. }
  rewrite buffersOf_cons, length_app, IH'. cbn [List.filter].
  destruct (hasSrc lay) eqn:Hhas.
  - unfold hasSrc, truthy in Hhas.
    destruct (layerSrc lay) as [[|u rest]|] eqn:Hsrc; try discriminate.
    destruct (Hacq lay u rest (list_elem_of_here _ _) Hsrc) as [b Hb].
    rewrite (buffersOf_with_src w lay u rest b Hsrc Hb). reflexivity.
  - rewrite (buffersOf_without_src w lay Hhas). reflexivity.
Qed.

Lemma buffersOf_le w lays : length (buffersOf w lays) <= length lays.
Proof.
  induction lays as [|lay lays IH]; [reflexivity|].
  rewrite buffersOf_cons, length_app. cbn [length].
  assert (length (buffersOf w [lay]) <= 1); [|lia].
  unfold buffersOf. cbn.
  destruct (layerSrc lay) as [[|u rest]|]; cbn; try lia.
  destruct (acquired w _ _); cbn; lia.
Qed.

Lemma buffersOf_none w lays :
  (forall lay, lay ∈ lays -> layerSrc lay = None) -> buffersOf w lays = [].
Proof.
  induction lays as [|lay lays IH]; intros Hnone; [reflexivity|].
  rewrite buffersOf_cons, buffersOf_without_src.
  - apply IH. intros lay' Hin. apply Hnone. right. exact Hin.
  - unfold hasSrc. rewrite (Hnone lay (list_elem_of_here _ _)). reflexivity.
Qed.

Section Layers.

Context (v : Variant) (w : World) (Hff : FaultFree w).
Context (menu : Menu) (c k p r : nat) (pre : Preset).
Context (Hpre : presetAt menu c k p r = Some pre).

Lemma layerAt_layers i : layerAt menu c k p r i = layers pre !! i.
Proof. unfold layerAt. rewrite Hpre. reflexivity. Qed.

Lemma countOf_image i lay :
  layers pre !! i = Some lay -> countOf menu (AtPreview c k p r) (Image i) = 1.
Proof. intros H. cbn. rewrite layerAt_layers, H. reflexivity. Qed.

Lemma attributeOf_image i lay a :
  layers pre !! i = Some lay ->
  attributeOf menu (AtPreview c k p r) (Image i) a
  = match a with AttrSrc => layerSrc lay | AttrStyle => layerStyle lay end.
Proof. intros H. cbn. rewrite layerAt_layers, H. reflexivity. Qed.

(** A layer without [src] costs one request and changes nothing else. *)
Lemma processImage_no_src folder i lay acc st :
  cursor st = AtPreview c k p r ->
  layers pre !! i = Some lay ->
  layerSrc lay = None ->
  processImage v w menu folder i acc st = (Ok acc, answered (cursor st) [] st).
Proof.
  intros Hcur Hlay Hsrc. unfold processImage, bind, getAttribute, request.
  rewrite (Hff (ticks st)), Hcur, (countOf_image i lay Hlay).
  cbn [Nat.ltb Nat.leb]. rewrite (attributeOf_image i lay AttrSrc Hlay), Hsrc.
  reflexivity.
Qed.

Lemma wp_processImage folder i lay acc L st :
  At (AtPreview c k p r) L st ->
  layers pre !! i = Some lay ->
  (forall u rest, layerSrc lay = Some (u :: rest) ->
     is_Some (acquired w (u :: rest) (layerStyle lay))) ->
  wp (processImage v w menu folder i acc)
     (fun acc' st' => acc' = acc ++ buffersOf w [lay] /\ At (AtPreview c k p r) L st') st.
Proof.
  intros Hat Hlay Hacq. unfold processImage.
  assert (0 < countOf menu (AtPreview c k p r) (Image i)) as Hn
    by (rewrite (countOf_image i lay Hlay); lia).
  eapply wp_bind; [apply (wp_getAttribute w Hff menu _ AttrSrc _ L st Hat Hn)|].
  cbn beta. intros src st1 [-> Hat1].
  rewrite (attributeOf_image i lay AttrSrc Hlay).
  destruct (layerSrc lay) as [[|u rest]|] eqn:Hsrc.
  - apply wp_ret. rewrite buffersOf_without_src, app_nil_r; [auto|].
    unfold hasSrc. rewrite Hsrc. reflexivity.
  - destruct (Hacq u rest eq_refl) as [b Hb].
    rewrite (buffersOf_with_src w lay u rest b Hsrc Hb).
    eapply wp_bind; [apply (wp_getAttribute w Hff menu _ AttrStyle _ L st1 Hat1 Hn)|].
    cbn beta. intros style st2 [-> Hat2].
    rewrite (attributeOf_image i lay AttrStyle Hlay).
    eapply wp_bind; [apply (wp_acquireImage v w _ _ folder i b _ L st2 Hat2 Hb)|].
    cbn beta. intros b' st3 [-> Hat3]. apply wp_ret. auto.
  - apply wp_ret. rewrite buffersOf_without_src, app_nil_r; [auto|].
    unfold hasSrc. rewrite Hsrc. reflexivity.
Qed.

Lemma wp_processImages folder L st :
  At (AtPreview c k p r) L st ->
  (forall lay u rest, lay ∈ layers pre -> layerSrc lay = Some (u :: rest) ->
     is_Some (acquired w (u :: rest) (layerStyle lay))) ->
  wp (forUpTo (length (layers pre)) (processImage v w menu folder) [])
     (fun bufs st' => bufs = buffersOf w (layers pre) /\ At (AtPreview c k p r) L st') st.
Proof.
  intros Hat Hacq.
  eapply wp_mono.
  - apply (wp_forUpTo
             (fun j acc st' => acc = buffersOf w (take j (layers pre)) /\
                               At (AtPreview c k p r) L st')).
    + split; [reflexivity | exact Hat].
    + intros j acc st' Hj [-> Hat'].
      destruct (lookup_lt_is_Some_2 (layers pre) j Hj) as [lay Hlay].
      eapply wp_mono.
      * apply (wp_processImage folder j lay _ L st' Hat' Hlay).
        intros u rest. apply Hacq. eapply list_elem_of_lookup_2, Hlay.
      * cbn beta. intros acc' st'' [-> Hat'']. split; [|exact Hat''].
        rewrite (take_S_r _ _ _ Hlay), buffersOf_app. reflexivity.
  - cbn beta. intros bufs st' [-> Hat']. rewrite firstn_all. auto.
Qed.

(** Up to the composite step, [downloadPreset] opens the preview and
    gathers the buffers of the layers that have a [src]. *)
Lemma downloadPreset_gathers folder n sel L st :
  At (AtPicture c k p sel) L st -> sel = Some r ->
  (forall lay u rest, lay ∈ layers pre -> layerSrc lay = Some (u :: rest) ->
     is_Some (acquired w (u :: rest) (layerStyle lay))) ->
  exists st',
    At (AtPreview c k p r) (L ++ [OpenPreview c k p r]) st' /\
    downloadPreset v w menu folder n st
    = createCompositeFromBuffers w folder n (buffersOf w (layers pre)) st'.
Proof.
  intros Hat -> Hacq. unfold downloadPreset.
  assert (0 < countOf menu (AtPicture c k p (Some r)) NextButton) as Hnext
    by (cbn; rewrite Hpre; cbn; lia).
  destruct (wp_waitFor w Hff menu _ _ L st Hat Hnext) as ([] & st1 & Hrun & Hat1).
  rewrite (bind_run _ _ _ _ _ Hrun). clear Hrun.
  destruct (wp_click w Hff menu _ _ L st1 Hat1 Hnext) as ([] & st2 & Hrun & Hat2).
  rewrite (bind_run _ _ _ _ _ Hrun). clear Hrun.
  cbn [clickEffect fst snd] in Hat2.
  unfold waitForTimeout at 1. rewrite (bind_run (ret tt) _ st2 tt st2 eq_refl).
  assert (0 < countOf menu (AtPreview c k p r) ImageContainer) as Hcont
    by (cbn; rewrite Hpre; cbn; lia).
  destruct (wp_waitFor w Hff menu _ _ _ st2 Hat2 Hcont) as ([] & st3 & Hrun & Hat3).
  rewrite (bind_run _ _ _ _ _ Hrun). clear Hrun.
  destruct (wp_count w Hff menu Images _ _ st3 Hat3)
    as (imageCount & st4 & Hrun & -> & Hat4).
  rewrite (bind_run _ _ _ _ _ Hrun). clear Hrun.
  assert (countOf menu (AtPreview c k p r) Images = length (layers pre)) as ->
    by (cbn; rewrite Hpre; reflexivity).
  destruct (wp_processImages folder _ st4 Hat4 Hacq) as (bufs & st5 & Hrun & -> & Hat5).
  rewrite (bind_run _ _ _ _ _ Hrun). clear Hrun.
  exists st5. split; [exact Hat5 | reflexivity].
Qed.

End Layers.

(** C10: in [downloadPreset], a layer whose [src] is absent costs one
    request and nothing more: no acquisition, no error, no buffer.  When
    the layers that have a [src] are acquired without failure, the sequence
    handed to the composite step holds one buffer for each of them, in
    their order: no more than there are layers, and none when no layer has
    a [src]. *)
Theorem downloadPreset_skips_layers_without_src v w (menu : Menu) c k p r pre
    (folder : Path) n st :
  FaultFree w ->
  cursor st = AtPicture c k p (Some r) ->
  presetAt menu c k p r = Some pre ->
  (forall lay u rest, lay ∈ layers pre -> layerSrc lay = Some (u :: rest) ->
     is_Some (acquired w (u :: rest) (layerStyle lay))) ->
  (exists st',
     cursor st' = AtPreview c k p r /\
     downloadPreset v w menu folder n st
     = createCompositeFromBuffers w folder n (buffersOf w (layers pre)) st') /\
  (forall i lay acc st1,
     cursor st1 = AtPreview c k p r -> layers pre !! i = Some lay ->
     layerSrc lay = None ->
     processImage v w menu folder i acc st1 = (Ok acc, answered (cursor st1) [] st1)) /\
  length (buffersOf w (layers pre)) = length (List.filter hasSrc (layers pre)) /\
  length (buffersOf w (layers pre)) <= length (layers pre) /\
  ((forall lay, lay ∈ layers pre -> layerSrc lay = None) ->
   buffersOf w (layers pre) = []).
Proof.
  intros Hff Hcur Hpre Hacq. repeat split.
  - destruct (downloadPreset_gathers v w Hff menu c k p r pre Hpre folder n
                (Some r) (actionsOf (log st)) st (conj Hcur eq_refl) eq_refl Hacq)
      as (st' & [Hcur' _] & Heq).
    exists st'. auto.
  - intros i lay acc st1. apply (processImage_no_src v w Hff menu c k p r pre Hpre).
  - apply buffersOf_length, Hacq.
  - apply buffersOf_le.
  - apply buffersOf_none.
Qed.

Lemma sampleWorld_faultFree : FaultFree sampleWorld.
Proof. intros n. reflexivity. Qed.

Lemma sampleWorld_acquires src style : is_Some (acquired sampleWorld src style).
Proof. unfold acquired. destruct (filterInfo style) as [[|f ilter]|]; cbn; eauto. Qed.

Lemma downloadPreset_skips_layers_without_src_witness :
  (exists st',
     cursor st' = AtPreview 0 0 0 1 /\
     downloadPreset TypeScript sampleWorld sampleMenu sampleFolder 2 sampleSelected
     = createCompositeFromBuffers sampleWorld sampleFolder 2
         (buffersOf sampleWorld (layers samplePreset)) st') /\
  length (buffersOf sampleWorld (layers samplePreset)) = 2.
Proof.
  destruct (downloadPreset_skips_layers_without_src TypeScript sampleWorld sampleMenu
              0 0 0 1 samplePreset sampleFolder 2 sampleSelected
              sampleWorld_faultFree eq_refl eq_refl
              (fun lay u rest _ _ => sampleWorld_acquires (u :: rest) (layerStyle lay)))
    as (H1 & _ & H2 & _).
  split; [exact H1 | exact H2].
Defined.

(** ** The traversal in a world without failures *)

Lemma reliable_acquires w src style : Reliable w -> is_Some (acquired w src style).
Proof.
  intros (Hfetch & Hrender & _). unfold acquired.
  destruct (filterInfo style) as [[|f ilter]|].
  - destruct (Hfetch (maxResolution src)) as [body ->]. eauto.
  - destruct (Hrender (maxResolution src) (f :: ilter)) as [png ->]. eauto.
  - destruct (Hfetch (maxResolution src)) as [body ->]. eauto.
Qed.

Lemma wp_createCompositeFromBuffers w folder n bufs cur L st :
  Reliable w -> At cur L st ->
  wp (createCompositeFromBuffers w folder n bufs) (fun _ st' => At cur L st') st.
Proof.
  intros (_ & _ & Hsharp) Hat. unfold createCompositeFromBuffers.
  set (finalPath := pathJoin folder _).
  assert (forall job, wp (toFile w job finalPath) (fun _ st' => At cur L st') st) as HtoFile.
  { intros job. unfold toFile. destruct (Hsharp job) as [bytes ->].
    eexists tt, _. split; [reflexivity | apply At_setFiles, Hat]. }
  destruct bufs as [|b [|b' bufs]]; try apply HtoFile.
  eexists tt, _. split; [reflexivity|]. apply At_console, At_setFiles, Hat.
Qed.

Lemma concat_imap_take_S {A B} (F : nat -> A -> list B) (l : list A) j x :
  l !! j = Some x ->
  concat (imap F (take (S j) l)) = concat (imap F (take j l)) ++ F j x.
Proof.
  intros Hx. rewrite (take_S_r _ _ _ Hx), imap_app, concat_app.
  cbn. rewrite app_nil_r, length_take.
  apply lookup_lt_Some in Hx. rewrite Nat.min_l by lia.
  rewrite Nat.add_0_r. reflexivity.
Qed.

Ltac shown :=
  first [ eassumption
        | solve [ cbn;
                  repeat match goal with
                    | H : _ = Some _ |- _ => rewrite H
                    end;
                  cbn; lia ] ].

Ltac wp_next lem :=
  eapply wp_bind; [eapply lem; shown | cbn beta].

Lemma wp_after_timeout {B} ms (k : M B) (Q : B -> State -> Prop) st :
  wp k Q st -> wp (waitForTimeout ms ;; k) Q st.
Proof. intros H. exact H. Qed.

Ltac wp_skip_timeout := apply wp_after_timeout.

Section Traversal.

Context (v : Variant) (w : World) (Hff : FaultFree w) (Hrel : Reliable w).
Context (menu : Menu).

Lemma wp_downloadPreset c k p r pre folder n L st :
  presetAt menu c k p r = Some pre ->
  At (AtPicture c k p (Some r)) L st ->
  wp (downloadPreset v w menu folder n)
     (fun _ st' => At (AtPreview c k p r) (L ++ [OpenPreview c k p r]) st') st.
Proof.
  intros Hpre Hat.
  destruct (downloadPreset_gathers v w Hff menu c k p r pre Hpre folder n
              (Some r) L st Hat eq_refl) as (st' & Hat' & Heq).
  { intros lay u rest _ _. apply reliable_acquires, Hrel. }
  destruct (wp_createCompositeFromBuffers w folder n (buffersOf w (layers pre))
              _ _ st' Hrel Hat') as (a & st'' & Hrun & Hat'').
  exists a, st''. split; [congruence | exact Hat''].
Qed.

Lemma wp_processPreset c k p r pre name folder n sel L st :
  presetAt menu c k p r = Some pre ->
  At (AtPicture c k p sel) L st ->
  wp (processPreset v w menu name folder n r)
     (fun _ st' => At (AtPicture c k p (Some r)) (L ++ presetActions c k p r) st') st.
Proof.
  intros Hpre Hat. unfold processPreset.
  wp_next wp_consoleLog. intros _ st1 Hat1.
  assert (forall sel', 0 < countOf menu (AtPicture c k p sel') (PresetRadio r)) as Hradio
    by (intros sel'; cbn; rewrite Hpre; cbn; lia).
  assert (forall sel', 0 < countOf menu (AtPicture c k p sel') (PresetLabel r)) as Hlabel
    by (intros sel'; cbn; rewrite Hpre; cbn; lia).
  wp_next wp_waitFor. intros _ st2 Hat2.
  wp_next wp_click. cbn [clickEffect fst snd]. intros _ st3 Hat3.
  wp_next wp_click. cbn [clickEffect fst snd]. intros _ st4 Hat4.
  wp_next wp_downloadPreset. intros _ st5 Hat5.
  wp_next wp_consoleLog. intros _ st6 Hat6.
  unfold goBackToPresetSelection.
  assert (0 < countOf menu (AtPreview c k p r) CancelButton) as Hcancel by (cbn; lia).
  wp_next wp_waitFor. intros _ st7 Hat7.
  wp_next wp_click. cbn [clickEffect fst snd]. intros _ st8 Hat8.
  apply wp_ret. unfold presetActions.
  rewrite <- !app_assoc in Hat8. exact Hat8.
Qed.

Lemma wp_waitAndClick l cur L st :
  At cur L st -> 0 < countOf menu cur l ->
  wp (waitAndClick w menu l)
     (fun _ st' => At (clickEffect cur l).1 (L ++ (clickEffect cur l).2) st') st.
Proof.
  intros Hat Hn. unfold waitAndClick.
  wp_next wp_waitFor. intros _ st1 Hat1.
  eapply wp_click; eassumption.
Qed.

Lemma wp_processPicture c k p pic collectionName className n L st :
  pictureAt menu c k p = Some pic ->
  At (AtClass c k) L st ->
  wp (processPicture v w menu collectionName className n p)
     (fun _ st' => At (AtClass c k) (L ++ pictureActions c k p pic) st') st.
Proof.
  intros Hpic Hat. unfold processPicture.
  assert (0 < countOf menu (AtClass c k) (PictureButton p)) as Hbutton
    by (cbn; rewrite Hpic; cbn; lia).
  wp_next wp_waitAndClick. cbn [clickEffect fst snd]. intros _ st1 Hat1.
  wp_skip_timeout.
  assert (forall sel l, l = PictureTitle \/ l = PresetsHeading ->
            0 < countOf menu (AtPicture c k p sel) l) as Hshown
    by (intros sel l [-> | ->]; cbn; rewrite Hpic; cbn; lia).
  wp_next wp_extractTextWithFallback.
  intros pictureName st2 [_ Hat2].
  wp_next wp_consoleLog. intros _ st3 Hat3.
  wp_next wp_waitFor. intros _ st4 Hat4.
  wp_next wp_count. intros presetCount st5 [-> Hat5].
  assert (countOf menu (AtPicture c k p None) PresetRadios = length (presets pic)) as ->
    by (cbn; rewrite Hpic; reflexivity).
  wp_next wp_createFolderStructure. intros folder st6 [_ Hat6].
  eapply wp_bind.
  - apply (wp_forUpTo
             (fun j (_ : unit) st' =>
                exists sel,
                  At (AtPicture c k p sel)
                     ((L ++ [OpenPicture c k p]) ++
                      concat (imap (fun r _ => presetActions c k p r)
                                (take j (presets pic)))) st')).
    + exists None. cbn. rewrite app_nil_r. exact Hat6.
    + intros j [] st' Hj [sel Hat'].
      destruct (lookup_lt_is_Some_2 (presets pic) j Hj) as [pre Hpre].
      eapply wp_mono.
      * eapply (wp_processPreset c k p j pre); [|exact Hat'].
        unfold presetAt. rewrite Hpic. exact Hpre.
      * cbn beta. intros [] st'' Hat''. exists (Some j).
        rewrite (concat_imap_take_S _ _ _ _ Hpre), app_assoc. exact Hat''.
  - cbn beta. intros [] st7 [sel Hat7]. rewrite firstn_all in Hat7.
    wp_next wp_consoleLog. intros _ st8 Hat8.
    unfold goBackToPictureSelection.
    wp_next wp_click. cbn [clickEffect fst snd]. intros _ st9 Hat9.
    apply wp_ret. unfold pictureActions.
    rewrite <- !app_assoc in Hat9. exact Hat9.
Qed.

Lemma wp_processPictureClass c k cls collectionName n L st :
  classAt menu c k = Some cls ->
  At AtCollections L st ->
  wp (processPictureClass v w menu c collectionName n k)
     (fun _ st' => At AtCollections (L ++ classActions c k cls) st') st.
Proof.
  intros Hcls Hat. unfold processPictureClass.
  wp_next wp_extractTextWithFallback.
  intros className st1 [_ Hat1].
  wp_next wp_consoleLog. intros _ st2 Hat2.
  wp_next wp_waitAndClick.
  cbn [clickEffect fst snd]. intros _ st3 Hat3.
  wp_skip_timeout.
  wp_next wp_count. intros pictureCount st4 [-> Hat4].
  assert (countOf menu (AtClass c k) Pictures = length (pictures cls)) as ->
    by (cbn; rewrite Hcls; reflexivity).
  eapply wp_bind.
  - apply (wp_forUpTo
             (fun j (_ : unit) st' =>
                At (AtClass c k)
                   ((L ++ [OpenClass c k]) ++
                    concat (imap (pictureActions c k) (take j (pictures cls)))) st')).
    + cbn. rewrite app_nil_r. exact Hat4.
    + intros j [] st' Hj Hat'.
      destruct (lookup_lt_is_Some_2 (pictures cls) j Hj) as [pic Hpic].
      eapply wp_mono.
      * eapply (wp_processPicture c k j pic); [|exact Hat'].
        unfold pictureAt. rewrite Hcls. exact Hpic.
      * cbn beta. intros [] st'' Hat''.
        rewrite (concat_imap_take_S _ _ _ _ Hpic), app_assoc. exact Hat''.
  - cbn beta. intros [] st5 Hat5. rewrite firstn_all in Hat5.
    wp_next wp_consoleLog. intros _ st6 Hat6.
    unfold goBackToPictureClassSelection.
    wp_next wp_click. cbn [clickEffect fst snd]. intros _ st7 Hat7.
    apply wp_ret. unfold classActions.
    rewrite <- !app_assoc in Hat7. exact Hat7.
Qed.

Lemma wp_processCollection c col n L st :
  menu !! c = Some col ->
  At AtCollections L st ->
  wp (processCollection v w menu n c)
     (fun _ st' => At AtCollections (L ++ collectionActions c col) st') st.
Proof.
  intros Hcol Hat. unfold processCollection.
  wp_next wp_extractTextWithFallback.
  intros collectionName st1 [_ Hat1].
  wp_next wp_consoleLog. intros _ st2 Hat2.
  wp_next wp_count. intros classCount st3 [-> Hat3].
  assert (countOf menu AtCollections (PictureClasses c) = length (pictureClasses col)) as ->
    by (cbn; rewrite Hcol; reflexivity).
  eapply wp_bind.
  - apply (wp_forUpTo
             (fun j (_ : unit) st' =>
                At AtCollections
                   (L ++ concat (imap (classActions c) (take j (pictureClasses col)))) st')).
    + cbn. rewrite app_nil_r. exact Hat3.
    + intros j [] st' Hj Hat'.
      destruct (lookup_lt_is_Some_2 (pictureClasses col) j Hj) as [cls Hcls].
      eapply wp_mono.
      * eapply (wp_processPictureClass c j cls); [|exact Hat'].
        unfold classAt. rewrite Hcol. exact Hcls.
      * cbn beta. intros [] st'' Hat''.
        rewrite (concat_imap_take_S _ _ _ _ Hcls), app_assoc. exact Hat''.
  - cbn beta. intros [] st4 Hat4. rewrite firstn_all in Hat4.
    eapply wp_consoleLog. exact Hat4.
Qed.

Lemma wp_traverse L st :
  At AtCollections L st ->
  wp (traverse v w menu) (fun _ st' => At AtCollections (L ++ menuActions menu) st') st.
Proof.
  intros Hat. unfold traverse.
  wp_next wp_count. intros collectionCount st1 [-> Hat1].
  change (countOf menu AtCollections Collections) with (length menu).
  eapply wp_bind.
  - apply (wp_forUpTo
             (fun j (_ : unit) st' =>
                At AtCollections
                   (L ++ concat (imap collectionActions (take j menu))) st')).
    + cbn. rewrite app_nil_r. exact Hat1.
    + intros j [] st' Hj Hat'.
      destruct (lookup_lt_is_Some_2 menu j Hj) as [col Hcol].
      eapply wp_mono.
      * eapply (wp_processCollection j col); [exact Hcol | exact Hat'].
      * cbn beta. intros [] st'' Hat''.
        rewrite (concat_imap_take_S _ _ _ _ Hcol), app_assoc. exact Hat''.
  - cbn beta. intros [] st2 Hat2. rewrite firstn_all in Hat2.
    eapply wp_consoleLog. exact Hat2.
Qed.

End Traversal.

(** ** The walk of the specification: its leaves and its back actions *)

Lemma times_app f l1 l2 : times f (l1 ++ l2) = times f l1 + times f l2.
Proof. unfold times. rewrite List.filter_app, length_app. reflexivity. Qed.

Lemma visitsOf_app l1 l2 : visitsOf (l1 ++ l2) = visitsOf l1 ++ visitsOf l2.
Proof. apply omap_app. Qed.

Lemma times_concat_imap f {A} (h : A -> nat) (l : list A) :
  forall F : nat -> A -> list Action,
  (forall i x, times f (F i x) = h x) ->
  times f (concat (imap F l)) = sum_list (List.map h l).
Proof.
  induction l as [|x l IH]; intros F HF; [reflexivity|].
  rewrite imap_cons. cbn [concat List.map sum_list].
  rewrite times_app, HF. f_equal.
  apply IH. intros i y. apply HF.
Qed.

Lemma visitsOf_concat_imap {A} (l : list A) :
  forall (F : nat -> A -> list Action) (G : nat -> A -> list (nat * nat * nat * nat)),
  (forall i x, visitsOf (F i x) = G i x) ->
  visitsOf (concat (imap F l)) = concat (imap G l).
Proof.
  induction l as [|x l IH]; intros F G HFG; [reflexivity|].
  rewrite !imap_cons. cbn [concat]. rewrite visitsOf_app, HFG. f_equal.
  apply IH. intros i y. apply HFG.
Qed.

Lemma concat_imap_singleton {A B} (l : list A) :
  forall g : nat -> A -> B, concat (imap (fun i x => [g i x]) l) = imap g l.
Proof.
  induction l as [|x l IH]; intros g; [reflexivity|].
  rewrite !imap_cons. cbn [concat]. cbn. f_equal. apply (IH (g ∘ S)).
Qed.

Lemma sum_list_ones {A} (l : list A) : sum_list (List.map (fun _ => 1) l) = length l.
Proof. induction l as [|x l IH]; [reflexivity|]. cbn. rewrite IH. reflexivity. Qed.

Lemma sum_list_zeros {A} (l : list A) : sum_list (List.map (fun _ => 0) l) = 0.
Proof. induction l as [|x l IH]; [reflexivity|]. cbn. exact IH. Qed.

Lemma sum_list_plus {A} (f g : A -> nat) (l : list A) :
  sum_list (List.map (fun x => f x + g x) l)
  = sum_list (List.map f l) + sum_list (List.map g l).
Proof. induction l as [|x l IH]; [reflexivity|]. cbn. rewrite IH. lia. Qed.

Lemma sum_list_ext {A} (f g : A -> nat) (l : list A) :
  (forall x, f x = g x) -> sum_list (List.map f l) = sum_list (List.map g l).
Proof. intros H. induction l as [|x l IH]; [reflexivity|]. cbn. rewrite H, IH. reflexivity. Qed.

Lemma visitsOf_picture c k p pic :
  visitsOf (pictureActions c k p pic) = imap (fun r _ => (c, k, p, r)) (presets pic).
Proof.
  unfold pictureActions.
  change (OpenPicture c k p :: ?x) with ([OpenPicture c k p] ++ x).
  rewrite !visitsOf_app. cbn [visitsOf omap list_omap]. cbn. rewrite app_nil_r.
  rewrite (visitsOf_concat_imap (presets pic) _ (fun r _ => [(c, k, p, r)]));
    [apply concat_imap_singleton | reflexivity].
Qed.

Lemma visitsOf_class c k cls :
  visitsOf (classActions c k cls)
  = concat (imap (fun p pic => imap (fun r _ => (c, k, p, r)) (presets pic))
              (pictures cls)).
Proof.
  unfold classActions.
  change (OpenClass c k :: ?x) with ([OpenClass c k] ++ x).
  rewrite !visitsOf_app. cbn. rewrite app_nil_r.
  apply visitsOf_concat_imap. intros p pic. apply visitsOf_picture.
Qed.

Lemma visitsOf_menu menu : visitsOf (menuActions menu) = leaves menu.
Proof.
  unfold menuActions, leaves. apply visitsOf_concat_imap. intros c col.
  unfold collectionActions. apply visitsOf_concat_imap. intros k cls.
  apply visitsOf_class.
Qed.

Lemma sum_list_const {A} (l : list A) n :
  sum_list (List.map (fun _ => n) l) = length l * n.
Proof. induction l as [|x l IH]; cbn; [reflexivity | rewrite IH; reflexivity]. Qed.

Lemma times_picture f c k p pic a :
  (forall r, times f (presetActions c k p r) = a) ->
  times f (pictureActions c k p pic)
  = times f [OpenPicture c k p] + length (presets pic) * a + times f [Back 2].
Proof.
  intros Ha. unfold pictureActions.
  change (OpenPicture c k p :: ?x) with ([OpenPicture c k p] ++ x).
  rewrite !times_app.
  rewrite (times_concat_imap f (fun _ => a)); [|intros r _; apply Ha].
  rewrite sum_list_const. change (times f []) with 0. lia.
Qed.

Lemma times_class f c k cls (h : Picture -> nat) :
  (forall p pic, times f (pictureActions c k p pic) = h pic) ->
  times f (classActions c k cls)
  = times f [OpenClass c k] + sum_list (List.map h (pictures cls)) + times f [Back 1].
Proof.
  intros Hh. unfold classActions.
  change (OpenClass c k :: ?x) with ([OpenClass c k] ++ x).
  rewrite !times_app, (times_concat_imap f h); [change (times f []) with 0; lia | exact Hh].
Qed.

Lemma times_menu f menu (h : PictureClass -> nat) :
  (forall c k cls, times f (classActions c k cls) = h cls) ->
  times f (menuActions menu)
  = sum_list (List.map (fun col => sum_list (List.map h (pictureClasses col))) menu).
Proof.
  intros Hh. unfold menuActions. apply times_concat_imap. intros c col.
  unfold collectionActions. apply times_concat_imap. intros k cls. apply Hh.
Qed.

Lemma times_cancel menu : times isCancel (menuActions menu) = presetsIn menu.
Proof.
  unfold presetsIn. apply times_menu. intros c k cls.
  rewrite (times_class isCancel c k cls (fun pic => length (presets pic))).
  - cbn. lia.
  - intros p pic. rewrite (times_picture isCancel c k p pic 1); [cbn; lia | reflexivity].
Qed.

Lemma times_back2 menu : times (isBack 2) (menuActions menu) = picturesIn menu.
Proof.
  unfold picturesIn.
  rewrite (times_menu (isBack 2) menu (fun cls => length (pictures cls))); [reflexivity|].
  intros c k cls. rewrite (times_class (isBack 2) c k cls (fun _ => 1)).
  - rewrite sum_list_ones. cbn. lia.
  - intros p pic. rewrite (times_picture (isBack 2) c k p pic 0); [cbn; lia | reflexivity].
Qed.

Lemma times_back1 menu : times (isBack 1) (menuActions menu) = classesIn menu.
Proof.
  unfold classesIn.
  rewrite (times_menu (isBack 1) menu (fun _ => 1)).
  - apply sum_list_ext. intros col. apply sum_list_ones.
  - intros c k cls. rewrite (times_class (isBack 1) c k cls (fun _ => 0)).
    + rewrite sum_list_zeros. reflexivity.
    + intros p pic. rewrite (times_picture (isBack 1) c k p pic 0); [cbn; lia | reflexivity].
Qed.

Lemma times_anyBack menu :
  times isAnyBack (menuActions menu) = picturesIn menu + classesIn menu.
Proof.
  unfold picturesIn, classesIn.
  rewrite (times_menu isAnyBack menu (fun cls => length (pictures cls) + 1)).
  - rewrite <- sum_list_plus. apply sum_list_ext. intros col.
    rewrite sum_list_plus, sum_list_ones. reflexivity.
  - intros c k cls. rewrite (times_class isAnyBack c k cls (fun _ => 1)).
    + rewrite sum_list_ones. cbn. lia.
    + intros p pic. rewrite (times_picture isAnyBack c k p pic 0); [cbn; lia | reflexivity].
Qed.

(** ** The file of a preset *)








(** ** The composite *)




Lemma sampleWorld_reliable : Reliable sampleWorld.
Proof. repeat split; intros; cbn; eauto. Qed.

(** C1: in a world without failures, the traversal of any menu, started
    with the menu open, ends with the menu open and has made the menu carry
    out exactly the depth-first walk: for each collection in turn, for each
    of its classes in turn, the class is opened, then for each of its
    pictures in turn the picture is opened, then each of its presets in turn
    is selected, previewed and cancelled, then back ordinal 2 is clicked,
    and after the last picture back ordinal 1 is clicked.  The previews
    are those of the leaves in depth-first order; cancel is clicked once
    for each preset, back ordinal 2 once for each picture, back ordinal 1
    once for each class, and no other back button is ever clicked. *)
Theorem traverse_depth_first v w (menu : Menu) st :
  FaultFree w -> Reliable w -> cursor st = AtCollections ->
  (exists st',
     traverse v w menu st = (Ok tt, st') /\
     cursor st' = AtCollections /\
     actionsOf (log st') = actionsOf (log st) ++ menuActions menu) /\
  visitsOf (menuActions menu) = leaves menu /\
  times isCancel (menuActions menu) = presetsIn menu /\
  times (isBack 2) (menuActions menu) = picturesIn menu /\
  times (isBack 1) (menuActions menu) = classesIn menu /\
  times isAnyBack (menuActions menu) = picturesIn menu + classesIn menu.
Proof.
  intros Hff Hrel Hcur. split; [|split; [|split; [|split; [|split]]]].
  - destruct (wp_traverse v w Hff Hrel menu (actionsOf (log st)) st (conj Hcur eq_refl))
      as ([] & st' & Hrun & Hcur' & Hacts).
    exists st'. auto.
  - apply visitsOf_menu.
  - apply times_cancel.
  - apply times_back2.
  - apply times_back1.
  - apply times_anyBack.
Qed.

Lemma traverse_depth_first_witness :
  (exists st',
     traverse TypeScript sampleWorld sampleMenu sampleAtMenu = (Ok tt, st') /\
     cursor st' = AtCollections /\
     actionsOf (log st') = actionsOf (log sampleAtMenu) ++ menuActions sampleMenu) /\
  visitsOf (menuActions sampleMenu)
  = [(0, 0, 0, 0); (0, 0, 0, 1); (1, 0, 0, 0); (1, 0, 0, 1)].
Proof.
  destruct (traverse_depth_first TypeScript sampleWorld sampleMenu sampleAtMenu
              sampleWorld_faultFree sampleWorld_reliable eq_refl) as (H1 & H2 & _).
  split; [exact H1 | exact H2].
Defined.

(** ** The exits of the main function *)

Lemma extraction_code v w st code st' :
  extraction v w st = (Ok code, st') -> code = 0%Z.
Proof.
  unfold extraction, bind, consoleLog, ret.
  destruct (openMenu v w st) as [[menu|e|] st1]; try discriminate.
  destruct (traverse v w menu st1) as [[[]|e|] st2]; try discriminate.
  destruct (closeContext w _) as [[[]|e|] st3]; try discriminate.
  intros H. injection H as <- _. reflexivity.
Qed.

Lemma main_unauthenticated v w st :
  authenticated st = false ->
  main v w st
  = (Ok 1%Z, addLog [Console MsgNoAuth]
               (addLog [Console MsgRule] (addLog [Console MsgBanner] st))).
Proof.
  intros Hauth. unfold main, bind, consoleLog, existsSync, ret. cbn.
  fold (authenticated st). rewrite Hauth. reflexivity.
Qed.

Lemma run_by_outcome {A} (m : M A) st o : (m st).1 = o -> m st = (o, (m st).2).
Proof. intros <-. destruct (m st); reflexivity. Qed.

(** [await context.close()], by the answer of the browser. *)
Lemma closeContext_run w st :
  closeContext w st
  = match fault w (ticks st) with
    | Some e => (Err e, attempted st)
    | None => (Ok tt, answered (cursor st) [] st)
    end.
Proof. unfold closeContext, ask, request. destruct (fault w (ticks st)); reflexivity. Qed.

(** A run with a session: the launch, the page brought to the front, the
    [try] block and, for what it throws, the [catch] block. *)
Lemma main_authenticated v w st :
  authenticated st = true ->
  main v w st
  = match fault w (ticks st) with
    | Some e => (Err e, attempted (launched st))
    | None =>
        match fault w (S (ticks st)) with
        | Some e => (Err e, attempted (profiled w st))
        | None =>
            match extraction v w (entered w st) with
            | (Ok code, st') => (Ok code, st')
            | (Err message, st') => caught w message st'
            | (Hang, st') => (Hang, st')
            end
        end
    end.
Proof.
  intros Hauth. unfold main, tryCatch. generalize (extraction v w). intros run.
  unfold authenticated in Hauth.
  unfold launchPersistentContext, bringToFront, closeContext, ask, request,
    caught, reported, entered, profiled, launched.
  unfold bind, consoleLog, existsSync, ret, writeProfile, answered, attempted,
    addLog, setDirs, setFiles.
  cbv beta; cbn [fst snd cursor files dirs log ticks List.map]; cbv beta iota.
  rewrite Hauth. cbv beta; cbn [fst snd cursor files dirs log ticks negb]; cbv beta iota.
  destruct (fault w (ticks st)) as [e|]; [reflexivity|].
  cbv beta; cbn [fst snd cursor files dirs log ticks List.map]; cbv beta iota.
  destruct (fault w (S (ticks st))) as [e|]; [reflexivity|].
  cbv beta; cbn [fst snd cursor files dirs log ticks List.map]; cbv beta iota.
  match goal with |- context [run ?s] => destruct (run s) as [[code|message|] st'] end;
    try reflexivity.
  cbv beta; cbn [fst snd cursor files dirs log ticks List.map]; cbv beta iota.
  destruct (fault w (ticks st')); reflexivity.
Qed.

(** The [try] block, by its three parts: the way to the menu, the
    traversal and the closing of the browser. *)
Lemma extraction_run v w st :
  extraction v w st
  = match openMenu v w st with
    | (Ok menu, st1) =>
        match traverse v w menu st1 with
        | (Ok _, st2) =>
            match fault w (ticks st2) with
            | None =>
                (Ok 0%Z, answered (cursor st2) [] (addLog [Console MsgClosing] st2))
            | Some e => (Err e, attempted (addLog [Console MsgClosing] st2))
            end
        | (Err e, st2) => (Err e, st2)
        | (Hang, st2) => (Hang, st2)
        end
    | (Err e, st1) => (Err e, st1)
    | (Hang, st1) => (Hang, st1)
    end.
Proof.
  unfold extraction, bind.
  destruct (openMenu v w st) as [[menu|e|] st1]; try reflexivity.
  destruct (traverse v w menu st1) as [[[]|e|] st2]; try reflexivity.
  unfold consoleLog, closeContext, ask, request, ret.
  cbv beta. cbn [fst snd cursor files dirs log ticks addLog].
  destruct (fault w (ticks st2)); reflexivity.
Qed.

Lemma exitStatus_caught w message st : exitStatus (caught w message st).1 = Some 1%Z.
Proof. unfold caught. destruct (fault w (ticks st)); reflexivity. Qed.

(** C7 (as stated, refuted), twice.  The exit code of a run without a
    session is not distinct from the exit code of a run that ends with an
    error: both are 1.  And a run whose traversal completes, every preset
    visited, does not exit with 0 when the browser then rejects
    [context.close()]: the [catch] block takes that error and exits
    with 1. *)
Lemma main_missing_session_code_not_distinct :
  authenticated sampleFresh = false /\
  authenticated sampleStart = true /\
  (extraction TypeScript brokenWorld (entered brokenWorld sampleStart)).1
  = Err TYPE_ERROR /\
  ~ ((main TypeScript sampleWorld sampleFresh).1
     <> (main TypeScript brokenWorld sampleStart).1) /\
  (exists menu st1 st2,
     openMenu TypeScript closeFailsWorld (entered closeFailsWorld sampleStart)
     = (Ok menu, st1) /\
     traverse TypeScript closeFailsWorld menu st1 = (Ok tt, st2) /\
     visitsOf (actionsOf (log st2)) = leaves sampleMenu) /\
  (main TypeScript closeFailsWorld sampleStart).1 = Ok 1%Z /\
  ~ ((main TypeScript closeFailsWorld sampleStart).1 = Ok 0%Z).
Proof.
  split; [vm_compute; reflexivity|]. split; [vm_compute; reflexivity|].
  split; [vm_compute; reflexivity|].
  split; [intros Hdistinct; apply Hdistinct; vm_compute; reflexivity|].
  split.
  - exists sampleMenu,
      (openMenu TypeScript closeFailsWorld (entered closeFailsWorld sampleStart)).2,
      (traverse TypeScript closeFailsWorld sampleMenu
         (openMenu TypeScript closeFailsWorld (entered closeFailsWorld sampleStart)).2).2.
    split; [apply run_by_outcome; vm_compute; reflexivity|].
    split; [apply run_by_outcome|]; vm_compute; reflexivity.
  - assert ((main TypeScript closeFailsWorld sampleStart).1 = Ok 1%Z) as Hexit
      by (vm_compute; reflexivity).
    split; [exact Hexit|]. rewrite Hexit. discriminate.
Qed.

(** C7 (amended): without the persisted session the run command exits
    with code 1, the code it also uses for an error, having asked nothing
    of the browser and written nothing but three lines of output.  With a
    session it launches the browser; it exits with 0 when the [try] block
    completes, that is when the menu is reached, the traversal completes and
    the browser closes; for what the [try] block throws, the failure to
    close included, the [catch] block reports, closes the browser and exits
    with 1.  What is thrown outside the [try] block (by the launch, by
    [bringToFront], by the closing in the [catch] block) is caught by
    nothing: no [process.exit] is reached and the rejection ends the
    process, with status 1.  So a run that ends has status 0 or 1, and 0
    only when nothing failed. *)
Theorem main_exit_codes v w st :
  (authenticated st = false ->
     main v w st
     = (Ok 1%Z, addLog [Console MsgNoAuth]
                  (addLog [Console MsgRule] (addLog [Console MsgBanner] st))) /\
     actionsOf (log (main v w st).2) = actionsOf (log st) /\
     ticks (main v w st).2 = ticks st /\
     files (main v w st).2 = files st) /\
  (authenticated st = true ->
     (forall e, fault w (ticks st) = Some e ->
        main v w st = (Err e, attempted (launched st))) /\
     (fault w (ticks st) = None ->
        (forall e, fault w (S (ticks st)) = Some e ->
           main v w st = (Err e, attempted (profiled w st))) /\
        (fault w (S (ticks st)) = None ->
           (forall code st', extraction v w (entered w st) = (Ok code, st') ->
              main v w st = (Ok 0%Z, st')) /\
           (forall message st', extraction v w (entered w st) = (Err message, st') ->
              main v w st = caught w message st' /\
              (fault w (ticks st') = None -> (main v w st).1 = Ok 1%Z) /\
              (forall e, fault w (ticks st') = Some e -> (main v w st).1 = Err e)) /\
           (forall st', extraction v w (entered w st) = (Hang, st') ->
              main v w st = (Hang, st'))))) /\
  (forall st0 menu st1 st2,
     openMenu v w st0 = (Ok menu, st1) ->
     traverse v w menu st1 = (Ok tt, st2) ->
     extraction v w st0
     = match fault w (ticks st2) with
       | None => (Ok 0%Z, answered (cursor st2) [] (addLog [Console MsgClosing] st2))
       | Some e => (Err e, attempted (addLog [Console MsgClosing] st2))
       end) /\
  (forall code, exitStatus (main v w st).1 = Some code -> code = 0%Z \/ code = 1%Z) /\
  (exitStatus (main v w st).1 = Some 0%Z <->
     authenticated st = true /\ fault w (ticks st) = None /\
     fault w (S (ticks st)) = None /\
     exists st', extraction v w (entered w st) = (Ok 0%Z, st')) /\
  (exitStatus (main v w st).1 = None <->
     authenticated st = true /\ fault w (ticks st) = None /\
     fault w (S (ticks st)) = None /\
     (extraction v w (entered w st)).1 = Hang).
Proof.
  split; [|split; [|split]].
  - intros Hauth. rewrite (main_unauthenticated v w st Hauth). cbn.
    repeat split. rewrite !actionsOf_app. cbn. rewrite !app_nil_r. reflexivity.
  - intros Hauth. rewrite (main_authenticated v w st Hauth). split.
    + intros e ->. reflexivity.
    + intros ->. split; [intros e ->; reflexivity|]. intros ->.
      split; [|split].
      * intros code st' Hrun. rewrite Hrun.
        rewrite (extraction_code v w _ code st' Hrun). reflexivity.
      * intros message st' Hrun. rewrite Hrun. split; [reflexivity|].
        unfold caught. split; [intros ->; reflexivity | intros e ->; reflexivity].
      * intros st' Hrun. rewrite Hrun. reflexivity.
  - intros st0 menu st1 st2 Hopen Htrav.
    rewrite extraction_run, Hopen, Htrav. reflexivity.
  - destruct (authenticated st) eqn:Hauth.
    + rewrite (main_authenticated v w st Hauth).
      destruct (fault w (ticks st)) as [e|].
      { cbn. split; [intros code [= <-]; auto|].
        split; split; try discriminate; intros (_ & H & _); discriminate H. }
      destruct (fault w (S (ticks st))) as [e|].
      { cbn. split; [intros code [= <-]; auto|].
        split; split; try discriminate; intros (_ & _ & H & _); discriminate H. }
      destruct (extraction v w (entered w st)) as [[code|message|] st'] eqn:Hrun.
      * pose proof (extraction_code v w _ code st' Hrun) as ->. cbn.
        split; [intros code [= <-]; auto|]. split; split; try discriminate; eauto 10.
        intros (_ & _ & _ & H). discriminate H.
      * rewrite exitStatus_caught.
        split; [intros code [= <-]; auto|]. split; split; try discriminate.
        -- intros (_ & _ & _ & st'' & H). discriminate H.
        -- intros (_ & _ & _ & H). discriminate H.
      * cbn. split; [discriminate|]. split; split; try discriminate; auto.
        intros (_ & _ & _ & st'' & H). discriminate H.
    + rewrite (main_unauthenticated v w st Hauth). cbn.
      split; [intros code [= <-]; auto|].
      split; split; try discriminate; intros (H & _); discriminate H.
Qed.

Lemma main_exit_codes_witness :
  main TypeScript sampleWorld sampleFresh
  = (Ok 1%Z, addLog [Console MsgNoAuth]
               (addLog [Console MsgRule] (addLog [Console MsgBanner] sampleFresh))) /\
  main TypeScript sampleWorld sampleStart
  = (Ok 0%Z, (extraction TypeScript sampleWorld (entered sampleWorld sampleStart)).2) /\
  (main TypeScript brokenWorld sampleStart).1 = Ok 1%Z /\
  main TypeScript (withFault 0 CLOSED sampleWorld) sampleStart
  = (Err CLOSED, attempted (launched sampleStart)).
Proof.
  pose proof (main_exit_codes TypeScript sampleWorld sampleFresh) as (Hfresh & _).
  pose proof (main_exit_codes TypeScript sampleWorld sampleStart) as (_ & Hrun & _).
  pose proof (main_exit_codes TypeScript brokenWorld sampleStart) as (_ & Hbroken & _).
  pose proof (main_exit_codes TypeScript (withFault 0 CLOSED sampleWorld) sampleStart)
    as (_ & Hlaunch & _).
  split; [|split; [|split]].
  - exact (proj1 (Hfresh eq_refl)).
  - apply (proj1 (proj2 (proj2 (Hrun eq_refl) eq_refl) eq_refl) 0%Z).
    apply run_by_outcome. vm_compute. reflexivity.
  - refine (proj1 (proj2 (proj1 (proj2 (proj2 (proj2 (Hbroken eq_refl) eq_refl) eq_refl))
                            TYPE_ERROR
                            (extraction TypeScript brokenWorld
                               (entered brokenWorld sampleStart)).2 _)) _).
    + apply run_by_outcome. vm_compute. reflexivity.
    + vm_compute. reflexivity.
  - exact (proj1 (Hlaunch eq_refl) CLOSED eq_refl).
Defined.

(** ** The two sources *)

Lemma twin_refl {A} gap (m : M A) : Twin gap m m.
Proof. intros st. auto. Qed.

Lemma twin_same {A} gap (m1 m2 : M A) : (forall st, m1 st = m2 st) -> Twin gap m1 m2.
Proof. intros H st. rewrite H. auto. Qed.

Lemma twin_bind {A B} gap (m1 m2 : M A) (k1 k2 : A -> M B) :
  Twin gap m1 m2 -> (forall a, Twin gap (k1 a) (k2 a)) ->
  Twin gap (x <- m1 ;; k1 x) (x <- m2 ;; k2 x).
Proof.
  intros Hm Hk st. unfold bind. specialize (Hm st).
  destruct (m1 st) as [o1 s1], (m2 st) as [o2 s2]. cbn in Hm.
  destruct Hm as [-> [-> | (Hgap & -> & ->)]].
  - destruct o2 as [a|e|]; [apply Hk | auto | auto].
  - cbn. auto.
Qed.

Lemma twin_forFrom {T} gap (b1 b2 : nat -> T -> M T) count :
  (forall i acc, Twin gap (b1 i acc) (b2 i acc)) ->
  forall from acc, Twin gap (forFrom count from b1 acc) (forFrom count from b2 acc).
Proof.
  intros Hb. induction count as [|count IH]; intros from acc.
  - apply twin_refl.
  - cbn [forFrom]. apply twin_bind; [apply Hb | intros acc'; apply IH].
Qed.

Section Twins.

Context (w : World) (gap : Prop).
Context (Hgap : (exists url filter, render w url filter = NoContext) -> gap).

Lemma twin_applyCSSFilterToImage url filter :
  Twin gap (applyCSSFilterToImage TypeScript w url filter)
           (applyCSSFilterToImage JavaScript w url filter).
Proof.
  intros st. unfold applyCSSFilterToImage.
  destruct (render w url filter) eqn:Hrender; cbn; auto.
  split; [reflexivity|]. right. split; [apply Hgap; eauto | auto].
Qed.

Lemma twin_acquireImage src style folder i :
  Twin gap (acquireImage TypeScript w src style folder i)
           (acquireImage JavaScript w src style folder i).
Proof.
  unfold acquireImage. destruct (filterInfo style) as [[|f ilter]|];
    [apply twin_refl | apply twin_applyCSSFilterToImage | apply twin_refl].
Qed.

Lemma twin_processImage menu folder i acc :
  Twin gap (processImage TypeScript w menu folder i acc)
           (processImage JavaScript w menu folder i acc).
Proof.
  unfold processImage. apply twin_bind; [apply twin_refl|].
  intros [[|u rest]|]; try apply twin_refl.
  apply twin_bind; [apply twin_refl | intros style].
  apply twin_bind; [apply twin_acquireImage | intros b; apply twin_refl].
Qed.

Lemma twin_downloadPreset menu folder n :
  Twin gap (downloadPreset TypeScript w menu folder n)
           (downloadPreset JavaScript w menu folder n).
Proof.
  unfold downloadPreset.
  do 5 (apply twin_bind; [apply twin_refl | intros ?]).
  apply twin_bind; [|intros ?; apply twin_refl].
  apply twin_forFrom. intros i acc. apply twin_processImage.
Qed.

Lemma twin_processPreset menu name folder n r :
  Twin gap (processPreset TypeScript w menu name folder n r)
           (processPreset JavaScript w menu name folder n r).
Proof.
  unfold processPreset.
  do 4 (apply twin_bind; [apply twin_refl | intros ?]).
  apply twin_bind; [apply twin_downloadPreset | intros ?; apply twin_refl].
Qed.

Lemma twin_processPicture menu cname kname n p :
  Twin gap (processPicture TypeScript w menu cname kname n p)
           (processPicture JavaScript w menu cname kname n p).
Proof.
  unfold processPicture.
  do 7 (apply twin_bind; [apply twin_refl | intros ?]).
  apply twin_bind; [|intros ?; apply twin_refl].
  apply twin_forFrom. intros i acc. apply twin_processPreset.
Qed.

Lemma twin_processPictureClass menu c cname n k :
  Twin gap (processPictureClass TypeScript w menu c cname n k)
           (processPictureClass JavaScript w menu c cname n k).
Proof.
  unfold processPictureClass.
  do 5 (apply twin_bind; [apply twin_refl | intros ?]).
  apply twin_bind; [|intros ?; apply twin_refl].
  apply twin_forFrom. intros i acc. apply twin_processPicture.
Qed.

Lemma twin_processCollection menu n c :
  Twin gap (processCollection TypeScript w menu n c)
           (processCollection JavaScript w menu n c).
Proof.
  unfold processCollection.
  do 3 (apply twin_bind; [apply twin_refl | intros ?]).
  apply twin_bind; [|intros ?; apply twin_refl].
  apply twin_forFrom. intros i acc. apply twin_processPictureClass.
Qed.

Lemma twin_traverse menu :
  Twin gap (traverse TypeScript w menu) (traverse JavaScript w menu).
Proof.
  unfold traverse.
  apply twin_bind; [apply twin_refl | intros n].
  apply twin_bind; [|intros ?; apply twin_refl].
  apply twin_forFrom. intros i acc. apply twin_processCollection.
Qed.

End Twins.

Lemma bind_ext {A B} (m : M A) (k1 k2 : A -> M B) st :
  (forall a st', k1 a st' = k2 a st') ->
  (x <- m ;; k1 x) st = (x <- m ;; k2 x) st.
Proof.
  intros Hk. unfold bind. destruct (m st) as [[a|e|] st']; [apply Hk | |]; reflexivity.
Qed.

(** Up to the menu the two sources run alike, each on its own revision of
    the page, when the iframe each picks shows the same thing. *)
Lemma openMenu_twins w (framesTS framesJS : list (option Menu)) st :
  framesTS !! 2 = framesJS !! 1 ->
  openMenu TypeScript (withMenuFrames framesTS w) st
  = openMenu JavaScript (withMenuFrames framesJS w) st.
Proof.
  intros Hframes. unfold openMenu.
  do 11 (apply bind_ext; intros ? ?).
  unfold bind, allIframes, ask, request. cbn [fault withMenuFrames menuFrames].
  match goal with |- context [fault w ?n] => destruct (fault w n) end; [reflexivity|].
  cbn [menuFrameIndex]. rewrite Hframes. reflexivity.
Qed.

Lemma twin_extraction w (framesTS framesJS : list (option Menu)) :
  framesTS !! 2 = framesJS !! 1 ->
  Twin (exists url filter, render w url filter = NoContext)
    (extraction TypeScript (withMenuFrames framesTS w))
    (extraction JavaScript (withMenuFrames framesJS w)).
Proof.
  intros Hframes. unfold extraction.
  apply twin_bind; [apply twin_same; intros st; apply openMenu_twins, Hframes|].
  intros menu. apply twin_bind; [|intros ?; apply twin_refl].
  change (traverse TypeScript (withMenuFrames framesTS w) menu)
    with (traverse TypeScript w menu).
  change (traverse JavaScript (withMenuFrames framesJS w) menu)
    with (traverse JavaScript w menu).
  apply twin_traverse. auto.
Qed.

(** Whole runs of the two sources, side by side. *)
Lemma main_twins w (framesTS framesJS : list (option Menu)) st :
  framesTS !! 2 = framesJS !! 1 ->
  actionsOf (log (main TypeScript (withMenuFrames framesTS w) st).2)
  = actionsOf (log (main JavaScript (withMenuFrames framesJS w) st).2) /\
  files (main TypeScript (withMenuFrames framesTS w) st).2
  = files (main JavaScript (withMenuFrames framesJS w) st).2 /\
  dirs (main TypeScript (withMenuFrames framesTS w) st).2
  = dirs (main JavaScript (withMenuFrames framesJS w) st).2 /\
  ((forall url filter, render w url filter <> NoContext) ->
   main TypeScript (withMenuFrames framesTS w) st
   = main JavaScript (withMenuFrames framesJS w) st).
Proof.
  intros Hframes. split; [|split; [|split]].
  all: destruct (authenticated st) eqn:Hauth;
    [|rewrite !(main_unauthenticated _ _ st Hauth); auto].
  all: rewrite !(main_authenticated _ _ st Hauth);
    cbn [fault withMenuFrames];
    change (entered (withMenuFrames framesTS w) st) with (entered w st);
    change (entered (withMenuFrames framesJS w) st) with (entered w st);
    change (profiled (withMenuFrames framesTS w) st) with (profiled w st);
    change (profiled (withMenuFrames framesJS w) st) with (profiled w st);
    (destruct (fault w (ticks st)); [auto|]);
    (destruct (fault w (S (ticks st))); [auto|]);
    pose proof (twin_extraction w framesTS framesJS Hframes (entered w st)) as Htw;
    destruct (extraction TypeScript (withMenuFrames framesTS w) (entered w st)) as [o1 s1],
             (extraction JavaScript (withMenuFrames framesJS w) (entered w st)) as [o2 s2];
    cbn in Htw; destruct Htw as [-> [-> | (Hgap & -> & ->)]]; auto.
  - unfold caught. cbn [fault withMenuFrames].
    destruct (fault w (ticks s2)); cbn; rewrite !actionsOf_app; cbn;
      rewrite !app_nil_r; reflexivity.
  - unfold caught. cbn [fault withMenuFrames]. destruct (fault w (ticks s2)); reflexivity.
  - unfold caught. cbn [fault withMenuFrames]. destruct (fault w (ticks s2)); reflexivity.
  - intros Hrender. destruct Hgap as (url & filter & Hno).
    destruct (Hrender url filter Hno).
Qed.

(** C9 (the code misses a case): of the guard that the TypeScript source
    has on the 2d context of the canvas, the JavaScript source has nothing.
    On pages that show the same menu to each, with a filtered layer and
    canvases that give no 2d context, the TypeScript source rejects the
    rendering with its message, reports it and exits with code 1; the
    JavaScript source never settles and never exits.  Up to there the two
    have made the menu do the same and have written the same files. *)
Theorem sources_differ_without_context :
  sampleFramesTS !! 2 = sampleFramesJS !! 1 /\
  (main TypeScript (withMenuFrames sampleFramesTS noCanvasWorld) sampleStart).1 = Ok 1%Z /\
  reportsOf (log (main TypeScript (withMenuFrames sampleFramesTS noCanvasWorld)
                    sampleStart).2) = [NO_CONTEXT] /\
  (main JavaScript (withMenuFrames sampleFramesJS noCanvasWorld) sampleStart).1 = Hang /\
  exitStatus (main TypeScript (withMenuFrames sampleFramesTS noCanvasWorld)
                sampleStart).1 = Some 1%Z /\
  exitStatus (main JavaScript (withMenuFrames sampleFramesJS noCanvasWorld)
                sampleStart).1 = None /\
  actionsOf (log (main TypeScript (withMenuFrames sampleFramesTS noCanvasWorld)
                    sampleStart).2)
  = actionsOf (log (main JavaScript (withMenuFrames sampleFramesJS noCanvasWorld)
                      sampleStart).2) /\
  files (main TypeScript (withMenuFrames sampleFramesTS noCanvasWorld) sampleStart).2
  = files (main JavaScript (withMenuFrames sampleFramesJS noCanvasWorld) sampleStart).2.
Proof.
  split; [reflexivity|].
  split; [vm_compute; reflexivity|]. split; [vm_compute; reflexivity|].
  split; [vm_compute; reflexivity|]. split; [vm_compute; reflexivity|].
  pose proof (main_twins noCanvasWorld sampleFramesTS sampleFramesJS sampleStart eq_refl)
    as (Hacts & Hfiles & _).
  split; [vm_compute; reflexivity|]. split; [exact Hacts | exact Hfiles].
Qed.

(** X23: the two sources side by side.  Run on two revisions of the page
    whose iframes of the menu, the third for the TypeScript source and the
    second for the JavaScript source, show the same thing, the two sources
    make the menu carry out the same actions and leave the same files with
    the same bytes and the same directories; and unless a canvas without 2d
    context is met they end alike, with the same exit code, having printed
    lines of the same wording.  (The lines themselves differ, in their
    pictographs.) *)
Theorem sources_agree w (framesTS framesJS : list (option Menu)) st :
  framesTS !! 2 = framesJS !! 1 ->
  actionsOf (log (main TypeScript (withMenuFrames framesTS w) st).2)
  = actionsOf (log (main JavaScript (withMenuFrames framesJS w) st).2) /\
  files (main TypeScript (withMenuFrames framesTS w) st).2
  = files (main JavaScript (withMenuFrames framesJS w) st).2 /\
  dirs (main TypeScript (withMenuFrames framesTS w) st).2
  = dirs (main JavaScript (withMenuFrames framesJS w) st).2 /\
  ((forall url filter, render w url filter <> NoContext) ->
   (main TypeScript (withMenuFrames framesTS w) st).1
   = (main JavaScript (withMenuFrames framesJS w) st).1 /\
   wordingsOf (log (main TypeScript (withMenuFrames framesTS w) st).2)
   = wordingsOf (log (main JavaScript (withMenuFrames framesJS w) st).2)) /\
  lineOf TypeScript MsgClosing <> lineOf JavaScript MsgClosing.
Proof.
  intros Hframes.
  destruct (main_twins w framesTS framesJS st Hframes) as (Hacts & Hfiles & Hdirs & Hend).
  split; [exact Hacts|]. split; [exact Hfiles|]. split; [exact Hdirs|].
  split; [|discriminate].
  intros Hrender. rewrite (Hend Hrender). split; reflexivity.
Qed.

Lemma sources_agree_witness :
  (main TypeScript (withMenuFrames sampleFramesTS sampleWorld) sampleStart).1
  = (main JavaScript (withMenuFrames sampleFramesJS sampleWorld) sampleStart).1 /\
  files (main TypeScript (withMenuFrames sampleFramesTS sampleWorld) sampleStart).2
  = files (main JavaScript (withMenuFrames sampleFramesJS sampleWorld) sampleStart).2.
Proof.
  pose proof (sources_agree sampleWorld sampleFramesTS sampleFramesJS sampleStart eq_refl)
    as (_ & Hfiles & _ & Hend & _).
  split; [|exact Hfiles].
  apply Hend. intros url filter. discriminate.
Defined.

(** ** A request that fails *)
















Section Interrupted.

Context (n : nat) (message : JSString).





End Interrupted.



Section InterruptedTraversal.

Context (v : Variant) (w : World) (n : nat) (message : JSString).








End InterruptedTraversal.




(** ** A preset that cannot be downloaded *)



(** When every preset of the walk is downloaded, the walk is complete. *)
Lemma walk_complete outcomeAt acts :
  Forall (fun leaf : nat * nat * nat * nat =>
            outcomeAt leaf.1.1.1 leaf.1.1.2 leaf.1.2 leaf.2 = Ok tt) (visitsOf acts) ->
  walk outcomeAt acts = (Ok tt, acts).
Proof.
  induction acts as [|a acts IH]; [reflexivity|].
  destruct a; cbn; try (intros H; rewrite (IH H); reflexivity).
  intros H. apply Forall_cons in H as [Hleaf H]. cbn in Hleaf.
  rewrite Hleaf, (IH H). reflexivity.
Qed.


Section Walking.

Context (outcomeAt : nat -> nat -> nat -> nat -> Outcome unit).










End Walking.

Section Stepping.

Context (w : World) (Hff : FaultFree w) (menu : Menu).








End Stepping.

(** *** The download of one preset, however it ends *)



Section FailingLayers.

Context (v : Variant) (w : World) (Hff : FaultFree w).
Context (menu : Menu) (c k p r : nat) (pre : Preset).
Context (Hpre : presetAt menu c k p r = Some pre).




End FailingLayers.

(** *** The four loops, with presets that cannot be downloaded *)


Section FailingTraversal.

Context (v : Variant) (w : World) (Hff : FaultFree w) (menu : Menu).






End FailingTraversal.






(** * Further properties of the code *)

(** ** More on the sanitizer *)

Lemma take_nil_iff {A} n (l : list A) : take n l = [] <-> n = 0 \/ l = [].
Proof.
  destruct n, l; cbn; split; auto; try discriminate.
  intros [H|H]; discriminate.
Qed.

Lemma collapseSpaces_nil s : collapseSpaces s = [] <-> s = [].
Proof.
  split; [|intros ->; reflexivity].
  induction s as [|c t IH]; [reflexivity|]. cbn [collapseSpaces].
  destruct (isSpace c); [|discriminate].
  destruct t as [|c' t']; [discriminate|].
  destruct (isSpace c'); [|discriminate].
  intros H. specialize (IH H). discriminate.
Qed.

Lemma stripUnsafe_nil s :
  stripUnsafe s = [] <-> forallb (fun c => negb (isPathChar c)) s = true.
Proof.
  unfold stripUnsafe. induction s as [|c t IH]; [cbn; tauto|].
  cbn. destruct (isPathChar c); cbn; [split; discriminate | exact IH].
Qed.

Lemma safe_elem (s : JSString) c :
  forallb isSafeChar s = true -> c ∈ s -> isSafeChar c = true.
Proof.
  intros Hall Hin. apply list_elem_of_In in Hin.
  exact (proj1 (forallb_forall isSafeChar s) Hall c Hin).
Qed.

(** X1: whatever the text and the bound, the name made by
    [cleanTextForPath] has only units of [a-z0-9_-] in it: no slash, no
    backslash, no dot and no white space, so that it is one segment of a
    path; and the name of a text that is not blank has at most [maxLength]
    units. *)
Theorem cleanTextForPath_one_segment (text : JSString) (maxLength : Z) :
  (forall c, c ∈ cleanTextForPath text maxLength -> isSafeChar c = true) /\
  (47%N ∉ cleanTextForPath text maxLength) /\
  (92%N ∉ cleanTextForPath text maxLength) /\
  (46%N ∉ cleanTextForPath text maxLength) /\
  (forall c, c ∈ cleanTextForPath text maxLength -> isSpace c = false) /\
  (isBlank text = false ->
   length (cleanTextForPath text maxLength) <= Z.to_nat maxLength).
Proof.
  pose proof (cleanTextForPath_chars text maxLength) as Hall.
  assert (forall c, c ∈ cleanTextForPath text maxLength -> isSafeChar c = true) as Hsafe
    by (intros c; apply safe_elem, Hall).
  repeat split.
  - exact Hsafe.
  - intros Hin. specialize (Hsafe _ Hin). vm_compute in Hsafe. discriminate.
  - intros Hin. specialize (Hsafe _ Hin). vm_compute in Hsafe. discriminate.
  - intros Hin. specialize (Hsafe _ Hin). vm_compute in Hsafe. discriminate.
  - intros c Hin. specialize (Hsafe _ Hin). revert Hsafe. clear. char_lia.
  - intros Hb. unfold cleanTextForPath, substring0. rewrite Hb, length_take. lia.
Qed.

Lemma cleanTextForPath_one_segment_witness :
  length (cleanTextForPath (js "A very long title, far too long for a folder") 30)
  <= Z.to_nat 30.
Proof.
  apply (cleanTextForPath_one_segment
           (js "A very long title, far too long for a folder") 30).
  reflexivity.
Defined.

(** X2: the name of a text that is not blank is empty in two cases only:
    the bound is not positive, or the text, once in lower case, has no unit
    of [a-z0-9], white space or hyphen in it.  (It is for such a text that
    [extractTextWithFallback] gives an empty segment.) *)
Theorem cleanTextForPath_empty_iff (text : JSString) (maxLength : Z) :
  isBlank text = false ->
  (cleanTextForPath text maxLength = [] <->
   (maxLength <= 0)%Z \/
   forallb (fun c => negb (isPathChar c)) (toLowerCase text) = true).
Proof.
  intros Hb. unfold cleanTextForPath, substring0. rewrite Hb.
  rewrite take_nil_iff, collapseSpaces_nil, stripUnsafe_nil.
  split; (intros [H|H]; [left; lia | right; exact H]).
Qed.

Lemma cleanTextForPath_empty_iff_witness :
  cleanTextForPath (js "?!") 30 = [] /\ cleanTextForPath (js "?a!") 30 <> [].
Proof.
  split.
  - apply (cleanTextForPath_empty_iff (js "?!") 30 eq_refl). right. reflexivity.
  - intros H. apply (cleanTextForPath_empty_iff (js "?a!") 30 eq_refl) in H.
    destruct H as [H|H]; [lia | discriminate].
Defined.

Lemma doubleUnderscore_cons a b t :
  doubleUnderscore (a :: b :: t)
  = ((a =? underscore)%N && (b =? underscore)%N) || doubleUnderscore (b :: t).
Proof. reflexivity. Qed.

Lemma doubleUnderscore_take n s :
  doubleUnderscore s = false -> doubleUnderscore (take n s) = false.
Proof.
  revert n. induction s as [|a t IH]; intros [|n] H; try reflexivity.
  destruct t as [|b t']; [destruct n; reflexivity|].
  rewrite doubleUnderscore_cons in H. apply orb_false_iff in H as [Hab Ht].
  destruct n as [|n]; [reflexivity|].
  change (take (S (S n)) (a :: b :: t')) with (a :: take (S n) (b :: t')).
  specialize (IH (S n) Ht).
  change (take (S n) (b :: t')) with (b :: take n t') in *.
  rewrite doubleUnderscore_cons, Hab. exact IH.
Qed.

(** The underscores of [collapseSpaces] stand alone when its input has
    none: an underscore is written for a whole run of white space, and the
    output begins with one only if the input begins with white space. *)
Lemma collapseSpaces_single s :
  underscore ∉ s ->
  doubleUnderscore (collapseSpaces s) = false /\
  (head (collapseSpaces s) = Some underscore ->
   exists c, head s = Some c /\ isSpace c = true).
Proof.
  induction s as [|c t IH]; intros Hno; [split; [reflexivity | discriminate]|].
  apply not_elem_of_cons in Hno as [Hc Ht]. destruct (IH Ht) as [IHd IHh].
  cbn [collapseSpaces]. destruct (isSpace c) eqn:Hsp.
  - destruct t as [|c' t']; [split; [reflexivity | eauto]|].
    destruct (isSpace c') eqn:Hsp'; [split; [exact IHd | eauto]|].
    split; [|eauto].
    destruct (collapseSpaces (c' :: t')) as [|b rest] eqn:Hcol; [reflexivity|].
    rewrite doubleUnderscore_cons, IHd, orb_false_r.
    destruct (N.eqb_spec b underscore) as [->|]; [|apply andb_false_r].
    destruct (IHh eq_refl) as (c0 & Hhead & Hc0). cbn in Hhead.
    injection Hhead as <-. congruence.
  - split.
    + destruct (collapseSpaces t) as [|b rest] eqn:Hcol; [reflexivity|].
      rewrite doubleUnderscore_cons, IHd, orb_false_r.
      destruct (N.eqb_spec c underscore) as [->|]; [congruence | reflexivity].
    + cbn. intros H. injection H as ->. congruence.
Qed.

Lemma stripUnsafe_no_underscore s : underscore ∉ stripUnsafe s.
Proof.
  intros Hin. apply list_elem_of_In in Hin. unfold stripUnsafe in Hin.
  apply filter_In in Hin as [_ H]. vm_compute in H. discriminate.
Qed.

(** X3: no name made by [cleanTextForPath] has two underscores side by
    side: a run of white space, however long, gives one underscore, and the
    underscores of the text itself are deleted. *)
Theorem cleanTextForPath_single_underscores (text : JSString) (maxLength : Z) :
  doubleUnderscore (cleanTextForPath text maxLength) = false.
Proof.
  unfold cleanTextForPath. destruct (isBlank text); [reflexivity|].
  unfold substring0. apply doubleUnderscore_take.
  apply collapseSpaces_single, stripUnsafe_no_underscore.
Qed.

(** ** More on the size token and on the filter *)

Lemma maxResolution_replaceSize src : maxResolution src = replaceSize false src.
Proof.
  unfold maxResolution. destruct (includes (js "=s") src) eqn:Hinc; [reflexivity|].
  symmetry. apply replaceSize_no_token.
  destruct (hasSizeToken src) eqn:Htok; [|reflexivity].
  apply hasSizeToken_includes in Htok. congruence.
Qed.

Lemma replaceSize_token d u :
  isDigit d = true ->
  replaceSize false (61 :: 115 :: d :: u)%N
  = js "=s4096" ++ replaceSize false (dropWhileB isDigit (d :: u)).
Proof.
  intros Hd. rewrite <- replaceSize_inDigits.
  change (replaceSize false (61 :: 115 :: d :: u)%N)
    with (if isDigit d then js "=s4096" ++ replaceSize true (d :: u)
          else 61%N :: replaceSize false (115 :: d :: u)%N).
  rewrite Hd. reflexivity.
Qed.

Lemma replaceSize_unit c t :
  sizeTokenAt (c :: t) = false ->
  replaceSize false (c :: t) = c :: replaceSize false t.
Proof. intros H. cbn [replaceSize andb]. rewrite H. reflexivity. Qed.

Lemma head_replaceSize s : head (replaceSize false s) = head s.
Proof.
  destruct s as [|c t]; [reflexivity|].
  destruct (sizeTokenAt (c :: t)) eqn:Htok.
  - destruct (sizeTokenAt_shape _ Htok) as (d & u & Hs & Hd). rewrite Hs.
    rewrite (replaceSize_token d u Hd). reflexivity.
  - rewrite (replaceSize_unit c t Htok). reflexivity.
Qed.

Lemma sizeTokenAt_replaceSize c s :
  sizeTokenAt (c :: s) = false -> sizeTokenAt (c :: replaceSize false s) = false.
Proof.
  intros Hno. destruct s as [|b t]; [exact Hno|].
  destruct (sizeTokenAt (b :: t)) eqn:Htok.
  - destruct (sizeTokenAt_shape _ Htok) as (d & u & Hs & Hd).
    injection Hs as -> ->. rewrite (replaceSize_token d u Hd).
    cbn. destruct (c =? 61)%N; reflexivity.
  - rewrite (replaceSize_unit b t Htok).
    destruct t as [|d u]; [exact Hno|].
    pose proof (head_replaceSize (d :: u)) as Hhead.
    destruct (replaceSize false (d :: u)) as [|d' u']; [discriminate|].
    injection Hhead as ->. exact Hno.
Qed.

Lemma dropWhileB_stopped p s :
  forallb p (take 1 s) = false \/ s = [] -> dropWhileB p s = s.
Proof.
  intros [H | ->]; [|reflexivity].
  destruct s as [|c t]; [discriminate|]. cbn in *.
  rewrite andb_true_r in H. rewrite H. reflexivity.
Qed.

Lemma replaceSize_keeps_stop s :
  forallb isDigit (take 1 s) = false \/ s = [] ->
  forallb isDigit (take 1 (replaceSize false s)) = false \/ replaceSize false s = [].
Proof.
  intros [H | ->]; [|right; reflexivity]. left.
  pose proof (head_replaceSize s) as Hhead.
  destruct s as [|c t]; [discriminate|].
  destruct (replaceSize false (c :: t)) as [|c' t']; [discriminate|].
  injection Hhead as ->. exact H.
Qed.

Lemma replaceSize_idempotent_upto n :
  forall s, length s <= n ->
    replaceSize false (replaceSize false s) = replaceSize false s.
Proof.
  induction n as [|n IH]; intros s Hlen.
  - destruct s; [reflexivity | cbn in Hlen; lia].
  - destruct s as [|c t]; [reflexivity|].
    destruct (sizeTokenAt (c :: t)) eqn:Htok.
    + destruct (sizeTokenAt_shape _ Htok) as (d & u & Hs & Hd).
      rewrite Hs in Hlen |- *. rewrite (replaceSize_token d u Hd).
      set (rest := dropWhileB isDigit (d :: u)).
      change (js "=s4096" ++ replaceSize false rest)
        with (61 :: 115 :: 52 :: (48 :: 57 :: 54 :: replaceSize false rest))%N.
      rewrite (replaceSize_token 52 _ eq_refl).
      change (dropWhileB isDigit (52 :: 48 :: 57 :: 54 :: replaceSize false rest)%N)
        with (dropWhileB isDigit (replaceSize false rest)).
      rewrite (dropWhileB_stopped isDigit (replaceSize false rest)).
      * rewrite IH; [reflexivity|].
        pose proof (dropWhileB_length isDigit (d :: u)). unfold rest. cbn in *. lia.
      * apply replaceSize_keeps_stop, dropWhileB_head.
    + rewrite (replaceSize_unit c t Htok).
      rewrite (replaceSize_unit c _ (sizeTokenAt_replaceSize c t Htok)).
      rewrite IH; [reflexivity | cbn in Hlen; lia].
Qed.

(** X4: asking for the largest rendition is idempotent: in the URL that
    [downloadPreset] makes, every size token already is [=s4096], and
    making it anew changes nothing. *)
Theorem maxResolution_idempotent (src : JSString) :
  maxResolution (maxResolution src) = maxResolution src.
Proof.
  rewrite !maxResolution_replaceSize.
  apply (replaceSize_idempotent_upto (length src)). reflexivity.
Qed.

Lemma forallb_dropWhileB (p q : N -> bool) s :
  forallb q s = true -> forallb q (dropWhileB p s) = true.
Proof.
  induction s as [|c t IH]; [reflexivity|]. cbn.
  rewrite andb_true_iff. intros [Hc Ht].
  destruct (p c); [apply IH, Ht | cbn; rewrite Hc, Ht; reflexivity].
Qed.

Lemma forallb_rev (q : N -> bool) s : forallb q s = true -> forallb q (rev s) = true.
Proof.
  intros H. apply forallb_forall. intros x Hx. apply in_rev in Hx.
  exact (proj1 (forallb_forall q s) H x Hx).
Qed.

Lemma head_rev (s : JSString) : head (rev s) = last s.
Proof.
  induction s as [|c t IH]; [reflexivity|]. cbn [rev].
  destruct t as [|c' t']; [reflexivity|].
  change (last (c :: c' :: t')) with (last (c' :: t')). rewrite <- IH.
  destruct (rev (c' :: t')) eqn:Hrev; [|reflexivity].
  apply (f_equal (@length N)) in Hrev. rewrite length_rev in Hrev. discriminate.
Qed.

Lemma last_rev (s : JSString) : last (rev s) = head s.
Proof. rewrite <- (rev_involutive s) at 2. symmetry. apply head_rev. Qed.

Lemma head_dropWhileB p s c : head (dropWhileB p s) = Some c -> p c = false.
Proof.
  induction s as [|a t IH]; [discriminate|]. cbn.
  destruct (p a) eqn:Ha; [exact IH|]. cbn. intros H. injection H as <-. exact Ha.
Qed.

Lemma last_dropWhileB p s c :
  last (dropWhileB p s) = Some c -> last s = Some c.
Proof.
  induction s as [|a t IH]; [discriminate|]. cbn [dropWhileB].
  destruct (p a); [|auto]. intros H. specialize (IH H).
  destruct t; [discriminate | exact IH].
Qed.

(** What [trim] leaves neither begins nor ends with white space. *)
Lemma trim_ends s c :
  (head (trim s) = Some c -> isSpace c = false) /\
  (last (trim s) = Some c -> isSpace c = false).
Proof.
  unfold trim. rewrite head_rev, last_rev. split.
  - intros H. apply last_dropWhileB in H. rewrite last_rev in H.
    exact (head_dropWhileB isSpace s c H).
  - apply head_dropWhileB.
Qed.

Lemma filterMatchAt_no_semicolon s g :
  filterMatchAt s = Some g ->
  forallb (fun c => negb (c =? semicolon)%N) g = true.
Proof.
  unfold filterMatchAt. destruct (startsWith (js "filter:") s); [|discriminate].
  set (t := drop 7 s).
  destruct (takeWhileB (fun c => negb (c =? semicolon)%N) (dropWhileB isSpace t))
    as [|a g'] eqn:Hg.
  - destruct (last (takeWhileB isSpace t)) as [c|] eqn:Hlast; [|discriminate].
    intros H. injection H as <-. cbn. rewrite andb_true_r.
    assert (isSpace c = true) as Hc.
    { pose proof (takeWhileB_all isSpace t) as Hall.
      apply last_Some_elem_of, list_elem_of_In in Hlast.
      exact (proj1 (forallb_forall _ _) Hall c Hlast). }
    apply negb_true_iff. revert Hc. clear. char_lia.
  - intros H. injection H as <-. rewrite <- Hg. apply takeWhileB_all.
Qed.

Lemma filterMatch_no_semicolon s g :
  filterMatch s = Some g ->
  forallb (fun c => negb (c =? semicolon)%N) g = true.
Proof.
  induction s as [|c t IH]; cbn [filterMatch].
  - destruct (filterMatchAt []) eqn:H; [|discriminate].
    intros Hg. injection Hg as <-. eapply filterMatchAt_no_semicolon, H.
  - destruct (filterMatchAt (c :: t)) eqn:H; [|exact IH].
    intros Hg. injection Hg as <-. eapply filterMatchAt_no_semicolon, H.
Qed.

(** X5: the filter that [downloadPreset] reads from a style, when it reads
    one, is a single value: it has no semicolon in it and neither begins
    nor ends with white space. *)
Theorem filterInfo_single_value (style : option JSString) (filter : JSString) :
  filterInfo style = Some filter ->
  (semicolon ∉ filter) /\
  (forall c, head filter = Some c -> isSpace c = false) /\
  (forall c, last filter = Some c -> isSpace c = false).
Proof.
  unfold filterInfo. destruct style as [s|]; [|discriminate].
  destruct (filterMatch s) as [g|] eqn:Hg; [|discriminate].
  cbn. intros H. injection H as <-. split; [|split].
  - pose proof (filterMatch_no_semicolon s g Hg) as Hall.
    assert (forallb (fun c => negb (c =? semicolon)%N) (trim g) = true) as Htrim.
    { unfold trim. apply forallb_rev, forallb_dropWhileB, forallb_rev,
        forallb_dropWhileB, Hall. }
    intros Hin. apply list_elem_of_In in Hin.
    pose proof (proj1 (forallb_forall _ _) Htrim _ Hin) as Hc.
    vm_compute in Hc. discriminate.
  - intros c. apply trim_ends.
  - intros c. apply trim_ends.
Qed.

Lemma filterInfo_single_value_witness :
  semicolon ∉ js "hue-rotate(90deg)".
Proof.
  apply (filterInfo_single_value (layerStyle sampleFiltered) (js "hue-rotate(90deg)")).
  reflexivity.
Defined.

(** ** The names of the files *)

Lemma js_cons c s : js (String c s) = N_of_ascii c :: js s.
Proof. reflexivity. Qed.

Lemma js_inj s t : js s = js t -> s = t.
Proof.
  revert t. induction s as [|c s IH]; intros [|d t] H; try discriminate H.
  - reflexivity.
  - rewrite !js_cons in H. injection H as Hc Hs.
    apply (f_equal ascii_of_N) in Hc. rewrite !ascii_N_embedding in Hc.
    rewrite Hc, (IH t Hs). reflexivity.
Qed.

Lemma decimal_inj i n : decimal i = decimal n -> i = n.
Proof.
  unfold decimal. intros H. apply js_inj in H.
  apply (f_equal NilEmpty.uint_of_string) in H. rewrite !NilEmpty.usu in H.
  injection H as H. apply (f_equal Nat.of_uint) in H.
  rewrite !DecimalNat.Unsigned.of_to in H. exact H.
Qed.

Lemma decimal_digits n : forallb isDigit (decimal n) = true.
Proof.
  unfold decimal. generalize (Nat.to_uint n). intros d.
  induction d; cbn [NilEmpty.string_of_uint]; rewrite ?js_cons;
    [reflexivity | cbn [forallb]; rewrite IHd; reflexivity ..].
Qed.

Lemma decimal_no_underscore n : underscore ∉ decimal n ++ js ".jpg".
Proof.
  intros Hin. apply elem_of_app in Hin as [Hin | Hin].
  - apply list_elem_of_In in Hin.
    pose proof (proj1 (forallb_forall _ _) (decimal_digits n) _ Hin) as Hd.
    vm_compute in Hd. discriminate Hd.
  - revert Hin. apply (bool_decide_unpack _). vm_compute. exact I.
Qed.

Lemma split_at_last (u : N) (x y d1 d2 : list N) :
  u ∉ d1 -> u ∉ d2 -> x ++ u :: d1 = y ++ u :: d2 -> x = y /\ d1 = d2.
Proof.
  intros H1 H2. revert y. induction x as [|a x IH]; intros [|c y] H; cbn in H.
  - injection H as ->. auto.
  - injection H as <- ->. exfalso. apply H1, elem_of_app. right. left.
  - injection H as -> <-. exfalso. apply H2, elem_of_app. right. left.
  - injection H as -> H. destruct (IH y H) as [Hx Hd]. subst. auto.
Qed.

Lemma tempName_finalName (folder : Path) i n :
  tempName i = finalName folder n <-> basename folder = js "temp" /\ i = n.
Proof.
  unfold tempName, finalName. split.
  - intros H.
    change (js "temp_" ++ decimal i ++ js ".jpg")
      with (js "temp" ++ underscore :: (decimal i ++ js ".jpg")) in H.
    change (basename folder ++ js "_" ++ decimal n ++ js ".jpg")
      with (basename folder ++ underscore :: (decimal n ++ js ".jpg")) in H.
    apply split_at_last in H as [Hb Hd]; try apply decimal_no_underscore.
    split; [auto|]. apply app_inv_tail in Hd. apply decimal_inj, Hd.
  - intros [-> ->]. reflexivity.
Qed.

Lemma tempPath_eq (folder : Path) i : tempPath folder i = folder ++ [tempName i].
Proof. reflexivity. Qed.

Lemma finalPath_eq (folder : Path) n :
  finalPath folder n = folder ++ [finalName folder n].
Proof.
  unfold finalPath, finalName, pathJoin. cbn [List.filter].
  destruct (basename folder ++ js "_" ++ decimal n ++ js ".jpg") eqn:H; [|reflexivity].
  apply (f_equal (@length N)) in H. rewrite !length_app in H. cbn in H. lia.
Qed.

Lemma setFiles_same st : setFiles (files st) st = st.
Proof. destruct st. reflexivity. Qed.

(** X6: a download that succeeds leaves no trace: when there was no file
    of the temporary name before, [downloadImageToBuffer] gives the body
    that the network delivered and the state is what it was. *)
Theorem downloadImageToBuffer_round_trip w (src : JSString) (folder : Path)
    (index : nat) (body : Buffer) st :
  fetch w src = Received body ->
  files st !! tempPath folder index = None ->
  downloadImageToBuffer w src folder index st = (Ok body, st).
Proof.
  intros Hfetch Hnone. rewrite downloadImageToBuffer_run, Hfetch. cbn zeta.
  rewrite tempPath_eq in Hnone. unfold tempName in Hnone.
  rewrite (delete_id _ _ Hnone), setFiles_same. reflexivity.
Qed.

Lemma downloadImageToBuffer_round_trip_witness :
  downloadImageToBuffer sampleWorld (js "https://lh3.example/a") sampleFolder 0
    sampleStart
  = (Ok (js "https://lh3.example/a"), sampleStart).
Proof.
  apply downloadImageToBuffer_round_trip; [reflexivity | apply lookup_empty].
Defined.

Lemma downloadImageToBuffer_state w src (folder : Path) i st :
  exists f,
    (downloadImageToBuffer w src folder i st).2 = setFiles f st /\
    forall p, p <> tempPath folder i -> f !! p = files st !! p.
Proof.
  rewrite downloadImageToBuffer_run, tempPath_eq. unfold tempName. cbn zeta.
  destruct (fetch w src); eexists; (split; [reflexivity|]); intros p Hp; cbn;
    first [apply lookup_delete_ne | apply lookup_insert_ne];
    intros Heq; apply Hp; symmetry; exact Heq.
Qed.

(** X7: however the transfer ends, [downloadImageToBuffer] changes no file
    but its temporary one, makes no directory, prints nothing and asks
    nothing of the browser. *)
Theorem downloadImageToBuffer_frame w (src : JSString) (folder : Path)
    (index : nat) st (p : Path) :
  p <> tempPath folder index ->
  files (downloadImageToBuffer w src folder index st).2 !! p = files st !! p /\
  dirs (downloadImageToBuffer w src folder index st).2 = dirs st /\
  log (downloadImageToBuffer w src folder index st).2 = log st /\
  cursor (downloadImageToBuffer w src folder index st).2 = cursor st /\
  ticks (downloadImageToBuffer w src folder index st).2 = ticks st.
Proof.
  intros Hp. destruct (downloadImageToBuffer_state w src folder index st) as (f & -> & Hf).
  cbn. repeat split. apply Hf, Hp.
Qed.

Lemma downloadImageToBuffer_frame_witness :
  files (downloadImageToBuffer plainHttpWorld (js "http://lh3.example/a.png")
           sampleFolder 0 sampleStart).2 !! finalPath sampleFolder 1
  = files sampleStart !! finalPath sampleFolder 1.
Proof.
  apply (downloadImageToBuffer_frame plainHttpWorld (js "http://lh3.example/a.png")
           sampleFolder 0 sampleStart (finalPath sampleFolder 1)).
  vm_compute. discriminate.
Defined.

(** X8: the temporary file of layer [index] and the image of preset
    [presetNumber] have the same name just when the folder is called [temp]
    and the two numbers agree.  Short of that, a download leaves the images
    of the folder alone; in a folder called [temp], a download for layer
    [index] that succeeds removes the image of preset [index]. *)
Theorem downloadImageToBuffer_final_image w (src : JSString) (folder : Path)
    (index presetNumber : nat) st :
  (tempPath folder index = finalPath folder presetNumber
   <-> basename folder = js "temp" /\ index = presetNumber) /\
  (basename folder <> js "temp" \/ index <> presetNumber ->
   files (downloadImageToBuffer w src folder index st).2 !! finalPath folder presetNumber
   = files st !! finalPath folder presetNumber) /\
  (basename folder = js "temp" ->
   (exists body, fetch w src = Received body) ->
   files (downloadImageToBuffer w src folder index st).2 !! finalPath folder index
   = None).
Proof.
  assert (tempPath folder index = finalPath folder presetNumber
          <-> basename folder = js "temp" /\ index = presetNumber) as Hclash.
  { rewrite tempPath_eq, finalPath_eq, <- tempName_finalName. split.
    - intros H. apply app_inv_head in H. injection H as H. exact H.
    - intros ->. reflexivity. }
  split; [exact Hclash|]. split.
  - intros Hno.
    destruct (downloadImageToBuffer_state w src folder index st) as (f & -> & Hf).
    cbn. apply Hf. intros Heq. symmetry in Heq. apply Hclash in Heq as [Hb Hi].
    destruct Hno as [Hno | Hno]; contradiction.
  - intros Hb Hfetch.
    assert (finalPath folder index = folder ++ [js "temp_" ++ decimal index ++ js ".jpg"])
      as ->.
    { rewrite finalPath_eq. unfold finalName. rewrite Hb. reflexivity. }
    apply downloadImageToBuffer_cleans. left. exact Hfetch.
Qed.

Lemma downloadImageToBuffer_final_image_witness :
  files (downloadImageToBuffer sampleWorld (js "https://lh3.example/a")
           [js "images"; js "c1"; js "k1"; js "temp"] 1
           (setFiles {[ [js "images"; js "c1"; js "k1"; js "temp"; js "temp_1.jpg"]
                        := js "first" ]} sampleStart)).2
    !! finalPath [js "images"; js "c1"; js "k1"; js "temp"] 1
  = None.
Proof.
  apply (downloadImageToBuffer_final_image sampleWorld (js "https://lh3.example/a")
           [js "images"; js "c1"; js "k1"; js "temp"] 1 1).
  - reflexivity.
  - exists (js "https://lh3.example/a"). reflexivity.
Defined.

(** ** The folder of a picture *)

Lemma ancestors_self (p : Path) : p <> [] -> p ∈ ancestors p.
Proof.
  intros Hp. unfold ancestors. apply list_elem_of_In, in_map_iff.
  exists (length p). split; [apply firstn_all|].
  apply in_seq. destruct p; [congruence | cbn; lia].
Qed.

Lemma ancestors_prefix (folder p : Path) : p ∈ ancestors folder -> p `prefix_of` folder.
Proof.
  unfold ancestors. intros Hin.
  apply list_elem_of_In, in_map_iff in Hin as (n & <- & _).
  exists (drop n folder). symmetry. apply take_drop.
Qed.

Lemma pathJoin_downloads segments : pathJoin DOWNLOADS_DIR segments <> [].
Proof. discriminate. Qed.

Lemma createFolderStructure_run c k p st :
  createFolderStructure c k p st
  = let folder := pathJoin DOWNLOADS_DIR [c; k; p] in
    (Ok folder,
     if bool_decide (folder ∈ dirs st) || isSome (files st !! folder)
     then st else setDirs (dirs st ∪ list_to_set (ancestors folder)) st).
Proof.
  unfold createFolderStructure, bind, existsSync. cbv beta iota zeta.
  destruct (bool_decide _ || isSome _); reflexivity.
Qed.

(** X9: for names of units of [a-z0-9_-], [createFolderStructure] gives
    the folder of a picture: [images] followed by the three names, of which
    [path.join] leaves out the empty ones.  When no regular file is in the
    way, at the folder or above it, the folder is a directory afterwards;
    no file is touched, no directory is removed, the directories that are
    made are the folder and the ones above it, and making the folder once
    more changes nothing. *)
Theorem createFolderStructure_idempotent (collectionName pictureClassName
    pictureName : JSString) st :
  SafeName collectionName -> SafeName pictureClassName -> SafeName pictureName ->
  let folder :=
    [js "images"] ++ List.filter (fun name => negb (isEmpty name))
                       [collectionName; pictureClassName; pictureName] in
  (forall q : Path, q ∈ ancestors folder -> files st !! q = None) ->
  let st' := (createFolderStructure collectionName pictureClassName pictureName st).2 in
  (createFolderStructure collectionName pictureClassName pictureName st).1 = Ok folder /\
  (collectionName <> [] -> pictureClassName <> [] -> pictureName <> [] ->
   folder = [js "images"; collectionName; pictureClassName; pictureName]) /\
  folder ∈ dirs st' /\
  files st' = files st /\
  dirs st ⊆ dirs st' /\
  (forall q : Path, q ∈ dirs st' -> q ∈ dirs st \/ q `prefix_of` folder) /\
  createFolderStructure collectionName pictureClassName pictureName st'
  = (Ok folder, st').
Proof.
  intros _ _ _ folder Hfree st'. subst st'. rewrite !createFolderStructure_run.
  cbv zeta.
  change (pathJoin DOWNLOADS_DIR [collectionName; pictureClassName; pictureName])
    with folder.
  cbn [fst snd].
  assert (folder ∈ ancestors folder) as Hself by (apply ancestors_self; discriminate).
  assert (collectionName <> [] -> pictureClassName <> [] -> pictureName <> [] ->
          folder = [js "images"; collectionName; pictureClassName; pictureName]) as Hfull.
  { subst folder.
    destruct collectionName, pictureClassName, pictureName; try congruence. reflexivity. }
  destruct (bool_decide (folder ∈ dirs st) || isSome (files st !! folder)) eqn:Hthere.
  - assert (folder ∈ dirs st) as Hin.
    { rewrite (Hfree folder Hself), orb_false_r in Hthere.
      apply bool_decide_eq_true_1 in Hthere. exact Hthere. }
    rewrite Hthere. auto 10.
  - assert (folder ∈ dirs st ∪ list_to_set (ancestors folder)) as Hin
      by (apply elem_of_union_r, elem_of_list_to_set, Hself).
    cbn [dirs files setDirs].
    rewrite (bool_decide_eq_true_2 _ Hin). cbn [orb].
    split; [reflexivity|]. split; [exact Hfull|]. split; [exact Hin|].
    split; [reflexivity|]. split; [apply union_subseteq_l|]. split; [|reflexivity].
    intros q. rewrite elem_of_union, elem_of_list_to_set.
    intros [Hq | Hq]; [auto | right; apply ancestors_prefix, Hq].
Qed.

Lemma createFolderStructure_idempotent_witness :
  (createFolderStructure (js "c1") (js "k1") (js "p1") sampleStart).1
  = Ok [js "images"; js "c1"; js "k1"; js "p1"] /\
  [js "images"; js "c1"; js "k1"; js "p1"]
  ∈ dirs (createFolderStructure (js "c1") (js "k1") (js "p1") sampleStart).2.
Proof.
  destruct (createFolderStructure_idempotent (js "c1") (js "k1") (js "p1") sampleStart
              eq_refl eq_refl eq_refl (fun q _ => lookup_empty q))
    as (Hfolder & _ & Hmade & _).
  split; [exact Hfolder | exact Hmade].
Defined.

(** ** From the account page to the menu *)

(** An iteration of the probing loop is fulfilled whatever the browser
    does, and moves nothing but the count of requests. *)
Lemma probeFrame_settles w iframes i found st :
  exists found' st',
    probeFrame w iframes i found st = (Ok found', st') /\
    (found' = found \/
     exists probe, found' = Some probe /\ iframes !! i = Some (Some probe) /\
                   looksLikeDialog probe = true) /\
    cursor st' = cursor st /\ files st' = files st /\ dirs st' = dirs st /\
    actionsOf (log st') = actionsOf (log st) /\ ticks st <= ticks st'.
Proof.
  unfold probeFrame. destruct found as [probe|].
  { exists (Some probe), st. cbn. auto 10. }
  unfold tryCatch, contentFrame, bind, probeCount, ask, request, throw, ret.
  destruct (iframes !! i) as [[probe|]|];
    repeat (cbn -[Nat.ltb];
            match goal with
            | |- context [fault w ?n] => destruct (fault w n)
            end);
    cbn -[Nat.ltb];
    try match goal with
      | |- context [if ?b then _ else _] => destruct b eqn:Hlooks
      end;
    eexists _, _; (split; [reflexivity|]); cbn;
    rewrite ?actionsOf_app, ?app_nil_r;
    (split; [first [left; reflexivity
                   | right; eexists; split; [reflexivity|]; split;
                     [reflexivity | exact Hlooks]]|]);
    repeat split; lia.
Qed.

Lemma probing_settles w iframes count :
  forall from found st,
    (forall probe, found = Some probe ->
       Some probe ∈ iframes /\ looksLikeDialog probe = true) ->
    exists found' st',
      forFrom count from (probeFrame w iframes) found st = (Ok found', st') /\
      (forall probe, found' = Some probe ->
         Some probe ∈ iframes /\ looksLikeDialog probe = true) /\
      cursor st' = cursor st /\ files st' = files st /\ dirs st' = dirs st /\
      actionsOf (log st') = actionsOf (log st) /\ ticks st <= ticks st'.
Proof.
  induction count as [|count IH]; intros from found st Hfound.
  - exists found, st. cbn. auto 10.
  - destruct (probeFrame_settles w iframes from found st)
      as (found1 & st1 & Hrun & Hcase & Hcur & Hfiles & Hdirs & Hacts & Hticks).
    assert (forall probe, found1 = Some probe ->
              Some probe ∈ iframes /\ looksLikeDialog probe = true) as Hfound1.
    { destruct Hcase as [-> | (probe & -> & Hi & Hlooks)]; [exact Hfound|].
      intros probe' [= <-]. split; [|exact Hlooks].
      eapply list_elem_of_lookup_2, Hi. }
    destruct (IH (S from) found1 st1 Hfound1)
      as (found' & st' & Hrun' & Hfound' & Hcur' & Hfiles' & Hdirs' & Hacts' & Hticks').
    exists found', st'. cbn [forFrom]. rewrite (bind_run _ _ _ _ _ Hrun).
    split; [exact Hrun'|]. split; [exact Hfound'|].
    repeat split; try congruence. lia.
Qed.

(** X10: the loop that looks for the frame of the photo dialog is fulfilled
    whatever the browser answers, since each iteration catches what is
    thrown.  What it finds, if anything, is one of the frames and looks
    like the dialog; the page, the files and the actions stay as they are. *)
Theorem probing_never_rejects w (iframes : list (option Probe)) st :
  exists found st',
    forUpTo (length iframes) (probeFrame w iframes) None st = (Ok found, st') /\
    (forall probe, found = Some probe ->
       Some probe ∈ iframes /\ looksLikeDialog probe = true) /\
    cursor st' = cursor st /\ files st' = files st /\ dirs st' = dirs st /\
    actionsOf (log st') = actionsOf (log st) /\ ticks st <= ticks st'.
Proof. apply probing_settles. intros probe H. discriminate H. Qed.

Lemma request_faultfree w {A} (answer : Cursor -> option (A * Cursor * list Action)) st :
  FaultFree w ->
  request w answer st
  = match answer (cursor st) with
    | Some (a, cur, acts) => (Ok a, answered cur acts st)
    | None => (Err TIMEOUT, attempted st)
    end.
Proof. intros Hff. unfold request. rewrite Hff. reflexivity. Qed.

Lemma probeFrame_faultfree w iframes i st :
  FaultFree w ->
  exists st',
    probeFrame w iframes i None st
    = (Ok match iframes !! i with
          | Some (Some probe) => if looksLikeDialog probe then Some probe else None
          | _ => None
          end, st').
Proof.
  intros Hff. unfold probeFrame, tryCatch, contentFrame, bind, probeCount, ask, throw, ret.
  destruct (iframes !! i) as [[probe|]|]; rewrite ?(request_faultfree w _ _ Hff);
    cbn -[Nat.ltb]; rewrite ?(request_faultfree w _ _ Hff); cbn -[Nat.ltb];
    rewrite ?(request_faultfree w _ _ Hff); cbn -[Nat.ltb];
    rewrite ?(request_faultfree w _ _ Hff); cbn -[Nat.ltb];
    try (unfold looksLikeDialog; destruct (_ || _)); eexists; reflexivity.
Qed.

Lemma firstDialogFrame_cons frame frames :
  firstDialogFrame (frame :: frames)
  = match frame with
    | Some probe => if looksLikeDialog probe then Some probe else firstDialogFrame frames
    | None => firstDialogFrame frames
    end.
Proof.
  unfold firstDialogFrame. cbn [omap list_omap].
  destruct frame as [probe|]; [|reflexivity]. destruct (looksLikeDialog probe); reflexivity.
Qed.

Lemma probing_faultfree w iframes count :
  FaultFree w ->
  forall from found st,
    exists st',
      forFrom count from (probeFrame w iframes) found st
      = (Ok match found with
            | Some _ => found
            | None => firstDialogFrame (take count (drop from iframes))
            end, st').
Proof.
  intros Hff. induction count as [|count IH]; intros from found st.
  - exists st. destruct found; reflexivity.
  - cbn [forFrom]. destruct found as [probe|].
    + destruct (IH (S from) (Some probe) st) as (st' & Hrun).
      exists st'. unfold bind, probeFrame, ret. exact Hrun.
    + destruct (probeFrame_faultfree w iframes from st Hff) as (st1 & Hstep).
      rewrite (bind_run _ _ _ _ _ Hstep).
      destruct (IH (S from)
                  match iframes !! from with
                  | Some (Some probe) =>
                      if looksLikeDialog probe then Some probe else None
                  | _ => None
                  end st1) as (st' & Hrun).
      exists st'. rewrite Hrun. f_equal. f_equal.
      destruct (iframes !! from) as [frame|] eqn:Hi.
      * rewrite (drop_S _ _ _ Hi). cbn [take]. rewrite firstDialogFrame_cons.
        destruct frame as [probe|]; [|reflexivity].
        destruct (looksLikeDialog probe); reflexivity.
      * apply lookup_ge_None in Hi. rewrite !drop_ge by lia.
        rewrite !take_nil. reflexivity.
Qed.

(** X11: before a browser that answers every request, the probing loop
    finds the first iframe whose frame has a dialog, a Change button or a
    section, and no frame when there is none. *)
Theorem probing_finds_first w (iframes : list (option Probe)) st :
  FaultFree w ->
  (forUpTo (length iframes) (probeFrame w iframes) None st).1
  = Ok (firstDialogFrame iframes).
Proof.
  intros Hff. destruct (probing_faultfree w iframes (length iframes) Hff 0 None st)
    as (st' & Hrun).
  unfold forUpTo. rewrite Hrun. cbn [fst drop]. rewrite firstn_all. reflexivity.
Qed.

Lemma probing_finds_first_witness :
  (forUpTo 3 (probeFrame sampleWorld [None; Some (mkProbe 0 0 0); Some (mkProbe 1 0 0)])
     None sampleStart).1
  = Ok (Some (mkProbe 1 0 0)).
Proof.
  apply (probing_finds_first sampleWorld
           [None; Some (mkProbe 0 0 0); Some (mkProbe 1 0 0)] sampleStart).
  intros n. reflexivity.
Defined.

Lemma last_index {A} (l : list A) : l !! (length l - 1) = last l.
Proof. rewrite last_lookup, Nat.sub_1_r. reflexivity. Qed.

Lemma bind_request_faultfree w (Hff : FaultFree w) {A B}
    (answer : Cursor -> option (A * Cursor * list Action)) (k : A -> M B)
    st a cur acts :
  answer (cursor st) = Some (a, cur, acts) ->
  (x <- request w answer ;; k x) st = k a (answered cur acts st).
Proof.
  intros Hanswer. unfold bind. rewrite (request_faultfree w _ _ Hff), Hanswer.
  reflexivity.
Qed.

Lemma bind_request_timeout w (Hff : FaultFree w) {A B}
    (answer : Cursor -> option (A * Cursor * list Action)) (k : A -> M B) st :
  answer (cursor st) = None ->
  (x <- request w answer ;; k x) st = (Err TIMEOUT, attempted st).
Proof.
  intros Hanswer. unfold bind. rewrite (request_faultfree w _ _ Hff), Hanswer.
  reflexivity.
Qed.

Lemma bind_consoleLog {B} m (k : unit -> M B) st :
  (x <- consoleLog m ;; k x) st = k tt (addLog [Console m] st).
Proof. reflexivity. Qed.

Lemma bind_ret {A B} (a : A) (k : A -> M B) st : (x <- ret a ;; k x) st = k a st.
Proof. reflexivity. Qed.

Lemma bind_throw {A B} e (k : A -> M B) st : (x <- throw e ;; k x) st = (Err e, st).
Proof. reflexivity. Qed.

Lemma bind_assoc {A B C} (m : M A) (k : A -> M B) (h : B -> M C) st :
  bind (bind m k) h st = bind m (fun x => bind (k x) h) st.
Proof. unfold bind. destruct (m st) as [[a|e|] st']; reflexivity. Qed.

Ltac menu_step Hff :=
  first [ rewrite bind_consoleLog
        | rewrite bind_ret
        | rewrite bind_throw
        | erewrite (bind_request_faultfree _ Hff) by reflexivity ].

(** The run of [openMenu] before a browser that answers every request. *)
Lemma openMenu_run v w st :
  FaultFree w ->
  exists st',
    openMenu v w st = (openMenuOutcome v w, st') /\
    files st' = files st /\ dirs st' = dirs st /\
    actionsOf (log st) ++ [Navigate; OpenPhotoDialog] `prefix_of` actionsOf (log st') /\
    (forall menu, openMenuOutcome v w = Ok menu ->
       menuFrames w !! menuFrameIndex v = Some (Some menu) /\
       cursor st' = AtCollections /\
       actionsOf (log st')
       = actionsOf (log st) ++ [Navigate; OpenPhotoDialog; OpenMenu]).
Proof.
  intros Hff. unfold openMenu.
  unfold goto, waitFor, click, waitForTimeout, allIframes, ask.
  do 6 menu_step Hff.
  match goal with
  | |- context [bind (forUpTo _ _ None) _ ?s] => set (st2 := s)
  end.
  destruct (probing_settles w (dialogFrames w) (length (dialogFrames w)) 0 None st2)
    as (found & st3 & Hloop & _ & Hcur & Hfiles & Hdirs & Hacts & _);
    [intros probe H; discriminate H|].
  destruct (probing_faultfree w (dialogFrames w) (length (dialogFrames w)) Hff 0 None st2)
    as (st3' & Hfirst).
  rewrite Hloop in Hfirst. injection Hfirst as Hfound _.
  change (drop 0 (dialogFrames w)) with (dialogFrames w) in Hfound.
  rewrite firstn_all in Hfound.
  unfold forUpTo. rewrite (bind_run _ _ _ _ _ Hloop). clear Hloop.
  assert (actionsOf (log st3) = actionsOf (log st) ++ [Navigate; OpenPhotoDialog])
    as Hacts3.
  { rewrite Hacts. unfold st2. cbn.
    rewrite !actionsOf_app, !app_nil_r, <- !app_assoc. reflexivity. }
  assert (cursor st3 = PhotoDialog) as Hcur3 by (rewrite Hcur; reflexivity).
  assert (files st3 = files st) as Hfiles3 by (rewrite Hfiles; reflexivity).
  assert (dirs st3 = dirs st) as Hdirs3 by (rewrite Hdirs; reflexivity).
  clearbody st2. clear Hcur Hfiles Hdirs Hacts st2.
  unfold openMenuOutcome, chosenFrame. rewrite <- Hfound. clear Hfound.
  assert (exists probe', match found with
                         | Some probe => Some probe
                         | None => mjoin (last (dialogFrames w))
                         end = probe') as (chosen & Hchosen) by eauto.
  rewrite Hchosen.
  destruct chosen as [probe|].
  - assert (forall B (k : option Probe -> M B),
              (profileFrame <-
                 match found with
                 | Some _ => ret found
                 | None =>
                     contentFrame w (dialogFrames w !! (length (dialogFrames w) - 1))
                 end ;; k profileFrame) st3
              = k (Some probe) (match found with
                                | Some _ => st3
                                | None => answered PhotoDialog [] st3
                                end)) as Hpick.
    { intros B k. destruct found as [probe'|].
      - injection Hchosen as ->. reflexivity.
      - rewrite last_index. destruct (last (dialogFrames w)) as [[probe'|]|];
          try discriminate Hchosen. injection Hchosen as ->.
        unfold contentFrame, ask. menu_step Hff. rewrite Hcur3. reflexivity. }
    rewrite Hpick. clear Hpick.
    match goal with
    | |- context [bind (consoleLog _) _ ?s] => set (st4 := s)
    end.
    assert (cursor st4 = PhotoDialog /\ files st4 = files st /\ dirs st4 = dirs st /\
            actionsOf (log st4) = actionsOf (log st) ++ [Navigate; OpenPhotoDialog])
      as (Hcur4 & Hfiles4 & Hdirs4 & Hacts4).
    { unfold st4. destruct found; cbn; rewrite ?actionsOf_app, ?app_nil_r; auto. }
    clearbody st4. menu_step Hff. cbv beta iota. rewrite bind_assoc.
    destruct (0 <? changeButtonCount probe) eqn:Hbutton.
    + erewrite (bind_request_faultfree _ Hff)
        by (cbn -[Nat.ltb]; rewrite ?Hcur4; cbn -[Nat.ltb]; rewrite Hbutton; reflexivity).
      erewrite (bind_request_faultfree _ Hff)
        by (cbn -[Nat.ltb]; rewrite ?Hcur4; cbn -[Nat.ltb]; rewrite Hbutton; reflexivity).
      rewrite ?Hcur4. cbn [clickEffect fst snd].
      do 2 menu_step Hff. unfold contentFrame.
      destruct (menuFrames w !! menuFrameIndex v) as [[menu|]|] eqn:Hmenu.
      * unfold ask. do 2 menu_step Hff. eexists. split; [reflexivity|]. cbn.
        rewrite !actionsOf_app, !app_nil_r, Hacts4. cbn.
        split; [exact Hfiles4|]. split; [exact Hdirs4|]. split.
        { exists [OpenMenu]. rewrite <- app_assoc. reflexivity. }
        intros menu' [= <-]. rewrite <- app_assoc. auto.
      * unfold ask. do 2 menu_step Hff. eexists. split; [reflexivity|]. cbn.
        rewrite !actionsOf_app, !app_nil_r, Hacts4. cbn.
        split; [exact Hfiles4|]. split; [exact Hdirs4|]. split.
        { exists [OpenMenu]. rewrite <- app_assoc. reflexivity. }
        intros menu' H. discriminate H.
      * menu_step Hff. eexists. split; [reflexivity|]. cbn.
        rewrite !actionsOf_app, !app_nil_r, Hacts4. cbn.
        split; [exact Hfiles4|]. split; [exact Hdirs4|]. split.
        { exists [OpenMenu]. rewrite <- app_assoc. reflexivity. }
        intros menu' H. discriminate H.
    + erewrite (bind_request_timeout _ Hff)
        by (cbn -[Nat.ltb]; rewrite ?Hcur4; cbn -[Nat.ltb]; rewrite Hbutton; reflexivity).
      eexists. split; [reflexivity|]. cbn.
      rewrite !actionsOf_app, !app_nil_r, Hacts4.
      split; [exact Hfiles4|]. split; [exact Hdirs4|]. split; [reflexivity|].
      intros menu' H. discriminate H.
  - destruct found as [probe'|]; [discriminate Hchosen|].
    rewrite last_index. destruct (last (dialogFrames w)) as [[probe'|]|];
      [discriminate Hchosen| |]; unfold contentFrame, ask.
    + do 3 menu_step Hff. eexists. split; [reflexivity|]. cbn.
      rewrite !actionsOf_app, !app_nil_r, Hacts3.
      split; [exact Hfiles3|]. split; [exact Hdirs3|]. split; [reflexivity|].
      intros menu' H. discriminate H.
    + menu_step Hff. eexists. split; [reflexivity|].
      rewrite Hacts3.
      split; [exact Hfiles3|]. split; [exact Hdirs3|]. split; [reflexivity|].
      intros menu' H. discriminate H.
Qed.

(** X12: before a browser that answers every request, [openMenu] ends as
    the frames of the page decide.  It looks for the Change button in the
    first frame that looks like the dialog, or in the last one when none
    does.  It is rejected with a type error when there is no such frame,
    with a timeout when the frame has no Change button, and with a type
    error when the iframe that should hold the menu (the third for the
    TypeScript source, the second for the JavaScript one) is missing or has
    no frame.  Otherwise it gives the menu of that iframe, having
    navigated, opened the photo dialog and clicked Change, in this order,
    and changed no file. *)
Theorem openMenu_outcome v w st :
  FaultFree w ->
  (chosenFrame (dialogFrames w) = None -> (openMenu v w st).1 = Err TYPE_ERROR) /\
  (forall probe,
     chosenFrame (dialogFrames w) = Some probe ->
     (changeButtonCount probe = 0 -> (openMenu v w st).1 = Err TIMEOUT) /\
     (0 < changeButtonCount probe ->
      (menuFrames w !! menuFrameIndex v = None \/
       menuFrames w !! menuFrameIndex v = Some None ->
       (openMenu v w st).1 = Err TYPE_ERROR) /\
      (forall menu,
         menuFrames w !! menuFrameIndex v = Some (Some menu) ->
         exists st',
           openMenu v w st = (Ok menu, st') /\
           cursor st' = AtCollections /\
           actionsOf (log st')
           = actionsOf (log st) ++ [Navigate; OpenPhotoDialog; OpenMenu] /\
           files st' = files st))).
Proof.
  intros Hff.
  destruct (openMenu_run v w st Hff) as (st' & Hrun & Hfiles & _ & _ & Hgiven).
  rewrite Hrun. unfold openMenuOutcome in *. cbn [fst].
  split; [intros ->; reflexivity|].
  intros probe Hchosen. rewrite Hchosen in *. split.
  - intros ->. reflexivity.
  - intros Hbutton. apply Nat.ltb_lt in Hbutton. rewrite Hbutton in *. split.
    + intros [-> | ->]; reflexivity.
    + intros menu Hmenu. rewrite Hmenu in *.
      destruct (Hgiven menu eq_refl) as (_ & Hcur & Hacts).
      exists st'. auto.
Qed.

Lemma openMenu_outcome_witness :
  exists st', openMenu TypeScript sampleWorld sampleStart = (Ok sampleMenu, st').
Proof.
  destruct (openMenu_outcome TypeScript sampleWorld sampleStart sampleWorld_faultFree)
    as (_ & Hchosen).
  destruct (Hchosen (mkProbe 1 1 0) eq_refl) as (_ & Hbutton).
  destruct (Hbutton Nat.lt_0_1) as (_ & Hmenu).
  destruct (Hmenu sampleMenu eq_refl) as (st' & Hrun & _).
  exists st'. exact Hrun.
Defined.

(** ** Whole runs *)

(** X13: a whole run that meets no failure.  When the session is there,
    the browser answers every request, the network, the canvas and sharp
    do not fail and the page shows the menu where the program looks for
    it, [main] exits with code 0 after navigating, opening the photo
    dialog, clicking Change and walking the whole menu, in this order; what
    it prints last is that the browser is being closed. *)
Theorem main_extracts_all v w (menu : Menu) st :
  FaultFree w -> Reliable w ->
  authenticated st = true ->
  openMenuOutcome v w = Ok menu ->
  exists st',
    main v w st = (Ok 0%Z, st') /\
    actionsOf (log st')
    = actionsOf (log st) ++ [Navigate; OpenPhotoDialog; OpenMenu] ++ menuActions menu /\
    visitsOf (actionsOf (log st')) = visitsOf (actionsOf (log st)) ++ leaves menu /\
    cursor st' = AtCollections /\
    last (log st') = Some (Console MsgClosing).
Proof.
  intros Hff Hrel Hauth Hmenu. rewrite (main_authenticated v w st Hauth), !Hff.
  destruct (openMenu_run v w (entered w st) Hff)
    as (st1 & Hopen & _ & _ & _ & Hgiven).
  destruct (Hgiven menu Hmenu) as (_ & Hcur1 & Hacts1).
  rewrite Hmenu in Hopen.
  destruct (wp_traverse v w Hff Hrel menu (actionsOf (log st1)) st1)
    as ([] & st2 & Htraverse & Hcur2 & Hacts2); [split; auto|].
  rewrite extraction_run, Hopen, Htraverse, Hff.
  eexists. split; [reflexivity|].
  assert (actionsOf (log (entered w st)) = actionsOf (log st)) as Hentered.
  { cbn. rewrite !actionsOf_app. cbn. rewrite !app_nil_r. reflexivity. }
  assert (actionsOf (log st2)
          = actionsOf (log st) ++ [Navigate; OpenPhotoDialog; OpenMenu] ++ menuActions menu)
    as Hacts.
  { rewrite Hacts2, Hacts1, Hentered. rewrite <- !app_assoc. reflexivity. }
  cbn [log addLog cursor answered List.map]. rewrite !actionsOf_app. cbn [actionsOf omap list_omap].
  rewrite !app_nil_r.
  split; [exact Hacts|]. split.
  - rewrite Hacts. unfold visitsOf. rewrite !omap_app. cbn [omap list_omap app].
    fold (visitsOf (menuActions menu)). rewrite (visitsOf_menu menu). reflexivity.
  - split; [exact Hcur2|]. apply last_snoc.
Qed.

Lemma main_extracts_all_witness :
  exists st', main TypeScript sampleWorld sampleStart = (Ok 0%Z, st').
Proof.
  destruct (main_extracts_all TypeScript sampleWorld sampleMenu sampleStart)
    as (st' & Hrun & _).
  - exact sampleWorld_faultFree.
  - exact sampleWorld_reliable.
  - vm_compute. reflexivity.
  - reflexivity.
  - exists st'. exact Hrun.
Defined.

(** ** What a run may change *)

Section Respecting.

Context (R : State -> State -> Prop).
Context (Rrefl : forall st, R st st).
Context (Rtrans : forall st1 st2 st3, R st1 st2 -> R st2 st3 -> R st1 st3).
Context (Ranswered : forall cur acts st, R st (answered cur acts st)).
Context (Rattempted : forall st, R st (attempted st)).
Context (Rlog : forall es st, R st (addLog es st)).
Context (Name : JSString -> Prop) (Folder : Path -> Prop).
Context (Nclean : forall text fallback maxLength,
           Name fallback -> Name (textWithFallback text fallback maxLength)).
Context (Nfallback : forall kind n,
           kind ∈ [js "unknown_collection_"; js "unknown_class_"; js "unknown_picture_"] ->
           Name (kind ++ decimal n)).
Context (Fmade : forall c k p,
           Name c -> Name k -> Name p -> Folder (pathJoin DOWNLOADS_DIR [c; k; p])).
Context (Rwrite : forall (folder : Path) name data st,
           Folder folder -> isImageName folder name ->
           R st (setFiles (<[pathJoin folder [name] := data]> (files st)) st)).
Context (Rdelete : forall (folder : Path) name st,
           Folder folder -> isImageName folder name ->
           R st (setFiles (delete (pathJoin folder [name]) (files st)) st)).
Context (Rmkdir : forall (folder : Path) st,
           Folder folder -> R st (setDirs (dirs st ∪ list_to_set (ancestors folder)) st)).
Context (v : Variant) (w : World).
Context (Rprofile : forall st, R st (writeProfile w PERSISTENT_CONTEXT_DIR st).2).

Lemma respects_ret {A} (a : A) : Respects R (ret a).
Proof. intros st. apply Rrefl. Qed.

Lemma respects_throw {A} e : Respects R (@throw A e).
Proof. intros st. apply Rrefl. Qed.

Lemma respects_hang {A} : Respects R (@hang A).
Proof. intros st. apply Rrefl. Qed.

Lemma respects_consoleLog m : Respects R (consoleLog m).
Proof. intros st. apply Rlog. Qed.

Lemma respects_request {A} (answer : Cursor -> option (A * Cursor * list Action)) :
  Respects R (request w answer).
Proof.
  intros st. unfold request. destruct (fault w (ticks st)); [apply Rattempted|].
  destruct (answer (cursor st)) as [[[a cur] acts]|]; [apply Ranswered | apply Rattempted].
Qed.

Lemma respects_bind_ok {A B} (P : A -> Prop) (m : M A) (k : A -> M B) :
  (forall st a st', m st = (Ok a, st') -> P a) ->
  Respects R m -> (forall a, P a -> Respects R (k a)) -> Respects R (x <- m ;; k x).
Proof.
  intros HP Hm Hk st. unfold bind. specialize (Hm st). specialize (HP st).
  destruct (m st) as [[a|e|] st']; cbn in *; [|exact Hm ..].
  eapply Rtrans; [exact Hm|]. apply Hk. eapply HP. reflexivity.
Qed.

Lemma respects_bind {A B} (m : M A) (k : A -> M B) :
  Respects R m -> (forall a, Respects R (k a)) -> Respects R (x <- m ;; k x).
Proof.
  intros Hm Hk. apply (respects_bind_ok (fun _ => True)); auto.
Qed.

Lemma respects_tryCatch {A} (m : M A) handler :
  Respects R m -> (forall e, Respects R (handler e)) -> Respects R (tryCatch m handler).
Proof.
  intros Hm Hh st. unfold tryCatch. specialize (Hm st).
  destruct (m st) as [[a|e|] st']; cbn in *; [exact Hm| |exact Hm].
  eapply Rtrans; [exact Hm | apply Hh].
Qed.

Lemma respects_forFrom {T} (body : nat -> T -> M T) count :
  (forall i acc, Respects R (body i acc)) ->
  forall from acc, Respects R (forFrom count from body acc).
Proof.
  intros Hbody. induction count as [|count IH]; intros from acc; cbn [forFrom].
  - apply respects_ret.
  - apply respects_bind; [apply Hbody | intros acc'; apply IH].
Qed.

Lemma respects_existsSync p : Respects R (existsSync p).
Proof. intros st. apply Rrefl. Qed.

Lemma respects_readFileSync p : Respects R (readFileSync p).
Proof. intros st. unfold readFileSync. destruct (files st !! p); apply Rrefl. Qed.

Lemma respects_writeFileSync (folder : Path) name data :
  Folder folder -> isImageName folder name ->
  Respects R (writeFileSync (pathJoin folder [name]) data).
Proof. intros Hfolder Hname st. apply Rwrite; assumption. Qed.

Lemma respects_unlink (folder : Path) name :
  Folder folder -> isImageName folder name ->
  Respects R (unlink (pathJoin folder [name])).
Proof. intros Hfolder Hname st. apply Rdelete; assumption. Qed.

Lemma respects_unlinkSync (folder : Path) name :
  Folder folder -> isImageName folder name ->
  Respects R (unlinkSync (pathJoin folder [name])).
Proof.
  intros Hfolder Hname st. unfold unlinkSync.
  destruct (files st !! pathJoin folder [name]); [apply Rdelete; assumption | apply Rrefl].
Qed.

Lemma respects_mkdirSync (folder : Path) :
  Folder folder -> Respects R (mkdirSync folder).
Proof. intros Hfolder st. apply Rmkdir, Hfolder. Qed.

Ltac image_file :=
  [> assumption
   | first [left; eexists; reflexivity | right; eexists; reflexivity] ].

Ltac respects_steps :=
  repeat first
    [ apply respects_request
    | apply respects_consoleLog
    | apply respects_ret
    | apply respects_throw
    | apply respects_hang
    | apply respects_existsSync
    | apply respects_readFileSync
    | apply respects_writeFileSync; image_file
    | apply respects_unlinkSync; image_file
    | apply respects_unlink; image_file
    | apply respects_mkdirSync; assumption
    | apply respects_bind; [|intros ?]
    | apply respects_forFrom; intros ? ?
    | match goal with
      | |- Respects _ (match ?x with _ => _ end) => destruct x
      end ].

Lemma respects_createFolderStructure c k p :
  Name c -> Name k -> Name p -> Respects R (createFolderStructure c k p).
Proof.
  intros Hc Hk Hp. pose proof (Fmade c k p Hc Hk Hp) as Hfolder.
  unfold createFolderStructure. respects_steps.
Qed.

Lemma createFolderStructure_folder c k p st folder st' :
  Name c -> Name k -> Name p ->
  createFolderStructure c k p st = (Ok folder, st') -> Folder folder.
Proof.
  intros Hc Hk Hp. rewrite createFolderStructure_run. intros [= <- _].
  apply Fmade; assumption.
Qed.

Lemma extractTextWithFallback_name menu element kind n maxLength st name st' :
  kind ∈ [js "unknown_collection_"; js "unknown_class_"; js "unknown_picture_"] ->
  extractTextWithFallback w menu element (kind ++ decimal n) maxLength st = (Ok name, st') ->
  Name name.
Proof.
  intros Hkind. unfold extractTextWithFallback, bind, ret.
  destruct (textContent w menu element st) as [[text|e|] st1]; intros [= <- _].
  apply Nclean, Nfallback, Hkind.
Qed.

Lemma respects_extractTextWithFallback menu element fallback maxLength :
  Respects R (extractTextWithFallback w menu element fallback maxLength).
Proof. unfold extractTextWithFallback, textContent. respects_steps. Qed.

Lemma respects_acquireImage (folder : Path) src style i :
  Folder folder -> Respects R (acquireImage v w src style folder i).
Proof.
  intros Hfolder.
  unfold acquireImage, applyCSSFilterToImage, downloadImageToBuffer, downloadImage,
    createWriteStream.
  respects_steps.
Qed.

Lemma respects_createCompositeFromBuffers (folder : Path) n bufs :
  Folder folder -> Respects R (createCompositeFromBuffers w folder n bufs).
Proof.
  intros Hfolder. unfold createCompositeFromBuffers, toFile. respects_steps.
Qed.

Lemma respects_processImage menu (folder : Path) i acc :
  Folder folder -> Respects R (processImage v w menu folder i acc).
Proof.
  intros Hfolder. unfold processImage.
  apply respects_bind; [apply respects_request|].
  intros [[|u rest]|]; respects_steps. apply respects_acquireImage, Hfolder.
Qed.

Lemma respects_downloadPreset menu (folder : Path) n :
  Folder folder -> Respects R (downloadPreset v w menu folder n).
Proof.
  intros Hfolder. unfold downloadPreset, waitFor, click, count, waitForTimeout.
  do 5 (apply respects_bind; [respects_steps | intros ?]).
  apply respects_bind.
  - apply respects_forFrom. intros i acc. apply respects_processImage, Hfolder.
  - intros bufs. apply respects_createCompositeFromBuffers, Hfolder.
Qed.

Lemma respects_processPreset menu name (folder : Path) k r :
  Folder folder -> Respects R (processPreset v w menu name folder k r).
Proof.
  intros Hfolder.
  unfold processPreset, goBackToPresetSelection, waitFor, click, waitForTimeout.
  do 4 (apply respects_bind; [respects_steps | intros ?]).
  apply respects_bind; [apply respects_downloadPreset, Hfolder | intros ?].
  respects_steps.
Qed.

Lemma respects_processPicture menu cname kname k p :
  Name cname -> Name kname ->
  Respects R (processPicture v w menu cname kname k p).
Proof.
  intros Hc Hk.
  unfold processPicture, waitAndClick, goBackToPictureSelection, waitFor, click, count,
    waitForTimeout.
  do 2 (apply respects_bind; [respects_steps | intros ?]).
  apply (respects_bind_ok Name).
  { intros st name st'. apply extractTextWithFallback_name. set_solver. }
  { apply respects_extractTextWithFallback. }
  intros pname Hp.
  do 3 (apply respects_bind; [respects_steps | intros ?]).
  apply (respects_bind_ok Folder).
  - intros st folder st'. apply createFolderStructure_folder; assumption.
  - apply respects_createFolderStructure; assumption.
  - intros folder Hfolder. apply respects_bind; [|intros ?; respects_steps].
    apply respects_forFrom. intros i acc. apply respects_processPreset, Hfolder.
Qed.

Lemma respects_processPictureClass menu c cname k j :
  Name cname -> Respects R (processPictureClass v w menu c cname k j).
Proof.
  intros Hc.
  unfold processPictureClass, waitAndClick, goBackToPictureClassSelection, waitFor,
    click, count, waitForTimeout.
  apply (respects_bind_ok Name).
  { intros st name st'. apply extractTextWithFallback_name. set_solver. }
  { apply respects_extractTextWithFallback. }
  intros kname Hk.
  do 4 (apply respects_bind; [respects_steps | intros ?]).
  apply respects_bind; [|intros ?; respects_steps].
  apply respects_forFrom. intros i acc. apply respects_processPicture; assumption.
Qed.

Lemma respects_processCollection menu k c :
  Respects R (processCollection v w menu k c).
Proof.
  unfold processCollection, count.
  apply (respects_bind_ok Name).
  { intros st name st'. apply extractTextWithFallback_name. set_solver. }
  { apply respects_extractTextWithFallback. }
  intros cname Hc.
  do 2 (apply respects_bind; [respects_steps | intros ?]).
  apply respects_bind; [|intros ?; respects_steps].
  apply respects_forFrom. intros i acc. apply respects_processPictureClass, Hc.
Qed.

Lemma respects_traverse menu : Respects R (traverse v w menu).
Proof.
  unfold traverse, count.
  apply respects_bind; [respects_steps | intros ?].
  apply respects_bind; [|intros ?; respects_steps].
  apply respects_forFrom. intros i acc. apply respects_processCollection.
Qed.

Lemma respects_probeFrame iframes i found : Respects R (probeFrame w iframes i found).
Proof.
  unfold probeFrame, contentFrame, probeCount, ask. destruct found; [apply respects_ret|].
  apply respects_tryCatch; [|intros ?; apply respects_ret].
  destruct (iframes !! i) as [frame|]; respects_steps.
Qed.

Lemma respects_openMenu : Respects R (openMenu v w).
Proof.
  unfold openMenu, goto, waitFor, click, allIframes, contentFrame, ask, waitForTimeout.
  do 6 (apply respects_bind; [respects_steps | intros ?]).
  apply respects_bind;
    [apply respects_forFrom; intros i acc; apply respects_probeFrame | intros ?].
  respects_steps.
Qed.

Lemma respects_main : Respects R (main v w).
Proof.
  unfold main, extraction, launchPersistentContext, bringToFront, closeContext, ask.
  do 3 (apply respects_bind; [respects_steps | intros ?]).
  match goal with |- Respects _ (if ?b then _ else _) => destruct b end;
    [respects_steps|].
  apply respects_bind; [respects_steps | intros ?].
  apply respects_bind;
    [apply respects_bind; [respects_steps | intros ?; exact Rprofile] | intros ?].
  apply respects_bind; [respects_steps | intros ?].
  apply respects_tryCatch; [|intros e; respects_steps].
  apply respects_bind; [apply respects_openMenu | intros menu].
  apply respects_bind; [apply respects_traverse | intros ?]. respects_steps.
Qed.

End Respecting.

Lemma ancestors_under (folder p : Path) :
  DOWNLOADS_DIR `prefix_of` folder -> p ∈ ancestors folder ->
  DOWNLOADS_DIR `prefix_of` p.
Proof.
  intros [rest ->] Hin. unfold ancestors in Hin.
  apply list_elem_of_In, in_map_iff in Hin as (n & <- & Hn). apply in_seq in Hn.
  destruct n as [|n]; [lia|]. eexists. reflexivity.
Qed.

Lemma sameElsewhere_refl st : SameElsewhere st st.
Proof. intros p Hp Hq. split; reflexivity. Qed.

Lemma sameElsewhere_trans st1 st2 st3 :
  SameElsewhere st1 st2 -> SameElsewhere st2 st3 -> SameElsewhere st1 st3.
Proof.
  intros H12 H23 p Hp Hq.
  destruct (H12 p Hp Hq) as [Hf Hd]. destruct (H23 p Hp Hq) as [Hf' Hd'].
  split; [congruence | tauto].
Qed.

Lemma pathJoin_under (folder : Path) segments :
  DOWNLOADS_DIR `prefix_of` folder -> DOWNLOADS_DIR `prefix_of` pathJoin folder segments.
Proof. intros H. unfold pathJoin. apply prefix_app_r, H. Qed.

Lemma ancestors_session (p : Path) :
  p ∈ ancestors PERSISTENT_CONTEXT_DIR -> p = PERSISTENT_CONTEXT_DIR.
Proof.
  unfold ancestors. intros Hin. apply list_elem_of_In in Hin. cbn in Hin.
  destruct Hin as [<- | []]. reflexivity.
Qed.

(** The files of the profile are inside the session directory. *)
Lemma profile_files_elsewhere (written : list (Path * Buffer))
    (files : gmap Path Buffer) (p : Path) :
  ~ PERSISTENT_CONTEXT_DIR `prefix_of` p ->
  foldr (fun entry acc => <[PERSISTENT_CONTEXT_DIR ++ entry.1 := entry.2]> acc)
        files written !! p
  = files !! p.
Proof.
  intros Hp. induction written as [|entry written IH]; [reflexivity|].
  cbn [foldr]. rewrite lookup_insert_ne; [exact IH|].
  intros <-. apply Hp. eexists. reflexivity.
Qed.

Lemma profile_files_kept (written : list (Path * Buffer))
    (files : gmap Path Buffer) (p : Path) :
  is_Some (files !! p) ->
  is_Some (foldr (fun entry acc => <[PERSISTENT_CONTEXT_DIR ++ entry.1 := entry.2]> acc)
             files written !! p).
Proof.
  intros Hp. induction written as [|entry written IH]; [exact Hp|].
  cbn [foldr].
  destruct (decide (PERSISTENT_CONTEXT_DIR ++ entry.1 = p)) as [<- | Hne].
  - rewrite lookup_insert_eq. eauto.
  - rewrite lookup_insert_ne by exact Hne. exact IH.
Qed.

Lemma main_sameElsewhere v w : Respects SameElsewhere (main v w).
Proof.
  apply (respects_main SameElsewhere sameElsewhere_refl sameElsewhere_trans)
    with (Name := fun _ => True) (Folder := fun folder => DOWNLOADS_DIR `prefix_of` folder).
  - intros cur acts st p Hp Hq. split; reflexivity.
  - intros st p Hp Hq. split; reflexivity.
  - intros es st p Hp Hq. split; reflexivity.
  - auto.
  - auto.
  - intros c k p _ _ _. eexists. reflexivity.
  - intros folder name data st Hfolder _ p Hp Hq. cbn. split; [|reflexivity].
    apply lookup_insert_ne. intros <-. apply Hp, pathJoin_under, Hfolder.
  - intros folder name st Hfolder _ p Hp Hq. cbn. split; [|reflexivity].
    apply lookup_delete_ne. intros <-. apply Hp, pathJoin_under, Hfolder.
  - intros q st Hq p Hp Hp'. cbn. split; [reflexivity|].
    rewrite elem_of_union, elem_of_list_to_set. split; [|auto].
    intros [Hin | Hin]; [exact Hin|]. destruct Hp. eapply ancestors_under; eassumption.
  - intros st p Hp Hq. unfold writeProfile. cbn [snd files dirs setDirs setFiles].
    split; [apply profile_files_elsewhere, Hq|].
    rewrite elem_of_union, elem_of_list_to_set. split; [|auto].
    intros [Hin | Hin]; [exact Hin|]. destruct Hq.
    rewrite (ancestors_session p Hin). reflexivity.
Qed.

Lemma authenticated_iff st :
  authenticated st = true
  <-> PERSISTENT_CONTEXT_DIR ∈ dirs st \/ is_Some (files st !! PERSISTENT_CONTEXT_DIR).
Proof.
  unfold authenticated. rewrite orb_true_iff, bool_decide_eq_true.
  split; (intros [H | H]; [left; exact H | right]).
  - destruct (files st !! PERSISTENT_CONTEXT_DIR); [eauto | discriminate H].
  - destruct H as [x ->]. reflexivity.
Qed.

Lemma session_not_in_downloads (folder : Path) segments :
  DOWNLOADS_DIR `prefix_of` folder -> pathJoin folder segments <> PERSISTENT_CONTEXT_DIR.
Proof.
  intros [rest ->] Heq. unfold pathJoin in Heq. discriminate Heq.
Qed.

Lemma main_keepsSession v w : Respects KeepsSession (main v w).
Proof.
  apply (respects_main KeepsSession)
    with (Name := fun _ => True) (Folder := fun folder => DOWNLOADS_DIR `prefix_of` folder);
    unfold KeepsSession; auto.
  - intros c k p _ _ _. eexists. reflexivity.
  - intros folder name data st Hfolder _. rewrite !authenticated_iff. cbn.
    rewrite lookup_insert_ne by (apply session_not_in_downloads, Hfolder). auto.
  - intros folder name st Hfolder _. rewrite !authenticated_iff. cbn.
    rewrite lookup_delete_ne by (apply session_not_in_downloads, Hfolder). auto.
  - intros q st _. rewrite !authenticated_iff. cbn. rewrite elem_of_union. tauto.
  - intros st _. apply authenticated_iff. left.
    unfold writeProfile. cbn [snd files dirs setDirs setFiles].
    apply elem_of_union_r, elem_of_list_to_set, ancestors_self. discriminate.
Qed.

(** X14: whatever the browser, the network, the canvas and sharp do, a run
    of [main] changes nothing outside [images] and the session directory,
    into which the browser that it launches writes its profile: a path
    under neither holds the same file, or none, before and after, and is a
    directory after just when it was one before.  A session that is there
    is still there after the run; and a run without a session changes no
    file and no directory at all. *)
Theorem main_writes_under_images v w st :
  (forall p : Path,
     ~ DOWNLOADS_DIR `prefix_of` p -> ~ PERSISTENT_CONTEXT_DIR `prefix_of` p ->
     files (main v w st).2 !! p = files st !! p /\
     (p ∈ dirs (main v w st).2 <-> p ∈ dirs st)) /\
  (authenticated st = true -> authenticated (main v w st).2 = true) /\
  (authenticated st = false ->
     files (main v w st).2 = files st /\ dirs (main v w st).2 = dirs st).
Proof.
  split; [exact (main_sameElsewhere v w st)|].
  split; [exact (main_keepsSession v w st)|].
  intros Hauth. rewrite (main_unauthenticated v w st Hauth). auto.
Qed.

Lemma main_writes_under_images_witness :
  files (main TypeScript plainHttpWorld sampleStart).2 !! [js "notes.txt"]
  = files sampleStart !! [js "notes.txt"].
Proof.
  apply (main_writes_under_images TypeScript plainHttpWorld sampleStart).
  - intros [rest Hrest]. discriminate Hrest.
  - intros [rest Hrest]. discriminate Hrest.
Defined.




(** ** Runs that come to an end *)

Lemma settles_ret {A} (a : A) : Settles (ret a).
Proof. intros st H. discriminate H. Qed.

Lemma settles_throw {A} e : Settles (@throw A e).
Proof. intros st H. discriminate H. Qed.

Lemma settles_consoleLog m : Settles (consoleLog m).
Proof. intros st H. discriminate H. Qed.

Lemma settles_existsSync p : Settles (existsSync p).
Proof. intros st H. discriminate H. Qed.

Lemma settles_mkdirSync p : Settles (mkdirSync p).
Proof. intros st H. discriminate H. Qed.

Lemma settles_writeFileSync p data : Settles (writeFileSync p data).
Proof. intros st H. discriminate H. Qed.

Lemma settles_unlink p : Settles (unlink p).
Proof. intros st H. discriminate H. Qed.

Lemma settles_readFileSync p : Settles (readFileSync p).
Proof. intros st. unfold readFileSync. destruct (files st !! p); discriminate. Qed.

Lemma settles_unlinkSync p : Settles (unlinkSync p).
Proof. intros st. unfold unlinkSync. destruct (files st !! p); discriminate. Qed.

Lemma settles_request w {A} (answer : Cursor -> option (A * Cursor * list Action)) :
  Settles (request w answer).
Proof.
  intros st. unfold request. destruct (fault w (ticks st)); [discriminate|].
  destruct (answer (cursor st)) as [[[a cur] acts]|]; discriminate.
Qed.

Lemma settles_bind {A B} (m : M A) (k : A -> M B) :
  Settles m -> (forall a, Settles (k a)) -> Settles (x <- m ;; k x).
Proof.
  intros Hm Hk st. unfold bind. specialize (Hm st).
  destruct (m st) as [[a|e|] st']; cbn in *; [apply Hk | discriminate | destruct Hm; reflexivity].
Qed.

Lemma settles_tryCatch {A} (m : M A) handler :
  Settles m -> (forall e, Settles (handler e)) -> Settles (tryCatch m handler).
Proof.
  intros Hm Hh st. unfold tryCatch. specialize (Hm st).
  destruct (m st) as [[a|e|] st']; cbn in *; [discriminate | apply Hh | exact Hm].
Qed.

Lemma settles_forFrom {T} (body : nat -> T -> M T) count :
  (forall i acc, Settles (body i acc)) ->
  forall from acc, Settles (forFrom count from body acc).
Proof.
  intros Hbody. induction count as [|count IH]; intros from acc; cbn [forFrom].
  - apply settles_ret.
  - apply settles_bind; [apply Hbody | intros acc'; apply IH].
Qed.

Ltac settles_steps :=
  repeat first
    [ apply settles_request
    | apply settles_consoleLog
    | apply settles_ret
    | apply settles_throw
    | apply settles_existsSync
    | apply settles_readFileSync
    | apply settles_writeFileSync
    | apply settles_unlinkSync
    | apply settles_unlink
    | apply settles_mkdirSync
    | apply settles_bind; [|intros ?]
    | apply settles_forFrom; intros ? ?
    | match goal with
      | |- Settles (match ?x with _ => _ end) => destruct x
      end ].

Section Settling.

Context (v : Variant) (w : World).
Context (Hstall : NeverStalls w) (Hcanvas : CanvasSettles v w).

Lemma settles_downloadImage url p : Settles (downloadImage w url p).
Proof.
  unfold downloadImage, createWriteStream. apply settles_bind; [settles_steps|].
  intros _. destruct (fetch w url) eqn:Hfetch; settles_steps.
  destruct (Hstall url partial Hfetch).
Qed.

Lemma settles_applyCSSFilterToImage url filter :
  Settles (applyCSSFilterToImage v w url filter).
Proof.
  unfold applyCSSFilterToImage. destruct (render w url filter) eqn:Hrender;
    [settles_steps| |settles_steps].
  destruct Hcanvas as [-> | Hnever]; [settles_steps|].
  destruct (Hnever url filter Hrender).
Qed.

Lemma settles_acquireImage src style folder i :
  Settles (acquireImage v w src style folder i).
Proof.
  unfold acquireImage, downloadImageToBuffer.
  destruct (filterInfo style) as [[|f ilter]|];
    first [ apply settles_applyCSSFilterToImage
          | apply settles_bind; [apply settles_downloadImage | intros ?; settles_steps] ].
Qed.

Lemma settles_processImage menu folder i acc :
  Settles (processImage v w menu folder i acc).
Proof.
  unfold processImage, getAttribute.
  apply settles_bind; [apply settles_request|].
  intros [[|u rest]|]; settles_steps. apply settles_acquireImage.
Qed.

Lemma settles_createCompositeFromBuffers folder n bufs :
  Settles (createCompositeFromBuffers w folder n bufs).
Proof. unfold createCompositeFromBuffers, toFile. settles_steps. Qed.

Lemma settles_downloadPreset menu folder n : Settles (downloadPreset v w menu folder n).
Proof.
  unfold downloadPreset, waitFor, click, count, waitForTimeout.
  do 5 (apply settles_bind; [settles_steps | intros ?]).
  apply settles_bind.
  - apply settles_forFrom. intros i acc. apply settles_processImage.
  - intros bufs. apply settles_createCompositeFromBuffers.
Qed.

Lemma settles_processPreset menu name folder k r :
  Settles (processPreset v w menu name folder k r).
Proof.
  unfold processPreset, goBackToPresetSelection, waitFor, click, waitForTimeout.
  do 4 (apply settles_bind; [settles_steps | intros ?]).
  apply settles_bind; [apply settles_downloadPreset | intros ?].
  settles_steps.
Qed.

Lemma settles_processPicture menu cname kname k p :
  Settles (processPicture v w menu cname kname k p).
Proof.
  unfold processPicture, waitAndClick, extractTextWithFallback, createFolderStructure,
    goBackToPictureSelection, waitFor, click, count, textContent, waitForTimeout.
  do 7 (apply settles_bind; [settles_steps | intros ?]).
  apply settles_bind; [|intros ?; settles_steps].
  apply settles_forFrom. intros i acc. apply settles_processPreset.
Qed.

Lemma settles_processPictureClass menu c cname k j :
  Settles (processPictureClass v w menu c cname k j).
Proof.
  unfold processPictureClass, waitAndClick, extractTextWithFallback,
    goBackToPictureClassSelection, waitFor, click, count, textContent, waitForTimeout.
  do 5 (apply settles_bind; [settles_steps | intros ?]).
  apply settles_bind; [|intros ?; settles_steps].
  apply settles_forFrom. intros i acc. apply settles_processPicture.
Qed.

Lemma settles_processCollection menu k c :
  Settles (processCollection v w menu k c).
Proof.
  unfold processCollection, extractTextWithFallback, count, textContent.
  do 3 (apply settles_bind; [settles_steps | intros ?]).
  apply settles_bind; [|intros ?; settles_steps].
  apply settles_forFrom. intros i acc. apply settles_processPictureClass.
Qed.

Lemma settles_traverse menu : Settles (traverse v w menu).
Proof.
  unfold traverse, count.
  apply settles_bind; [settles_steps | intros ?].
  apply settles_bind; [|intros ?; settles_steps].
  apply settles_forFrom. intros i acc. apply settles_processCollection.
Qed.

Lemma settles_probeFrame iframes i found : Settles (probeFrame w iframes i found).
Proof.
  unfold probeFrame, contentFrame, probeCount, ask. destruct found; [apply settles_ret|].
  apply settles_tryCatch; [|intros ?; apply settles_ret].
  destruct (iframes !! i) as [frame|]; settles_steps.
Qed.

Lemma settles_openMenu : Settles (openMenu v w).
Proof.
  unfold openMenu, goto, waitFor, click, allIframes, contentFrame, ask, waitForTimeout.
  do 6 (apply settles_bind; [settles_steps | intros ?]).
  apply settles_bind;
    [apply settles_forFrom; intros i acc; apply settles_probeFrame | intros ?].
  settles_steps.
Qed.

Lemma settles_extraction : Settles (extraction v w).
Proof.
  unfold extraction.
  apply settles_bind; [apply settles_openMenu | intros menu].
  apply settles_bind; [apply settles_traverse | intros ?]. settles_steps.
Qed.

End Settling.

(** X16: a run of [main] comes to an end, whatever the browser answers,
    as long as no transfer breaks off half way and the canvas gives its
    context (or the source is the TypeScript one, which checks for it).  It
    ends with [process.exit(0)] or [process.exit(1)], or with a rejection
    that nothing catches, which is then an error of the browser: of the
    launch, of [bringToFront] or of the closing in the [catch] block; the
    status of the process is 0 or 1.  Before a browser that answers every
    request it ends with [process.exit]. *)
Theorem main_exits v w st :
  NeverStalls w -> CanvasSettles v w ->
  (main v w st).1 <> Hang /\
  (forall code, (main v w st).1 = Ok code -> code = 0%Z \/ code = 1%Z) /\
  (forall e, (main v w st).1 = Err e -> exists n, fault w n = Some e) /\
  (exitStatus (main v w st).1 = Some 0%Z \/ exitStatus (main v w st).1 = Some 1%Z) /\
  (FaultFree w -> exists code, (main v w st).1 = Ok code /\ (code = 0 \/ code = 1)%Z).
Proof.
  intros Hstall Hcanvas. destruct (authenticated st) eqn:Hauth.
  - rewrite (main_authenticated v w st Hauth).
    destruct (fault w (ticks st)) as [e|] eqn:Hlaunch.
    { cbn. split; [discriminate|]. split; [discriminate|].
      split; [intros e' [= <-]; eauto|]. split; [auto|].
      intros Hff. rewrite Hff in Hlaunch. discriminate Hlaunch. }
    destruct (fault w (S (ticks st))) as [e|] eqn:Hfront.
    { cbn. split; [discriminate|]. split; [discriminate|].
      split; [intros e' [= <-]; eauto|]. split; [auto|].
      intros Hff. rewrite Hff in Hfront. discriminate Hfront. }
    pose proof (settles_extraction v w Hstall Hcanvas (entered w st)) as Hsettles.
    destruct (extraction v w (entered w st)) as [[code|e|] st'] eqn:Hrun.
    + pose proof (extraction_code v w _ code st' Hrun) as ->. cbn.
      split; [discriminate|]. split; [intros code [= <-]; auto|].
      split; [discriminate|]. split; [auto|]. intros _. exists 0%Z. auto.
    + unfold caught. destruct (fault w (ticks st')) as [e'|] eqn:Hclose; cbn.
      * split; [discriminate|]. split; [discriminate|].
        split; [intros e'' [= <-]; eauto|]. split; [auto|].
        intros Hff. rewrite Hff in Hclose. discriminate Hclose.
      * split; [discriminate|]. split; [intros code [= <-]; auto|].
        split; [discriminate|]. split; [auto|]. intros _. exists 1%Z. auto.
    + destruct Hsettles. reflexivity.
  - rewrite (main_unauthenticated v w st Hauth). cbn.
    split; [discriminate|]. split; [intros code [= <-]; auto|].
    split; [discriminate|]. split; [auto|]. intros _. exists 1%Z. auto.
Qed.

Lemma main_exits_witness :
  (main JavaScript (withFault 7 TIMEOUT sampleWorld) sampleStart).1 <> Hang /\
  (exitStatus (main JavaScript (withFault 7 TIMEOUT sampleWorld) sampleStart).1 = Some 0%Z \/
   exitStatus (main JavaScript (withFault 7 TIMEOUT sampleWorld) sampleStart).1 = Some 1%Z).
Proof.
  destruct (main_exits JavaScript (withFault 7 TIMEOUT sampleWorld) sampleStart)
    as (Hends & _ & _ & Hstatus & _).
  - intros url partial H. discriminate H.
  - right. intros url filter H. discriminate H.
  - split; [exact Hends | exact Hstatus].
Defined.

(** ** The setup script *)

Lemma setup_run desk st :
  setup desk st
  = match launching desk with
    | Some e => (Err e, beforeLaunch st)
    | None =>
        let st := launchedOn PERSISTENT_CONTEXT_DIR (profile desk) (beforeLaunch st) in
        match scripting desk with
        | Some e => (Err e, st)
        | None =>
            match navigation desk with
            | Some e => (Ok 1%Z, closed (print (SetupFailed e) st))
            | None =>
                if enterPressed desk
                then (Ok 0%Z,
                      closed (print SetupComplete
                                (print (SetupSaved PERSISTENT_CONTEXT_DIR) st)))
                else (Hang, st)
            end
        end
    end.
Proof. reflexivity. Qed.

Lemma rmSync_files target st (p : Path) :
  setupFiles (rmSync target st) !! p
  = if decide (target `prefix_of` p) then None else setupFiles st !! p.
Proof.
  cbn. destruct (decide (target `prefix_of` p)) as [Hp | Hp].
  - apply map_lookup_filter_None_2. right. intros x _ Hnot. apply Hnot, Hp.
  - destruct (setupFiles st !! p) as [x|] eqn:Hx.
    + apply map_lookup_filter_Some_2; [exact Hx | exact Hp].
    + apply map_lookup_filter_None_2. left. exact Hx.
Qed.

Lemma rmSync_dirs target st (p : Path) :
  p ∈ setupDirs (rmSync target st) <-> p ∈ setupDirs st /\ ~ target `prefix_of` p.
Proof. cbn. rewrite elem_of_filter. tauto. Qed.

Lemma beforeLaunch_files st (p : Path) :
  setupFiles (beforeLaunch st) !! p
  = if pathExists PERSISTENT_CONTEXT_DIR st && bool_decide (PERSISTENT_CONTEXT_DIR `prefix_of` p)
    then None else setupFiles st !! p.
Proof.
  unfold beforeLaunch. cbv zeta.
  change (pathExists PERSISTENT_CONTEXT_DIR (print SetupBanner st))
    with (pathExists PERSISTENT_CONTEXT_DIR st).
  destruct (pathExists PERSISTENT_CONTEXT_DIR st); [|reflexivity].
  change (setupFiles (print _ (print _ (print _ (print _ (print _ ?s))))))
    with (setupFiles s).
  rewrite rmSync_files. cbn [andb]. unfold bool_decide.
  destruct (decide_rel _ _ _); destruct (decide _); try reflexivity; contradiction.
Qed.

Lemma beforeLaunch_dirs st (p : Path) :
  p ∈ setupDirs (beforeLaunch st)
  <-> p ∈ setupDirs st /\
      (pathExists PERSISTENT_CONTEXT_DIR st = true -> ~ PERSISTENT_CONTEXT_DIR `prefix_of` p).
Proof.
  unfold beforeLaunch. cbv zeta.
  change (pathExists PERSISTENT_CONTEXT_DIR (print SetupBanner st))
    with (pathExists PERSISTENT_CONTEXT_DIR st).
  destruct (pathExists PERSISTENT_CONTEXT_DIR st).
  - change (setupDirs (print _ (print _ (print _ (print _ (print _ ?s))))))
      with (setupDirs s).
    rewrite rmSync_dirs. cbn. intuition.
  - cbn. intuition discriminate.
Qed.

Lemma launchedOn_files_outside (dir : Path) (written : list (Path * Buffer))
    (files : gmap Path Buffer) (p : Path) :
  ~ dir `prefix_of` p ->
  foldr (fun entry acc => <[dir ++ entry.1 := entry.2]> acc) files written !! p
  = files !! p.
Proof.
  intros Hp. induction written as [|[rel data] written IH]; [reflexivity|].
  cbn. rewrite lookup_insert_ne; [exact IH|].
  intros <-. apply Hp. eexists. reflexivity.
Qed.

Lemma launchedOn_files_inside (dir : Path) (written : list (Path * Buffer))
    (files : gmap Path Buffer) (p : Path) data :
  foldr (fun entry acc => <[dir ++ entry.1 := entry.2]> acc) files written !! p
  = Some data ->
  files !! p = Some data \/ exists rel, p = dir ++ rel /\ (rel, data) ∈ written.
Proof.
  induction written as [|[rel d] written IH]; [auto|]. cbn.
  destruct (decide (dir ++ rel = p)) as [<- | Hne].
  - rewrite lookup_insert_eq. intros [= <-]. right. exists rel. split; [reflexivity | left].
  - rewrite lookup_insert_ne by exact Hne. intros H.
    destruct (IH H) as [Hold | (rel' & -> & Hin)]; [auto|].
    right. exists rel'. split; [reflexivity | right; exact Hin].
Qed.

Lemma session_not_under (p : Path) :
  ~ PERSISTENT_CONTEXT_DIR `prefix_of` p ->
  forall q, q ∈ ancestors PERSISTENT_CONTEXT_DIR -> q <> p.
Proof.
  intros Hp q Hq ->. apply Hp. cbn in Hq.
  apply list_elem_of_singleton in Hq. subst. reflexivity.
Qed.

Lemma setup_state_cases desk st :
  let st' := (setup desk st).2 in
  (setupFiles st' = setupFiles (beforeLaunch st) /\
   setupDirs st' = setupDirs (beforeLaunch st) /\ is_Some (launching desk)) \/
  (setupFiles st'
   = setupFiles (launchedOn PERSISTENT_CONTEXT_DIR (profile desk) (beforeLaunch st)) /\
   setupDirs st'
   = setupDirs (launchedOn PERSISTENT_CONTEXT_DIR (profile desk) (beforeLaunch st)) /\
   launching desk = None).
Proof.
  rewrite setup_run. cbv zeta.
  destruct (launching desk); [left; cbn; eauto|]. right.
  destruct (scripting desk); [auto|].
  destruct (navigation desk); [auto|]. destruct (enterPressed desk); auto.
Qed.

(** X17: the setup script changes nothing outside the session directory,
    however it ends: a path that is not under [persistent_context] holds
    the same file before and after, and is a directory after just when it
    was one before. *)
Theorem setup_keeps_the_rest desk st (p : Path) :
  ~ PERSISTENT_CONTEXT_DIR `prefix_of` p ->
  setupFiles (setup desk st).2 !! p = setupFiles st !! p /\
  (p ∈ setupDirs (setup desk st).2 <-> p ∈ setupDirs st).
Proof.
  intros Hp.
  assert (setupFiles (beforeLaunch st) !! p = setupFiles st !! p) as Hfiles.
  { rewrite beforeLaunch_files, (bool_decide_eq_false_2 _ Hp), andb_false_r.
    reflexivity. }
  assert (p ∈ setupDirs (beforeLaunch st) <-> p ∈ setupDirs st) as Hdirs.
  { rewrite beforeLaunch_dirs. tauto. }
  destruct (setup_state_cases desk st) as [(-> & -> & _) | (-> & -> & _)].
  - auto.
  - cbn [setupFiles setupDirs launchedOn].
    rewrite (launchedOn_files_outside _ _ _ _ Hp), elem_of_union, elem_of_list_to_set.
    split; [exact Hfiles|]. rewrite Hdirs. split; [|auto].
    intros [H | H]; [exact H|]. destruct (session_not_under p Hp _ H). reflexivity.
Qed.

Lemma setup_keeps_the_rest_witness :
  setupFiles (setup sampleDesk sampleUsed).2 !! [js "notes.txt"]
  = setupFiles sampleUsed !! [js "notes.txt"].
Proof.
  apply (setup_keeps_the_rest sampleDesk sampleUsed [js "notes.txt"]).
  intros [rest Hrest]. discriminate Hrest.
Defined.

(** X18: the setup script starts afresh.  Of a session saved before,
    nothing is left: a file found under [persistent_context] after the
    script is one that the browser has written into its profile during this
    run, and there is none when the browser could not be launched. *)
Theorem setup_fresh_start desk st (p : Path) (data : Buffer) :
  SessionInDirectory st ->
  PERSISTENT_CONTEXT_DIR `prefix_of` p ->
  setupFiles (setup desk st).2 !! p = Some data ->
  launching desk = None /\
  exists rel, p = PERSISTENT_CONTEXT_DIR ++ rel /\ (rel, data) ∈ profile desk.
Proof.
  intros Hsound Hp.
  assert (setupFiles (beforeLaunch st) !! p = None) as Hnone.
  { rewrite beforeLaunch_files, (bool_decide_eq_true_2 _ Hp), andb_true_r.
    destruct (pathExists PERSISTENT_CONTEXT_DIR st) eqn:Hthere; [reflexivity|].
    destruct (setupFiles st !! p) eqn:Hfile; [|reflexivity].
    rewrite (Hsound p Hp) in Hthere; [discriminate Hthere | eauto]. }
  destruct (setup_state_cases desk st) as [(-> & _ & _) | (-> & _ & Hlaunch)].
  - rewrite Hnone. discriminate.
  - cbn [setupFiles launchedOn]. intros Hfile. split; [exact Hlaunch|].
    apply launchedOn_files_inside in Hfile as [Hold | Hnew]; [congruence | exact Hnew].
Qed.

Lemma setup_fresh_start_witness :
  launching sampleDesk = None /\
  exists rel,
    [js "persistent_context"; js "Cookies"] = PERSISTENT_CONTEXT_DIR ++ rel /\
    (rel, js "new") ∈ profile sampleDesk.
Proof.
  apply (setup_fresh_start sampleDesk sampleUsed
           [js "persistent_context"; js "Cookies"] (js "new")).
  - intros p _ _. vm_compute. reflexivity.
  - exists [js "Cookies"]. reflexivity.
  - vm_compute. reflexivity.
Defined.




Lemma pathExists_beforeLaunch st :
  pathExists PERSISTENT_CONTEXT_DIR (beforeLaunch st) = false.
Proof.
  unfold pathExists. apply orb_false_iff. split.
  - apply bool_decide_eq_false_2. rewrite beforeLaunch_dirs. intros [Hin Hnot].
    destruct (pathExists PERSISTENT_CONTEXT_DIR st) eqn:Hthere.
    + apply Hnot; reflexivity.
    + unfold pathExists in Hthere. apply orb_false_iff in Hthere as [Hd _].
      apply bool_decide_eq_false_1 in Hd. contradiction.
  - rewrite beforeLaunch_files.
    rewrite (bool_decide_eq_true_2 (PERSISTENT_CONTEXT_DIR `prefix_of` PERSISTENT_CONTEXT_DIR))
      by reflexivity.
    rewrite andb_true_r.
    destruct (pathExists PERSISTENT_CONTEXT_DIR st) eqn:Hthere; [reflexivity|].
    unfold pathExists in Hthere. apply orb_false_iff in Hthere as [_ Hf].
    destruct (setupFiles st !! PERSISTENT_CONTEXT_DIR); [discriminate Hf | reflexivity].
Qed.

(** X20: the setup and the extraction, one after the other.  Once the
    setup has launched the browser, the session directory is there however
    the setup ends, so that the extraction does not ask for a setup, even
    after a setup that failed.  When the browser could not be launched,
    there is no session left, not even the one of an earlier setup: the
    extraction exits with code 1 without a request to a browser. *)
Theorem setup_then_main v w desk st :
  (launching desk = None ->
   authenticated (afterSetup (setup desk st).2) = true) /\
  (is_Some (launching desk) ->
   authenticated (afterSetup (setup desk st).2) = false /\
   (main v w (afterSetup (setup desk st).2)).1 = Ok 1%Z /\
   ticks (main v w (afterSetup (setup desk st).2)).2 = 0).
Proof.
  split.
  - intros Hlaunch.
    destruct (setup_state_cases desk st) as [(_ & _ & [e He]) | (_ & Hdirs & _)];
      [congruence|].
    unfold authenticated, afterSetup, initial. cbn [dirs files]. rewrite Hdirs.
    apply orb_true_iff. left. apply bool_decide_eq_true_2.
    cbn [setupDirs launchedOn]. apply elem_of_union_r, elem_of_list_to_set.
    apply ancestors_self. discriminate.
  - intros [e He]. rewrite setup_run, He. cbn [snd].
    assert (authenticated (afterSetup (beforeLaunch st)) = false) as Hauth
      by apply pathExists_beforeLaunch.
    split; [exact Hauth|]. rewrite (main_unauthenticated v w _ Hauth). auto.
Qed.

Lemma setup_then_main_witness :
  authenticated (afterSetup (setup (mkDesk None [] None (Some TIMEOUT) false)
                               sampleUsed).2) = true.
Proof.
  apply (setup_then_main TypeScript sampleWorld
           (mkDesk None [] None (Some TIMEOUT) false) sampleUsed).
  reflexivity.
Defined.

(** ** The paths that the extraction writes *)

Lemma digit_safe c : isDigit c = true -> isSafeChar c = true.
Proof. unfold isSafeChar. intros ->. rewrite orb_true_r. reflexivity. Qed.

Lemma safeName_fallback kind n :
  kind ∈ [js "unknown_collection_"; js "unknown_class_"; js "unknown_picture_"] ->
  SafeName (kind ++ decimal n).
Proof.
  intros Hkind. unfold SafeName. rewrite forallb_app.
  assert (forallb isSafeChar (decimal n) = true) as ->.
  { apply forallb_forall. intros c Hc. apply digit_safe.
    exact (proj1 (forallb_forall _ _) (decimal_digits n) c Hc). }
  rewrite andb_true_r.
  apply list_elem_of_In in Hkind. cbn [In] in Hkind.
  destruct Hkind as [<- | [<- | [<- | []]]]; reflexivity.
Qed.

Lemma safeName_clean text fallback maxLength :
  SafeName fallback -> SafeName (textWithFallback text fallback maxLength).
Proof.
  intros Hfallback.
  destruct (textWithFallback_safe text fallback maxLength) as [-> | Hsafe];
    [exact Hfallback|].
  unfold matchesSafe in Hsafe. apply andb_true_iff in Hsafe as [Hsafe _]. exact Hsafe.
Qed.

Lemma imageName_file (folder : Path) name :
  isImageName folder name -> pathJoin folder [name] = folder ++ [name].
Proof.
  intros [[i ->] | [n ->]]; apply pathJoin_file.
  - apply tempName_nonempty.
  - apply finalName_nonempty.
Qed.


Lemma writesImages_refl st : WritesImages st st.
Proof. split; [intros p Hp; destruct Hp; reflexivity | auto]. Qed.

Lemma writesImages_trans st1 st2 st3 :
  WritesImages st1 st2 -> WritesImages st2 st3 -> WritesImages st1 st3.
Proof.
  intros [Hf Hd] [Hf' Hd']. split.
  - intros p Hp. destruct (decide (files st2 !! p = files st1 !! p)) as [Heq | Hne].
    + apply Hf'. congruence.
    + apply Hf, Hne.
  - intros p Hp. destruct (Hd' p Hp) as [Hin | Hnew]; auto.
Qed.

(** What changes nothing on the disk writes no image. *)
Lemma writesImages_same st st' :
  files st' = files st -> dirs st' = dirs st -> WritesImages st st'.
Proof.
  intros Hf Hd. split; [intros p Hp; destruct Hp; rewrite Hf; reflexivity|].
  intros p Hp. rewrite Hd in Hp. auto.
Qed.

Lemma main_writesImages v w : Respects WritesImages (main v w).
Proof.
  apply (respects_main WritesImages writesImages_refl writesImages_trans)
    with (Name := SafeName) (Folder := PictureFolder).
  - intros cur acts st. apply writesImages_same; reflexivity.
  - intros st. apply writesImages_same; reflexivity.
  - intros es st. apply writesImages_same; reflexivity.
  - apply safeName_clean.
  - apply safeName_fallback.
  - intros c k p Hc Hk Hp. exists c, k, p. auto.
  - intros folder name data st Hfolder Hname. split; [|auto].
    intros p Hp. right. exists folder, name. split; [exact Hfolder|].
    split; [exact Hname|].
    rewrite <- (imageName_file folder name Hname).
    destruct (decide (pathJoin folder [name] = p)) as [<- | Hne]; [reflexivity|].
    destruct Hp. cbn. apply lookup_insert_ne, Hne.
  - intros folder name st Hfolder Hname. split; [|auto].
    intros p Hp. right. exists folder, name. split; [exact Hfolder|].
    split; [exact Hname|].
    rewrite <- (imageName_file folder name Hname).
    destruct (decide (pathJoin folder [name] = p)) as [<- | Hne]; [reflexivity|].
    destruct Hp. cbn. apply lookup_delete_ne, Hne.
  - intros folder st Hfolder. split; [intros p Hp; destruct Hp; reflexivity|].
    intros p. cbn [dirs setDirs]. rewrite elem_of_union, elem_of_list_to_set.
    intros [Hin | Hin]; [auto|]. right. right. exists folder. split; [exact Hfolder|].
    apply ancestors_prefix, Hin.
  - intros st. unfold writeProfile. split; cbn [snd files dirs setDirs setFiles].
    + intros p Hp. left.
      destruct (decide (PERSISTENT_CONTEXT_DIR `prefix_of` p)) as [Hin | Hout];
        [exact Hin|].
      destruct Hp. apply profile_files_elsewhere, Hout.
    + intros p. rewrite elem_of_union, elem_of_list_to_set.
      intros [Hin | Hin]; [auto|]. right. left. apply ancestors_session, Hin.
Qed.

(** X21: the files of a run are where the names of the menu put them.
    Whatever the page shows and whatever fails, a file that a run of [main]
    creates, changes or removes is in the session directory, where the
    browser keeps its profile, or it is a temporary file or the image of a
    preset, right inside the folder of a picture.  That folder is [images]
    followed by the names of the collection, of the class and of the
    picture, the empty ones left out; a name has no unit outside
    [a-z0-9_-]: no separator, no dot.  The directories that the run makes
    are the session directory, such folders and the ones above them. *)
Theorem main_writes_images v w st :
  (forall p : Path, files (main v w st).2 !! p <> files st !! p ->
     PERSISTENT_CONTEXT_DIR `prefix_of` p \/
     exists c k pic name,
       forallb isSafeChar c = true /\ forallb isSafeChar k = true /\
       forallb isSafeChar pic = true /\
       isImageName (pathJoin DOWNLOADS_DIR [c; k; pic]) name /\
       p = pathJoin DOWNLOADS_DIR [c; k; pic] ++ [name]) /\
  (forall p : Path, p ∈ dirs (main v w st).2 ->
     p ∈ dirs st \/ p = PERSISTENT_CONTEXT_DIR \/
     exists c k pic,
       forallb isSafeChar c = true /\ forallb isSafeChar k = true /\
       forallb isSafeChar pic = true /\
       p `prefix_of` pathJoin DOWNLOADS_DIR [c; k; pic]) /\
  (forall c k pic : JSString,
     pathJoin DOWNLOADS_DIR [c; k; pic]
     = [js "images"] ++ List.filter (fun name => negb (isEmpty name)) [c; k; pic]) /\
  (forall c k pic : JSString, c <> [] -> k <> [] -> pic <> [] ->
     pathJoin DOWNLOADS_DIR [c; k; pic] = [js "images"; c; k; pic]).
Proof.
  destruct (main_writesImages v w st) as [Hfiles Hdirs].
  split; [|split; [|split]].
  - intros p Hp.
    destruct (Hfiles p Hp)
      as [Hsession
         | (folder & name & (c & k & pic & Hc & Hk & Hpic & ->) & Hname & ->)];
      [auto|].
    right. exists c, k, pic, name. auto.
  - intros p Hp.
    destruct (Hdirs p Hp) as [Hin | [Hsession | (folder & Hfolder & Hprefix)]]; [auto..|].
    destruct Hfolder as (c & k & pic & Hc & Hk & Hpic & ->).
    right. right. exists c, k, pic. auto.
  - reflexivity.
  - intros [|c0 c] [|k0 k] [|p0 pic] Hc Hk Hpic; try congruence. reflexivity.
Qed.

Lemma main_writes_images_witness :
  PERSISTENT_CONTEXT_DIR `prefix_of` [js "images"; js "c1"; js "k1"; js "p1"; js "p1_1.jpg"] \/
  exists c k pic name,
    forallb isSafeChar c = true /\ forallb isSafeChar k = true /\
    forallb isSafeChar pic = true /\
    isImageName (pathJoin DOWNLOADS_DIR [c; k; pic]) name /\
    [js "images"; js "c1"; js "k1"; js "p1"; js "p1_1.jpg"]
    = pathJoin DOWNLOADS_DIR [c; k; pic] ++ [name].
Proof.
  apply (main_writes_images TypeScript sampleWorld sampleStart).
  vm_compute. discriminate.
Defined.
